(** * PyAutoLens: the pixelized linear inversion core

    A shallow embedding of
      - [auto_lens/pixelization/covariance_matrix.py]
        (mapping matrix, D vector, memoized covariance search, breadth
        first search), and
      - [autolens/inversion/inversions.py]
        (data vector, curvature matrix, inversion, log determinants),
    and of the pair-based regularization builder that
    [auto_lens/pixelization/test_pixelization.py] exercises, together with
    the properties stated about them.

    Conventions of the embedding.
      - Python floats are embedded as exact rationals [Q]; the statements
        are about the arithmetic the code asks for, not about rounding.
      - Python [int] indices are embedded as [nat]: negative (wrapping)
        indices are outside the model.
      - A [dict] is a [gmap], a [set] a [gset], a [list] a [list].  A dict
        is iterated in the order of [map_to_list]; on exact rationals the
        order of a sum does not change its value (up to [Qeq]).
      - Exceptions are values of [exn]; code that may raise returns a
        [result].  An index out of range raises [IndexError], as in plain
        Python; the routines numba compiles do not check their bounds, and
        the statements about them are about runs that stay in range.
      - numpy's [linalg.solve], [linalg.cholesky] and [log] are library
        routines and stay abstract ([NumpyLinalg]). *)

From Stdlib Require Import QArith Qround Lia.
From stdpp Require Import base option list gmap sets fin_maps.

Local Open Scope Q_scope.

(** ** Exceptions and the result monad *)

Inductive exn : Set :=
| IndexError
| KeyError
| ZeroDivisionError
| LinAlgError
| InversionException.

(** [OutOfFuel] is not a Python outcome: it is what a fuel-bounded loop of
    the model answers when its fuel is spent.  Every loop below is proved
    never to answer it. *)
Inductive result (A : Type) : Type :=
| Ret (a : A)
| Raise (e : exn)
| OutOfFuel.
Arguments Ret {A} a.
Arguments Raise {A} e.
Arguments OutOfFuel {A}.

#[global] Instance result_ret : MRet result := @Ret.
#[global] Instance result_bind : MBind result := fun A B f m =>
  match m with
  | Ret a => f a
  | Raise e => Raise e
  | OutOfFuel => OutOfFuel
  end.

(** [for x in xs: acc = body acc x], stopping at the first exception. *)
Fixpoint foldM {A B : Type} (body : A -> B -> result A) (acc : A) (xs : list B)
  : result A :=
  match xs with
  | [] => Ret acc
  | x :: xs' => acc' ← body acc x; foldM body acc' xs'
  end.

(** [[f x for x in xs]], stopping at the first exception. *)
Fixpoint comprehension {A B : Type} (f : A -> result B) (xs : list A)
  : result (list B) :=
  match xs with
  | [] => Ret []
  | x :: xs' => y ← f x; ys ← comprehension f xs'; Ret (y :: ys)
  end.

(** [l[i]] on a Python list. *)
Definition getitem {A : Type} (l : list A) (i : nat) : result A :=
  match l !! i with
  | Some x => Ret x
  | None => Raise IndexError
  end.

(** [d[k]] on a Python dict. *)
Definition dict_getitem (d : gmap nat Q) (k : nat) : result Q :=
  match d !! k with
  | Some x => Ret x
  | None => Raise KeyError
  end.

(** ** Float arithmetic, on exact rationals *)

(** [x / y] *)
Definition truediv (x y : Q) : result Q :=
  if Qeq_bool y 0 then Raise ZeroDivisionError else Ret (x / y).

(** [x // y] *)
Definition floordiv (x y : Q) : result Q :=
  if Qeq_bool y 0 then Raise ZeroDivisionError
  else Ret (inject_Z (Qfloor (x / y))).

(** [x > y] *)
Definition Qgtb (x y : Q) : bool :=
  match x ?= y with
  | Gt => true
  | _ => false
  end.

(** Python's [sum]: a left fold from [0]. *)
Definition Qsum (xs : list Q) : Q := foldl Qplus 0 xs.

Definition nat_to_Q (n : nat) : Q := inject_Z (Z.of_nat n).

(** ** covariance_matrix.py *)

(** *** create_mapping_matrix *)

(** One turn of the loop [for i in range(total_sub_pixels)]. *)
Definition mapping_matrix_step (sub_grid_fraction : Q)
    (sub_to_source sub_to_image : list nat)
    (f : list (gmap nat Q)) (i : nat) : result (list (gmap nat Q)) :=
  o ← getitem sub_to_image i;
  r ← getitem sub_to_source i;
  row ← getitem f r;
  match row !! o with
  | Some v => Ret (<[r := <[o := v + sub_grid_fraction]> row]> f)
  | None => Ret (<[r := <[o := sub_grid_fraction]> row]> f)
  end.

Definition create_mapping_matrix (source_pixel_total image_pixel_total
    sub_grid_size : nat) (sub_to_source sub_to_image : list nat)
  : result (list (gmap nat Q)) :=
  let total_sub_pixels := (image_pixel_total * sub_grid_size ^ 2)%nat in
  inv ← truediv 1 (nat_to_Q sub_grid_size);
  let sub_grid_fraction := inv ^ 2 in
  let f := replicate source_pixel_total (∅ : gmap nat Q) in
  foldM (mapping_matrix_step sub_grid_fraction sub_to_source sub_to_image)
        f (seq 0 total_sub_pixels).

(** Entry [(r, o)] of a list-of-dicts matrix; an absent key reads as 0. *)
Definition entry (f : list (gmap nat Q)) (r o : nat) : Q :=
  match f !! r with
  | Some row => default 0 (row !! o)
  | None => 0
  end.

(** [d.keys()] *)
Definition keys (d : gmap nat Q) : list nat := (map_to_list d).*1.

(** *** create_d_matrix *)

Definition value_for_pixel_map (noise_vector image_vector : list Q)
    (pixel_map : gmap nat Q) : result Q :=
  foldM (fun value index =>
           img ← getitem image_vector index;
           w ← dict_getitem pixel_map index;
           n ← getitem noise_vector index;
           t ← floordiv (img * w) n;
           Ret (value + t))
        0 (keys pixel_map).

Definition create_d_matrix (pixel_maps : list (gmap nat Q))
    (noise_vector image_vector : list Q) : result (list Q) :=
  comprehension (value_for_pixel_map noise_vector image_vector) pixel_maps.

(** *** BreadthFirstSearch *)

Record BreadthFirstSearch : Type := mkBFS {
  bfs_graph : list (list nat);
  queue : list nat;
  visited : gset nat
}.

(** [BreadthFirstSearch(graph)] *)
Definition bfs_init (graph : list (list nat)) : BreadthFirstSearch :=
  mkBFS graph [] ∅.

(** The body of [for neighbour in self.graph[index]]. *)
Definition enqueue_unvisited (bfs : BreadthFirstSearch) (neighbour : nat)
  : BreadthFirstSearch :=
  if decide (neighbour ∈ visited bfs) then bfs
  else mkBFS (bfs_graph bfs) (queue bfs ++ [neighbour])
             ({[neighbour]} ∪ visited bfs).

Definition add_neighbours_of (index : nat) (bfs : BreadthFirstSearch)
  : result BreadthFirstSearch :=
  let bfs1 := mkBFS (bfs_graph bfs) (queue bfs) ({[index]} ∪ visited bfs) in
  nbrs ← getitem (bfs_graph bfs) index;
  Ret (foldl enqueue_unvisited bfs1 nbrs).

(** One request to the generator [neighbours()]: [None] when the queue is
    empty (the generator stops), otherwise the index it yields and the
    state it leaves. *)
Definition next_neighbour (bfs : BreadthFirstSearch)
  : option (nat * BreadthFirstSearch) :=
  match queue bfs with
  | [] => None
  | index :: rest => Some (index, mkBFS (bfs_graph bfs) rest (visited bfs))
  end.

(** *** CovarianceMatrixGenerator *)

Record CovarianceMatrixGenerator : Type := mkGenerator {
  pixel_maps : list (gmap nat Q);
  noise_vector : list Q;
  graph : list (list nat);
  calculated_covariances : gmap (nat * nat) Q;
  non_zero_covariances : gmap (nat * nat) Q;
  neighbour_search_limit : Q;
  no_source_pixels : nat;
  neighbour_lists : list (list nat)
}.

(** [CovarianceMatrixGenerator.__init__] *)
Definition generator_init (pixel_maps : list (gmap nat Q))
    (noise_vector : list Q) (graph : list (list nat))
    (neighbour_search_limit : Q) : CovarianceMatrixGenerator :=
  mkGenerator pixel_maps noise_vector graph ∅ ∅ neighbour_search_limit
              (length pixel_maps) (replicate (length pixel_maps) []).

Definition set_calculated (g : CovarianceMatrixGenerator)
    (c : gmap (nat * nat) Q) : CovarianceMatrixGenerator :=
  mkGenerator (pixel_maps g) (noise_vector g) (graph g) c
              (non_zero_covariances g) (neighbour_search_limit g)
              (no_source_pixels g) (neighbour_lists g).

Definition set_non_zero (g : CovarianceMatrixGenerator)
    (c : gmap (nat * nat) Q) : CovarianceMatrixGenerator :=
  mkGenerator (pixel_maps g) (noise_vector g) (graph g)
              (calculated_covariances g) c (neighbour_search_limit g)
              (no_source_pixels g) (neighbour_lists g).

Definition set_neighbour_lists (g : CovarianceMatrixGenerator)
    (l : list (list nat)) : CovarianceMatrixGenerator :=
  mkGenerator (pixel_maps g) (noise_vector g) (graph g)
              (calculated_covariances g) (non_zero_covariances g)
              (neighbour_search_limit g) (no_source_pixels g) l.

(** The keys of [mapping_dict_1] that pass [if i in mapping_dict_2]. *)
Definition shared_keys (mapping_dict_1 mapping_dict_2 : gmap nat Q)
  : list nat :=
  filter (fun i => is_Some (mapping_dict_2 !! i)) (keys mapping_dict_1).

Definition calculate_covariance (g : CovarianceMatrixGenerator)
    (source_index_a source_index_b : nat) : result Q :=
  mapping_dict_1 ← getitem (pixel_maps g) source_index_a;
  mapping_dict_2 ← getitem (pixel_maps g) source_index_b;
  terms ← comprehension
            (fun i =>
               x ← dict_getitem mapping_dict_1 i;
               y ← dict_getitem mapping_dict_2 i;
               n ← getitem (noise_vector g) i;
               floordiv (x * y) n)
            (shared_keys mapping_dict_1 mapping_dict_2);
  Ret (Qsum terms).

Definition add_covariance_for_indices (g : CovarianceMatrixGenerator)
    (source_index_a source_index_b : nat)
  : result (Q * CovarianceMatrixGenerator) :=
  let tup := (source_index_a, source_index_b) in
  match calculated_covariances g !! tup with
  | Some v => Ret (v, g)
  | None =>
      value ← match calculated_covariances g
                    !! (source_index_b, source_index_a) with
              | Some v => Ret v
              | None => calculate_covariance g source_index_a source_index_b
              end;
      Ret (value, set_calculated g (<[tup := value]> (calculated_covariances g)))
  end.

(** [self.neighbour_lists[source_index].append(index)] *)
Definition append_neighbour (g : CovarianceMatrixGenerator)
    (source_index index : nat) : result CovarianceMatrixGenerator :=
  l ← getitem (neighbour_lists g) source_index;
  Ret (set_neighbour_lists g (<[source_index := l ++ [index]]> (neighbour_lists g))).

(** The body of [for index in bfs.neighbours()], for the yielded [index]
    and the state [bfs] the generator is left in. *)
Definition contiguous_body (source_index : nat)
    (g : CovarianceMatrixGenerator) (index : nat) (bfs : BreadthFirstSearch)
  : result (CovarianceMatrixGenerator * BreadthFirstSearch) :=
  '(result, g1) ← add_covariance_for_indices g source_index index;
  if Qgtb result (neighbour_search_limit g1) then
    g2 ← append_neighbour g1 source_index index;
    let g3 := set_non_zero g2
                (<[(source_index, index) := result]> (non_zero_covariances g2)) in
    bfs' ← add_neighbours_of index bfs;
    Ret (g3, bfs')
  else Ret (g1, bfs).

(** [for index in bfs.neighbours(): ...]; the generator runs
    [while not self.queue.empty()], which the model bounds by [fuel]. *)
Fixpoint contiguous_loop (fuel : nat) (source_index : nat)
    (g : CovarianceMatrixGenerator) (bfs : BreadthFirstSearch)
  : result (CovarianceMatrixGenerator * BreadthFirstSearch) :=
  match next_neighbour bfs with
  | None => Ret (g, bfs)
  | Some (index, bfs1) =>
      match fuel with
      | O => OutOfFuel
      | S fuel' =>
          '(g', bfs') ← contiguous_body source_index g index bfs1;
          contiguous_loop fuel' source_index g' bfs'
      end
  end.

(** Fuel that no traversal of [graph] can spend: one turn per entry of the
    adjacency lists (see [contiguous_loop_fuel]). *)
Definition bfs_fuel (graph : list (list nat)) : nat :=
  length (concat graph).

(** [find_contiguous_covariances], returning the search state as well. *)
Definition find_contiguous_covariances_bfs (g : CovarianceMatrixGenerator)
    (source_index : nat)
  : result (CovarianceMatrixGenerator * BreadthFirstSearch) :=
  '(v, g1) ← add_covariance_for_indices g source_index source_index;
  let g2 := set_non_zero g1
              (<[(source_index, source_index) := v]> (non_zero_covariances g1)) in
  let bfs := bfs_init (graph g2) in
  bfs1 ← add_neighbours_of source_index bfs;
  contiguous_loop (bfs_fuel (graph g2)) source_index g2 bfs1.

Definition find_contiguous_covariances (g : CovarianceMatrixGenerator)
    (source_index : nat) : result CovarianceMatrixGenerator :=
  '(g', _) ← find_contiguous_covariances_bfs g source_index;
  Ret g'.

Definition find_all_contiguous_covariances (g : CovarianceMatrixGenerator)
  : result CovarianceMatrixGenerator :=
  foldM find_contiguous_covariances g (seq 0 (no_source_pixels g)).

(** The body of [for b in l] inside [for a in l]. *)
Definition non_contiguous_body (a : nat) (g : CovarianceMatrixGenerator)
    (b : nat) : result CovarianceMatrixGenerator :=
  if decide (a ≠ b) then
    '(result, g1) ← add_covariance_for_indices g a b;
    if Qgtb result 0 then
      Ret (set_non_zero g1 (<[(a, b) := result]> (non_zero_covariances g1)))
    else Ret g1
  else Ret g.

(** The body of [for l in self.neighbour_lists]. *)
Definition non_contiguous_list (g : CovarianceMatrixGenerator) (l : list nat)
  : result CovarianceMatrixGenerator :=
  foldM (fun g a => foldM (non_contiguous_body a) g l) g l.

Definition find_all_non_contiguous_covariances (g : CovarianceMatrixGenerator)
  : result CovarianceMatrixGenerator :=
  foldM non_contiguous_list g (neighbour_lists g).

(** [create_covariance_matrix], returning the whole generator. *)
Definition run_generator (pixel_maps : list (gmap nat Q))
    (noise_vector : list Q) (graph : list (list nat))
    (neighbour_search_limit : Q) : result CovarianceMatrixGenerator :=
  let generator :=
    generator_init pixel_maps noise_vector graph neighbour_search_limit in
  g1 ← find_all_contiguous_covariances generator;
  find_all_non_contiguous_covariances g1.

Definition create_covariance_matrix (pixel_maps : list (gmap nat Q))
    (noise_vector : list Q) (graph : list (list nat))
    (neighbour_search_limit : Q) : result (gmap (nat * nat) Q) :=
  g ← run_generator pixel_maps noise_vector graph neighbour_search_limit;
  Ret (non_zero_covariances g).

(** ** inversions.py *)

(** A two-dimensional float array with its [shape]. *)
Record ndarray2 : Type := mkArray {
  shape0 : nat;
  shape1 : nat;
  cells : list (list Q)
}.

(** [np.zeros((r, c))] *)
Definition np_zeros2 (r c : nat) : ndarray2 :=
  mkArray r c (replicate r (replicate c 0)).

(** [m[i, j]]; numba's nopython mode does not check the bounds, the model
    answers [IndexError] as plain Python does. *)
Definition mget (m : ndarray2) (i j : nat) : result Q :=
  row ← getitem (cells m) i;
  getitem row j.

(** [l[i] = x] *)
Definition setitem {A : Type} (l : list A) (i : nat) (x : A)
  : result (list A) :=
  if decide (i < length l)%nat then Ret (<[i := x]> l) else Raise IndexError.

(** [m[i, j] = x] *)
Definition mset (m : ndarray2) (i j : nat) (x : Q) : result ndarray2 :=
  row ← getitem (cells m) i;
  row' ← setitem row j x;
  Ret (mkArray (shape0 m) (shape1 m) (<[i := row']> (cells m))).

Definition data_vector_from_blurred_mapping_matrix_and_data
    (blurred_mapping_matrix : ndarray2) (image noise_map : list Q)
  : result (list Q) :=
  let data_vector := replicate (shape1 blurred_mapping_matrix) 0 in
  foldM (fun data_vector image_index =>
    foldM (fun data_vector pix_index =>
      old ← getitem data_vector pix_index;
      img ← getitem image image_index;
      m ← mget blurred_mapping_matrix image_index pix_index;
      n ← getitem noise_map image_index;
      t ← truediv (img * m) (n ^ 2);
      setitem data_vector pix_index (old + t))
     data_vector (seq 0 (shape1 blurred_mapping_matrix)))
   data_vector (seq 0 (shape0 blurred_mapping_matrix)).

(** The loop state of [curvature_matrix_from_blurred_mapping_matrix_jit]. *)
Record curvature_state : Type := mkCurv {
  curvature_matrix : ndarray2;
  flist : list Q;
  iflist : list nat
}.

(** [for pixel_index in range(shape[1])]: collect the positive entries of
    one image row; [index] is advanced before it is used. *)
Definition curvature_collect (blurred_mapping_matrix : ndarray2)
    (noise_map : list Q) (image_index : nat)
    (st : nat * list Q * list nat) (pixel_index : nat)
  : result (nat * list Q * list nat) :=
  let '(index, fl, ifl) := st in
  m ← mget blurred_mapping_matrix image_index pixel_index;
  if Qgtb m 0 then
    let index := S index in
    n ← getitem noise_map image_index;
    v ← truediv m n;
    fl' ← setitem fl index v;
    ifl' ← setitem ifl index pixel_index;
    Ret (index, fl', ifl')
  else Ret st.

(** [for i1 in range(index + 1): for j1 in range(index + 1)] *)
Definition curvature_accumulate (index : nat) (fl : list Q) (ifl : list nat)
    (c : ndarray2) : result ndarray2 :=
  foldM (fun c i1 =>
    foldM (fun c j1 =>
      ix ← getitem ifl i1;
      iy ← getitem ifl j1;
      old ← mget c ix iy;
      a ← getitem fl i1;
      b ← getitem fl j1;
      mset c ix iy (old + a * b))
     c (seq 0 (S index)))
   c (seq 0 (S index)).

(** The body of [for image_index in range(shape[0])]. *)
Definition curvature_row (blurred_mapping_matrix : ndarray2)
    (noise_map : list Q) (st : curvature_state) (image_index : nat)
  : result curvature_state :=
  '(index, fl, ifl) ←
     foldM (curvature_collect blurred_mapping_matrix noise_map image_index)
           (O, flist st, iflist st)
           (seq 0 (shape1 blurred_mapping_matrix));
  if decide (0 < index)%nat then
    c ← curvature_accumulate index fl ifl (curvature_matrix st);
    Ret (mkCurv c fl ifl)
  else Ret (mkCurv (curvature_matrix st) fl ifl).

(** The closing loops [curvature_matrix[i, j] = curvature_matrix[j, i]]. *)
Definition curvature_mirror (n : nat) (c : ndarray2) : result ndarray2 :=
  foldM (fun c i =>
    foldM (fun c j => x ← mget c j i; mset c i j x) c (seq 0 n))
   c (seq 0 n).

Definition curvature_matrix_from_blurred_mapping_matrix_jit
    (blurred_mapping_matrix : ndarray2) (noise_map : list Q)
    (flist : list Q) (iflist : list nat) : result ndarray2 :=
  let n := shape1 blurred_mapping_matrix in
  st ← foldM (curvature_row blurred_mapping_matrix noise_map)
             (mkCurv (np_zeros2 n n) flist iflist)
             (seq 0 (shape0 blurred_mapping_matrix));
  curvature_mirror n (curvature_matrix st).

Definition curvature_matrix_from_blurred_mapping_matrix
    (blurred_mapping_matrix : ndarray2) (noise_map : list Q)
  : result ndarray2 :=
  let flist := replicate (shape0 blurred_mapping_matrix) 0 in
  let iflist := replicate (shape0 blurred_mapping_matrix) O in
  curvature_matrix_from_blurred_mapping_matrix_jit
    blurred_mapping_matrix noise_map flist iflist.

(** The part of numpy's linear algebra the inversion calls.  These are
    library routines, not code of the repository: they are left abstract.
    [None] stands for [numpy.linalg.LinAlgError], the one exception they
    raise; a float is a rational, so [np_log] maps [Q] to [Q]. *)
Class NumpyLinalg : Type := {
  np_linalg_solve : ndarray2 -> list Q -> option (list Q);
  np_linalg_cholesky : ndarray2 -> option ndarray2;
  np_log : Q -> Q
}.

(** [np.add] on arrays of one shape (broadcasting is outside the model). *)
Definition np_add (a b : ndarray2) : ndarray2 :=
  mkArray (shape0 a) (shape1 a)
          (zip_with (zip_with Qplus) (cells a) (cells b)).

(** [np.diag] of a two-dimensional array. *)
Definition np_diag (m : ndarray2) : list Q :=
  omap (fun i => cells m !! i ≫= (.!! i))
       (seq 0 (Nat.min (shape0 m) (shape1 m))).

(** The collaborators handed to the inversion, by the methods it calls. *)
Record Convolver : Type := {
  convolve_mapping_matrix : ndarray2 -> ndarray2
}.

Record Mapper : Type := {
  mapping_matrix : ndarray2;
  pixel_neighbors : list (list nat)
}.

Record Regularization : Type := {
  regularization_matrix_from_pixel_neighbors : list (list nat) -> ndarray2
}.

Record Inversion : Type := mkInversion {
  blurred_mapping_matrix : ndarray2;
  regularization_matrix : ndarray2;
  inv_curvature_matrix : ndarray2;
  curvature_reg_matrix : ndarray2;
  solution_vector : list Q
}.

Section Inversions.
Context `{NumpyLinalg}.

(** The statements of [inversion_from_mapper_regularization_and_data] up
    to [np.add]: the mapping matrix, D, F, H and F+H. *)
Definition assemble (image noise_map : list Q) (convolver : Convolver)
    (mapper : Mapper) (regularization : Regularization)
  : result (ndarray2 * list Q * ndarray2 * ndarray2 * ndarray2) :=
  let blurred_mapping_matrix :=
    convolve_mapping_matrix convolver (mapping_matrix mapper) in
  data_vector ← data_vector_from_blurred_mapping_matrix_and_data
                  blurred_mapping_matrix image noise_map;
  curvature_matrix ← curvature_matrix_from_blurred_mapping_matrix
                       blurred_mapping_matrix noise_map;
  let regularization_matrix :=
    regularization_matrix_from_pixel_neighbors regularization
      (pixel_neighbors mapper) in
  let curvature_reg_matrix := np_add curvature_matrix regularization_matrix in
  Ret (blurred_mapping_matrix, data_vector, curvature_matrix,
       regularization_matrix, curvature_reg_matrix).

Definition inversion_from_mapper_regularization_and_data
    (image noise_map : list Q) (convolver : Convolver) (mapper : Mapper)
    (regularization : Regularization) : result Inversion :=
  '(blurred_mapping_matrix, data_vector, curvature_matrix,
    regularization_matrix, curvature_reg_matrix) ←
     assemble image noise_map convolver mapper regularization;
  match np_linalg_solve curvature_reg_matrix data_vector with
  | None => Raise LinAlgError
  | Some solution_vector =>
      Ret (mkInversion blurred_mapping_matrix regularization_matrix
             curvature_matrix curvature_reg_matrix solution_vector)
  end.

(** [try: ... except np.linalg.LinAlgError: raise exc.InversionException()] *)
Definition log_determinant_of_matrix_cholesky (matrix : ndarray2)
  : result Q :=
  match np_linalg_cholesky matrix with
  | Some l => Ret (2 * Qsum (map np_log (np_diag l)))
  | None => Raise InversionException
  end.

Definition log_det_curvature_reg_matrix_term (inv : Inversion) : result Q :=
  log_determinant_of_matrix_cholesky (curvature_reg_matrix inv).

Definition log_det_regularization_matrix_term (inv : Inversion) : result Q :=
  log_determinant_of_matrix_cholesky (regularization_matrix inv).
End Inversions.

(** [xᵗ·M·x] and positive definiteness, for the statements about [F+H]. *)
Definition quadratic_form (m : ndarray2) (x : list Q) : Q :=
  Qsum (zip_with (fun xi row => xi * Qsum (zip_with Qmult row x)) x (cells m)).

Definition positive_definite (m : ndarray2) : Prop :=
  forall x : list Q,
    length x = shape0 m -> Exists (fun xi => ~ xi == 0) x ->
    0 < quadratic_form m x.

(** ** The regularization matrix from pixel pairs *)

(** [h[i, j] += x] *)
Definition madd (h : ndarray2) (i j : nat) (x : Q) : result ndarray2 :=
  old ← mget h i j;
  mset h i j (old + x).

(** The four updates of one direction [a -> b] of an edge. *)
Definition regularize_direction (weights : list Q) (h : ndarray2)
    (a b : nat) : result ndarray2 :=
  w ← getitem weights a;
  h1 ← madd h a a (w ^ 2);
  h2 ← madd h1 b b (w ^ 2);
  h3 ← madd h2 a b (- w ^ 2);
  madd h3 b a (- w ^ 2).

(** Modelled from the spec: [pixelization.setup_regularization_matrix_via_pixel_pairs]
    is called by [test_pixelization.py] but its module is not among the
    sources.  Following section 4.3: for each listed pair [(a, b)],
    accumulate the direction [a -> b] with [weight[a]²] and the mirrored
    direction [b -> a] with [weight[b]²].  The neighbour counts take no
    part in the accumulation. *)
Definition setup_regularization_matrix_via_pixel_pairs (pixels : nat)
    (regularization_weights : list Q) (no_vertices : list nat)
    (pixel_pairs : list (nat * nat)) : result ndarray2 :=
  foldM (fun h '(a, b) =>
           h1 ← regularize_direction regularization_weights h a b;
           regularize_direction regularization_weights h1 b a)
        (np_zeros2 pixels pixels) pixel_pairs.

(** [m.T] and [np.matmul], as the test uses them to build its expectation. *)
Definition column (m : ndarray2) (j : nat) : list Q :=
  omap (.!! j) (cells m).

Definition np_transpose (m : ndarray2) : ndarray2 :=
  mkArray (shape1 m) (shape0 m) (map (column m) (seq 0 (shape1 m))).

Definition np_matmul (a b : ndarray2) : ndarray2 :=
  mkArray (shape0 a) (shape1 b)
    (map (fun row =>
            map (fun j => Qsum (zip_with Qmult row (column b j)))
                (seq 0 (shape1 b)))
         (cells a)).

(** [(a == b).all()] *)
Definition array_equal (a b : ndarray2) : bool :=
  bool_decide (shape0 a = shape0 b) && bool_decide (shape1 a = shape1 b)
  && forallb (fun '(r1, r2) =>
                forallb (fun '(x, y) => Qeq_bool x y) (zip r1 r2))
             (zip (cells a) (cells b)).

Definition array_of (rows : list (list Q)) : ndarray2 :=
  mkArray (length rows) (length (default [] (head rows))) rows.

(** The fixture of [test__one_B_matrix_size_3x3__makes_correct_regularization_matrix]. *)
Definition test_b_matrix : ndarray2 :=
  array_of [[-1; 1; 0]; [1; -1; 0]; [0; 0; 0]].

Definition test_regularization_matrix : ndarray2 :=
  np_matmul (np_transpose test_b_matrix) test_b_matrix.

(** The fixture of
    [test__one_B_matrix_size_3x3_variables_regularization_weights__makes_correct_regularization_matrix]:
    the rows of [test_b_matrix] scaled by the weights [[2, 4, 1]]. *)
Definition test_b_matrix_weighted : ndarray2 :=
  array_of [[-2; 2; 0]; [4; -4; 0]; [0; 0; 0]].

Definition test_regularization_matrix_weighted : ndarray2 :=
  np_matmul (np_transpose test_b_matrix_weighted) test_b_matrix_weighted.

(** ** Vocabulary of the statements *)

(** The number of sub-samples [k < n] assigned to reconstruction pixel [r]
    and observation pixel [o]. *)
Definition hits (sub_to_source sub_to_image : list nat) (r o n : nat) : nat :=
  length (filter (fun k => sub_to_source !! k = Some r /\
                           sub_to_image !! k = Some o) (seq 0 n)).

(** [l[i]] read as a number, [0] out of range. *)
Definition at0 (l : list Q) (i : nat) : Q := default 0 (l !! i).

(** [m[i, j]] read as a number, [0] out of range. *)
Definition cell (m : ndarray2) (i j : nat) : Q :=
  default 0 (cells m !! i ≫= (.!! j)).

(** The shape recorded in an array is the shape of its cells. *)
Definition array_wf (m : ndarray2) : Prop :=
  length (cells m) = shape0 m /\
  Forall (fun row => length row = shape1 m) (cells m).

(** The term of observation pixel [o] in entry [r] of the data vector of
    [inversions.py]: [image[o] * mapping[o, r] / noise[o]²]. *)
Definition data_term (m : ndarray2) (image noise_map : list Q) (r o : nat) : Q :=
  at0 image o * cell m o r / (at0 noise_map o ^ 2).

(** The term of observation pixel [o] in an entry of the D column of
    [covariance_matrix.py], with the division taken exactly:
    [image[o] * pixel_map[o] / noise[o]]. *)
Definition d_term (pixel_map : gmap nat Q) (noise_vector image_vector : list Q)
    (o : nat) : Q :=
  at0 image_vector o * default 0 (pixel_map !! o) / at0 noise_vector o.

(** The covariance as the specification writes it: the sum over the
    observation indices of both maps of
    [pixel_map_i[k] * pixel_map_j[k] / noise[k]], with true division. *)
Definition specified_covariance (pixel_map_i pixel_map_j : gmap nat Q)
    (noise_vector : list Q) : Q :=
  Qsum (map (fun k => default 0 (pixel_map_i !! k) * default 0 (pixel_map_j !! k)
                      / at0 noise_vector k)
            (elements (dom pixel_map_i ∩ dom pixel_map_j))).

(** The data-vector entry as the specification writes it:
    [Σ_o image[o] * mapping[o, r] / noise[o]²] over the keys of the map. *)
Definition specified_d_entry (pixel_map : gmap nat Q)
    (noise_vector image_vector : list Q) : Q :=
  Qsum (map (fun o => at0 image_vector o * default 0 (pixel_map !! o)
                      / (at0 noise_vector o ^ 2))
            (keys pixel_map)).

(** The inputs on which the division of [create_d_matrix] is exact: every
    key of the map is an index of the image and noise vectors, the noise
    there is positive and [image[o] * pixel_map[o] / noise[o]] is a whole
    number. *)
Definition d_exact (pixel_map : gmap nat Q) (noise_vector image_vector : list Q)
  : Prop :=
  forall o w, pixel_map !! o = Some w ->
    exists img n z,
      image_vector !! o = Some img /\ noise_vector !! o = Some n /\ 0 < n
      /\ img * w / n == inject_Z z.

(** The exceptions the arithmetic and the container accesses of the two
    modules raise by themselves. *)
Definition python_error (e : exn) : Prop :=
  e = IndexError \/ e = KeyError \/ e = ZeroDivisionError.

(** An outcome of straight-line code: a value or one of those exceptions,
    never spent fuel. *)
Definition plain {A : Type} (r : result A) : Prop :=
  match r with
  | Ret _ => True
  | Raise e => python_error e
  | OutOfFuel => False
  end.

(** The inputs of the failure scenario: two observations of three pixels,
    only the first pixel observed, and a zero regularization matrix. *)
Definition identity_convolver : Convolver :=
  {| convolve_mapping_matrix := fun m => m |}.

Definition deficient_mapper : Mapper :=
  {| mapping_matrix := array_of [[1; 0; 0]; [0; 0; 0]];
     pixel_neighbors := [[]; []; []] |}.

Definition zero_regularization : Regularization :=
  {| regularization_matrix_from_pixel_neighbors := fun _ => np_zeros2 3 3 |}.

(** Every index that occurs in an adjacency list. *)
Definition graph_values (graph : list (list nat)) : gset nat :=
  list_to_set (concat graph).

(** The adjacency lists name pixels of the graph only. *)
Definition graph_in_range (graph : list (list nat)) : Prop :=
  Forall (Forall (fun n => (n < length graph)%nat)) graph.

(** What bounds the turns a search has left: the indices waiting in the
    queue and the indices of the graph not visited yet. *)
Definition bfs_measure (bfs : BreadthFirstSearch) : nat :=
  (length (queue bfs)
   + size (graph_values (bfs_graph bfs) ∖ visited bfs))%nat.

(** The uses a client can make of a search: [bfs_run b ys b'] when, from
    the state [b], the client took the indices [ys] from [neighbours()],
    in this order, called [add_neighbours_of] on whatever indices it
    chose in between, and left the search in the state [b']. *)
Inductive bfs_run
  : BreadthFirstSearch -> list nat -> BreadthFirstSearch -> Prop :=
| bfs_run_stop (b : BreadthFirstSearch) : bfs_run b [] b
| bfs_run_yield (b b1 b' : BreadthFirstSearch) (index : nat) (ys : list nat) :
    next_neighbour b = Some (index, b1) ->
    bfs_run b1 ys b' -> bfs_run b (index :: ys) b'
| bfs_run_add (b b1 b' : BreadthFirstSearch) (index : nat) (ys : list nat) :
    add_neighbours_of index b = Ret b1 ->
    bfs_run b1 ys b' -> bfs_run b ys b'.

(** Two states of a generator over the same inputs. *)
Definition same_inputs (g g' : CovarianceMatrixGenerator) : Prop :=
  pixel_maps g' = pixel_maps g /\ noise_vector g' = noise_vector g
  /\ graph g' = graph g
  /\ neighbour_search_limit g' = neighbour_search_limit g
  /\ no_source_pixels g' = no_source_pixels g.

(** The cache of a generator is coherent: the two orders of a pair carry
    one value, every cached value is what [calculate_covariance] returns
    for the pair in one of its orders, and every recorded covariance is
    the cached one. *)
Definition cache_ok (g : CovarianceMatrixGenerator) : Prop :=
  (forall a b v w,
     calculated_covariances g !! (a, b) = Some v ->
     calculated_covariances g !! (b, a) = Some w -> v = w)
  /\ (forall a b v,
        calculated_covariances g !! (a, b) = Some v ->
        calculate_covariance g a b = Ret v \/ calculate_covariance g b a = Ret v)
  /\ (forall k v,
        non_zero_covariances g !! k = Some v ->
        calculated_covariances g !! k = Some v).

(** The search of a three-pixel line graph seeded at its end. *)
Definition line_graph : list (list nat) := [[1]; [0; 2]; [1]]%nat.



(** The inputs [create_covariance_matrix] expects: one adjacency list per
    pixel map, naming pixels of the graph only, and a non-zero noise value
    at every observation index of every pixel map. *)
Definition inputs_wf (pms : list (gmap nat Q)) (noise : list Q)
    (gr : list (list nat)) : Prop :=
  length gr = length pms
  /\ graph_in_range gr
  /\ Forall (fun pm : gmap nat Q =>
               forall k w, pm !! k = Some w ->
                 exists n, noise !! k = Some n /\ ~ n == 0) pms.

(** A generator over such inputs, with one neighbour list per pixel, each
    naming pixels only. *)
Definition generator_wf (g : CovarianceMatrixGenerator) : Prop :=
  no_source_pixels g = length (pixel_maps g)
  /\ inputs_wf (pixel_maps g) (noise_vector g) (graph g)
  /\ length (neighbour_lists g) = no_source_pixels g
  /\ Forall (Forall (fun n => (n < no_source_pixels g)%nat))
            (neighbour_lists g).

(** Every pair recorded in [g] is recorded in [g']. *)
Definition recorded_le (g g' : CovarianceMatrixGenerator) : Prop :=
  forall k, is_Some (non_zero_covariances g !! k) ->
            is_Some (non_zero_covariances g' !! k).

(** The invariant of a search seeded at [seed], for the indices [done]
    taken from it so far. *)
Definition bfs_invariant (graph : list (list nat)) (seed : nat)
    (b : BreadthFirstSearch) (done : list nat) : Prop :=
  bfs_graph b = graph
  /\ seed ∈ visited b
  /\ NoDup (done ++ queue b)
  /\ forall i, i ∈ done ++ queue b ->
       i ∈ visited b /\ i <> seed /\ i ∈ graph_values graph.

(** The state of the contiguous loop over well-formed inputs. *)
Definition contiguous_wf (g0 g : CovarianceMatrixGenerator)
    (b : BreadthFirstSearch) : Prop :=
  generator_wf g /\ same_inputs g0 g /\ recorded_le g0 g
  /\ bfs_graph b = graph g
  /\ Forall (fun n => (n < no_source_pixels g)%nat) (queue b).

(** What the second pass keeps when it starts from [g0]. *)
Definition non_contiguous_wf (g0 g : CovarianceMatrixGenerator) : Prop :=
  generator_wf g /\ same_inputs g0 g /\ recorded_le g0 g
  /\ neighbour_lists g = neighbour_lists g0.

(** The invariant of the contiguous loop seeded at [s], started from the
    generator [g0] with [l0] the neighbour list of [s]: [done] are the
    candidates taken from the search so far, in order, and [acc] those of
    them that passed the threshold. *)
Definition contiguous_inv (g0 : CovarianceMatrixGenerator) (s : nat)
    (l0 done acc : list nat) (g : CovarianceMatrixGenerator)
    (b : BreadthFirstSearch) : Prop :=
  same_inputs g0 g
  /\ bfs_invariant (graph g0) s b done
  /\ neighbour_lists g !! s = Some (l0 ++ acc)
  /\ (forall x, x ∈ acc -> x ∈ done)
  /\ (forall x, x ∈ done ->
        exists r,
          calculated_covariances g !! (s, x) = Some r
          /\ (x ∈ acc <-> Qgtb r (neighbour_search_limit g0) = true)
          /\ (x ∈ acc -> non_zero_covariances g !! (s, x) = Some r))
  /\ (forall a x, a <> s \/ x ∉ acc ->
        non_zero_covariances g !! (a, x) = non_zero_covariances g0 !! (a, x))
  /\ (forall x, x ∈ visited b -> x = s \/ x ∈ done ++ queue b)
  /\ (forall x, x ∈ done ++ queue b ->
        (exists nb, graph g0 !! s = Some nb /\ x ∈ nb)
        \/ (exists p nb, p ∈ acc /\ graph g0 !! p = Some nb /\ x ∈ nb))
  /\ (forall p nb, p = s \/ p ∈ acc -> graph g0 !! p = Some nb ->
        forall n, n ∈ nb -> n ∈ visited b).

(** An ordered pair of distinct indices drawn from one neighbour list. *)
Definition candidate_pair (lists : list (list nat)) (k : nat * nat) : Prop :=
  k.1 <> k.2 /\ exists l, l ∈ lists /\ k.1 ∈ l /\ k.2 ∈ l.

(** How the second pass moves a generator: the cache grows, and an entry
    of the map changes only into the positive cached value of a candidate
    pair. *)
Definition second_pass_le (lists : list (list nat))
    (g g' : CovarianceMatrixGenerator) : Prop :=
  same_inputs g g'
  /\ neighbour_lists g' = neighbour_lists g
  /\ calculated_covariances g ⊆ calculated_covariances g'
  /\ forall k,
       non_zero_covariances g' !! k = non_zero_covariances g !! k
       \/ (candidate_pair lists k
           /\ exists r, calculated_covariances g' !! k = Some r /\ 0 < r
                        /\ non_zero_covariances g' !! k = Some r).

(** The pair [k] has been examined: its covariance is cached, and recorded
    when positive. *)
Definition pair_settled (k : nat * nat) (g : CovarianceMatrixGenerator) : Prop :=
  exists r, calculated_covariances g !! k = Some r
            /\ (0 < r -> non_zero_covariances g !! k = Some r).

(** ** More of inversions.py *)

Definition reconstructed_data_vector_from_blurred_mapping_matrix_and_solution_vector
    (blurred_mapping_matrix : ndarray2) (solution_vector : list Q)
  : result (list Q) :=
  let reconstructed_data_vector :=
    replicate (shape0 blurred_mapping_matrix) 0 in
  foldM (fun reconstructed_data_vector i =>
    foldM (fun reconstructed_data_vector j =>
      old ← getitem reconstructed_data_vector i;
      x ← getitem solution_vector j;
      m ← mget blurred_mapping_matrix i j;
      setitem reconstructed_data_vector i (old + x * m))
     reconstructed_data_vector (seq 0 (length solution_vector)))
   reconstructed_data_vector (seq 0 (shape0 blurred_mapping_matrix)).

(** The property [Inversion.reconstructed_data_vector]. *)
Definition reconstructed_data_vector (inv : Inversion) : result (list Q) :=
  reconstructed_data_vector_from_blurred_mapping_matrix_and_solution_vector
    (blurred_mapping_matrix inv) (solution_vector inv).

(** ** Vocabulary of the further properties *)

(** The term of observation index [k] in [calculate_covariance]: the
    floored quotient [m1[k] * m2[k] // noise[k]]. *)
Definition covariance_term (m1 m2 : gmap nat Q) (noise : list Q) (k : nat) : Q :=
  inject_Z (Qfloor (default 0 (m1 !! k) * default 0 (m2 !! k) / at0 noise k)).

(** The term of observation index [o] in [create_d_matrix]: the floored
    quotient [image[o] * pixel_map[o] // noise[o]]. *)
Definition d_floor_term (pixel_map : gmap nat Q)
    (noise_vector image_vector : list Q) (o : nat) : Q :=
  inject_Z (Qfloor (at0 image_vector o * default 0 (pixel_map !! o)
                    / at0 noise_vector o)).

(** [x] can be reached from [s] along the adjacency lists of [gr]. *)
Inductive reachable (gr : list (list nat)) (s : nat) : nat -> Prop :=
| reachable_seed : reachable gr s s
| reachable_step (p x : nat) (nb : list nat) :
    reachable gr s p -> gr !! p = Some nb -> x ∈ nb -> reachable gr s x.

(** Every listed neighbour is reachable from the pixel that lists it, and
    the two pixels of every recorded pair are reachable from one pixel. *)
Definition local_to_graph (gr : list (list nat))
    (g : CovarianceMatrixGenerator) : Prop :=
  (forall s l x, neighbour_lists g !! s = Some l -> x ∈ l -> reachable gr s x)
  /\ (forall a b, is_Some (non_zero_covariances g !! (a, b)) ->
        exists s, reachable gr s a /\ reachable gr s b).

(** Every recorded covariance of two different pixels is above the limit
    of the search or above zero. *)
Definition off_diagonal_above (g : CovarianceMatrixGenerator) : Prop :=
  forall a b v, non_zero_covariances g !! (a, b) = Some v -> a <> b ->
    neighbour_search_limit g < v \/ 0 < v.

(** The assignment arrays cover the first [n] sub-samples and send them
    to reconstruction pixels below [N]. *)
Definition assignments_in_range (N : nat) (src img : list nat) (n : nat)
  : Prop :=
  forall k, (k < n)%nat ->
    exists r o, src !! k = Some r /\ img !! k = Some o /\ (r < N)%nat.

(** The number of sub-samples [k < n] of observation pixel [o]. *)
Definition column_hits (sub_to_image : list nat) (o n : nat) : nat :=
  length (filter (fun k => sub_to_image !! k = Some o) (seq 0 n)).

(** The weight of entry [(o, i)] of the mapping matrix in the curvature
    matrix: [mapping[o, i] / noise[o]] for a positive entry, nothing for
    the others, which the collecting loop skips. *)
Definition curvature_weight (m : ndarray2) (noise_map : list Q) (o i : nat) : Q :=
  if Qgtb (cell m o i) 0 then cell m o i / at0 noise_map o else 0.

(** The number of positive entries of row [o] in the columns below [p]. *)
Definition positives (m : ndarray2) (o p : nat) : nat :=
  length (filter (fun i => Qgtb (cell m o i) 0 = true) (seq 0 p)).

(** A square array of side [n] with the shape it records. *)
Definition square_wf (n : nat) (c : ndarray2) : Prop :=
  array_wf c /\ shape0 c = n /\ shape1 c = n.

(** The closing loops over the side [n], started on [c], have reached
    row [i], column [j]: the cells before that point hold the entry of the
    lower triangle of [c], the others the entry they started with. *)
Definition mirrored_up_to (n : nat) (c : ndarray2) (i j : nat)
    (c1 : ndarray2) : Prop :=
  square_wf n c1 /\
  forall a b, (a < n)%nat -> (b < n)%nat ->
    cell c1 a b = if decide (a < i \/ (a = i /\ b < j))%nat
                  then cell c (a `max` b) (a `min` b) else cell c a b.

(** What slot [s] of the two scratch lists adds to reconstruction pixel
    [a]: [flist[s]] when [iflist[s]] is [a]. *)
Definition slot_weight (fl : list Q) (ifl : list nat) (a s : nat) : Q :=
  if decide (ifl !! s = Some a) then at0 fl s else 0.

(** What the row loop of the curvature matrix keeps true of its state:
    the matrix is square of side [shape[1]], the two scratch lists have
    [shape[0]] slots, and slot 0, which no turn writes, still holds the
    zeros it was created with. *)
Definition curvature_state_wf (m : ndarray2) (st : curvature_state) : Prop :=
  square_wf (shape1 m) (curvature_matrix st)
  /\ length (flist st) = shape0 m /\ length (iflist st) = shape0 m
  /\ at0 (flist st) 0 = 0
  /\ forall x, iflist st !! 0%nat = Some x -> x = 0%nat.

(** * Properties *)

#[global] Arguments getitem : simpl never.
#[global] Arguments dict_getitem : simpl never.
#[global] Arguments setitem : simpl never.
#[global] Arguments truediv : simpl never.
#[global] Arguments floordiv : simpl never.
#[global] Arguments mget : simpl never.
#[global] Arguments mset : simpl never.

(** ** The result monad *)

Lemma bind_Ret_inv {A B : Type} (m : result A) (f : A -> result B) (b : B) :
  m ≫= f = Ret b -> exists a, m = Ret a /\ f a = Ret b.
Proof. destruct m as [a | e |]; simpl; intros Hm; try discriminate. eauto. Qed.

Lemma bind_Ret {A B : Type} (a : A) (f : A -> result B) : Ret a ≫= f = f a.
Proof. reflexivity. Qed.

(** Decompose a hypothesis [x ← m; k = Ret b]. *)
Ltac inv_bind H :=
  let a := fresh "a" in
  let Ha := fresh "H" a in
  apply bind_Ret_inv in H; destruct H as (a & Ha & H).

Lemma getitem_Ret {A : Type} (l : list A) (i : nat) (x : A) :
  getitem l i = Ret x <-> l !! i = Some x.
Proof.
  unfold getitem. destruct (l !! i); split; intros Hx; congruence.
Qed.

Lemma dict_getitem_Ret (d : gmap nat Q) (k : nat) (x : Q) :
  dict_getitem d k = Ret x <-> d !! k = Some x.
Proof.
  unfold dict_getitem. destruct (d !! k); split; intros Hx; congruence.
Qed.

Lemma getitem_lt {A : Type} (l : list A) (i : nat) :
  (i < length l)%nat -> exists x, getitem l i = Ret x /\ l !! i = Some x.
Proof.
  intros Hi. destruct (lookup_lt_is_Some_2 l i Hi) as [x Hx].
  exists x. split; [by apply getitem_Ret | done].
Qed.

Lemma foldM_app {A B : Type} (body : A -> B -> result A) (acc : A)
    (xs ys : list B) :
  foldM body acc (xs ++ ys) = (acc' ← foldM body acc xs; foldM body acc' ys).
Proof.
  revert acc. induction xs as [| x xs IH]; intros acc; simpl; [done |].
  destruct (body acc x) as [a | e |]; simpl; auto.
Qed.

Lemma seq_0_S (n : nat) : seq 0 (S n) = seq 0 n ++ [n].
Proof. by rewrite seq_S. Qed.

Lemma bind_Ret_r {A : Type} (m : result A) : m ≫= Ret = m.
Proof. by destruct m. Qed.

Lemma foldM_snoc {A B : Type} (body : A -> B -> result A) (acc : A)
    (xs : list B) (x : B) :
  foldM body acc (xs ++ [x]) = (acc' ← foldM body acc xs; body acc' x).
Proof.
  rewrite foldM_app. destruct (foldM body acc xs); simpl; try done.
  apply bind_Ret_r.
Qed.

(** A loop invariant that every completed turn keeps holds at the end. *)
Lemma foldM_invariant {A B : Type} (I : A -> Prop) (body : A -> B -> result A)
    (xs : list B) :
  (forall acc x acc', I acc -> x ∈ xs -> body acc x = Ret acc' -> I acc') ->
  forall acc acc', I acc -> foldM body acc xs = Ret acc' -> I acc'.
Proof.
  induction xs as [| x xs IH]; intros Hstep acc acc' Hacc Hrun; simpl in Hrun.
  - by inversion Hrun; subst.
  - inv_bind Hrun. eapply IH; [| | exact Hrun].
    + intros ? y ? ? Hy. apply Hstep; [done | by right].
    + eapply Hstep; [exact Hacc | by left | done].
Qed.

(** A loop whose every turn returns under the invariant returns. *)
Lemma foldM_total {A B : Type} (I : A -> Prop) (body : A -> B -> result A)
    (xs : list B) :
  (forall acc x, I acc -> x ∈ xs -> exists acc', body acc x = Ret acc' /\ I acc') ->
  forall acc, I acc -> exists acc', foldM body acc xs = Ret acc' /\ I acc'.
Proof.
  induction xs as [| x xs IH]; intros Hstep acc Hacc; simpl.
  - eauto.
  - destruct (Hstep acc x Hacc) as (acc1 & -> & Hacc1); [by left |]. simpl.
    apply IH; [| done]. intros ? y ? Hy. apply Hstep; [done | by right].
Qed.

Lemma comprehension_total {A B : Type} (f : A -> result B) (xs : list A) :
  (forall x, x ∈ xs -> exists y, f x = Ret y) ->
  exists ys, comprehension f xs = Ret ys /\ length ys = length xs.
Proof.
  induction xs as [| x xs IH]; intros Hf; simpl; [by exists [] |].
  destruct (Hf x) as (y & ->); [by left |]. simpl.
  destruct IH as (ys & -> & Hlen); [intros; apply Hf; by right |]. simpl.
  exists (y :: ys). simpl. by rewrite Hlen.
Qed.

Lemma comprehension_lookup {A B : Type} (f : A -> result B) (xs : list A)
    (ys : list B) :
  comprehension f xs = Ret ys ->
  length ys = length xs /\
  forall i x, xs !! i = Some x -> exists y, ys !! i = Some y /\ f x = Ret y.
Proof.
  revert ys. induction xs as [| x xs IH]; intros ys Hrun; simpl in Hrun.
  - inversion Hrun; subst. split; [done | intros i x Hx; by destruct i].
  - inv_bind Hrun. inv_bind Hrun. inversion Hrun; subst.
    destruct (IH _ Ha0) as [Hlen Hget]. split; [simpl; by rewrite Hlen |].
    intros [| i] z Hz; simpl in *; [inversion Hz; subst; eauto | eauto].
Qed.

(** ** Sums of rationals *)

Lemma foldl_Qplus_acc (xs : list Q) (a : Q) : foldl Qplus a xs == a + Qsum xs.
Proof.
  unfold Qsum. revert a. induction xs as [| x xs IH]; intros a; simpl.
  - ring.
  - rewrite (IH (a + x)), (IH (0 + x)). ring.
Qed.

Lemma Qsum_nil : Qsum [] = 0.
Proof. reflexivity. Qed.

Lemma Qsum_cons (x : Q) (xs : list Q) : Qsum (x :: xs) == x + Qsum xs.
Proof. unfold Qsum at 1. simpl. rewrite foldl_Qplus_acc. ring. Qed.

Lemma Qsum_app (xs ys : list Q) : Qsum (xs ++ ys) == Qsum xs + Qsum ys.
Proof.
  induction xs as [| x xs IH]; simpl.
  - rewrite Qsum_nil. ring.
  - rewrite !Qsum_cons, IH. ring.
Qed.

Lemma Qsum_snoc (xs : list Q) (x : Q) : Qsum (xs ++ [x]) == Qsum xs + x.
Proof. rewrite Qsum_app, Qsum_cons, Qsum_nil. ring. Qed.

Lemma Qgtb_true (x y : Q) : Qgtb x y = true <-> y < x.
Proof.
  unfold Qgtb. rewrite (Qgt_alt x y).
  destruct (x ?= y); split; intros Hc; congruence.
Qed.

Lemma Qgtb_false (x y : Q) : Qgtb x y = false <-> x <= y.
Proof.
  split.
  - intros Hf. apply Qnot_lt_le. intros Hlt. apply Qgtb_true in Hlt. congruence.
  - intros Hle. destruct (Qgtb x y) eqn:Hg; [| done].
    apply Qgtb_true in Hg. by apply Qlt_not_le in Hg.
Qed.

(** ** create_mapping_matrix *)

Lemma nat_to_Q_S (n : nat) : nat_to_Q (S n) == nat_to_Q n + 1.
Proof.
  unfold nat_to_Q. rewrite Nat2Z.inj_succ, <- Z.add_1_r, inject_Z_plus.
  reflexivity.
Qed.

Lemma hits_S (src img : list nat) (r o n : nat) :
  hits src img r o (S n) =
  (hits src img r o n +
   (if decide (src !! n = Some r /\ img !! n = Some o) then 1 else 0))%nat.
Proof.
  unfold hits. rewrite seq_S, filter_app, length_app. simpl.
  rewrite filter_cons, filter_nil. by destruct (decide _).
Qed.

Lemma entry_insert (f : list (gmap nat Q)) (row : gmap nat Q) (r o r' o' : nat)
    (x : Q) :
  f !! r' = Some row ->
  entry (<[r' := <[o' := x]> row]> f) r o =
  if decide (r = r' /\ o = o') then x else entry f r o.
Proof.
  intros Hrow. unfold entry.
  destruct (decide (r = r')) as [-> | Hr].
  - rewrite list_lookup_insert_eq by (by eapply lookup_lt_Some).
    rewrite Hrow. destruct (decide (o = o')) as [-> | Ho].
    + rewrite lookup_insert_eq. by rewrite decide_True.
    + rewrite lookup_insert_ne by done. rewrite decide_False; [done | tauto].
  - rewrite list_lookup_insert_ne by done. rewrite decide_False; [done | tauto].
Qed.

(** The state of the mapping loop after [n] turns. *)
Lemma mapping_matrix_loop (N : nat) (frac : Q) (src img : list nat) (n : nat) :
  (n <= length src)%nat -> (n <= length img)%nat ->
  (forall k r, (k < n)%nat -> src !! k = Some r -> (r < N)%nat) ->
  exists f,
    foldM (mapping_matrix_step frac src img) (replicate N ∅) (seq 0 n) = Ret f
    /\ length f = N
    /\ forall r o, entry f r o == frac * nat_to_Q (hits src img r o n).
Proof.
  induction n as [| n IH]; intros Hsrc Himg Hrange.
  - exists (replicate N ∅). split; [done |]. split; [apply length_replicate |].
    intros r o. unfold entry, hits. simpl.
    destruct (replicate N ∅ !! r) as [row |] eqn:Hrow.
    + apply lookup_replicate in Hrow as [-> _]. rewrite lookup_empty. simpl.
      unfold nat_to_Q. simpl. ring.
    + unfold nat_to_Q. simpl. ring.
  - destruct IH as (f & Hrun & Hlen & Hentry); [lia | lia | |].
    { intros k r Hk. apply Hrange. lia. }
    rewrite seq_S, foldM_app, Hrun. simpl. unfold mapping_matrix_step.
    destruct (getitem_lt img n) as (o' & -> & Ho'); [lia |].
    destruct (getitem_lt src n) as (r' & -> & Hr'); [lia |]. simpl.
    assert (Hr'N : (r' < N)%nat) by (eapply Hrange; [| exact Hr']; lia).
    destruct (getitem_lt f r') as (row & -> & Hrow); [lia |]. simpl.
    assert (Hstep : forall x,
      (x == entry f r' o' + frac) ->
      length (<[r' := <[o' := x]> row]> f) = N /\
      forall r o, entry (<[r' := <[o' := x]> row]> f) r o
                  == frac * nat_to_Q (hits src img r o (S n))).
    { intros x Hx. split; [by rewrite length_insert |]. intros r o.
      rewrite (entry_insert _ _ _ _ _ _ _ Hrow), hits_S.
      destruct (decide (r = r' /\ o = o')) as [[-> ->] | Hne].
      - rewrite decide_True by done. rewrite Nat.add_1_r, nat_to_Q_S.
        rewrite Hx, Hentry. ring.
      - rewrite decide_False by (intros [? ?]; apply Hne; split; congruence).
        rewrite Nat.add_0_r. apply Hentry. }
    destruct (row !! o') as [v |] eqn:Hv; simpl.
    + eexists. split; [reflexivity |]. apply Hstep.
      unfold entry. rewrite Hrow, Hv. reflexivity.
    + eexists. split; [reflexivity |]. apply Hstep.
      unfold entry. rewrite Hrow, Hv. simpl. ring.
Qed.

Lemma nat_to_Q_pos (n : nat) : (0 < n)%nat -> ~ nat_to_Q n == 0.
Proof.
  intros Hn Hq. unfold nat_to_Q, Qeq in Hq. simpl in Hq. lia.
Qed.

(** C9. Given a positive sub-grid factor [S], assignment arrays covering
    the [P * S²] sub-samples and reconstruction assignments below [N],
    [create_mapping_matrix] returns [N] rows whose entry [(r, o)] is
    [1/S²] times the number of sub-samples assigned to [r] and [o]. *)
Theorem create_mapping_matrix_counts (N P S : nat) (src img : list nat) :
  (0 < S)%nat ->
  (P * S ^ 2 <= length src)%nat -> (P * S ^ 2 <= length img)%nat ->
  (forall k r, (k < P * S ^ 2)%nat -> src !! k = Some r -> (r < N)%nat) ->
  exists f,
    create_mapping_matrix N P S src img = Ret f
    /\ length f = N
    /\ forall r o,
         entry f r o
         == (1 / nat_to_Q S ^ 2) * nat_to_Q (hits src img r o (P * S ^ 2)).
Proof.
  intros HS Hsrc Himg Hrange. unfold create_mapping_matrix, truediv.
  pose proof (nat_to_Q_pos S HS) as HSq.
  destruct (Qeq_bool (nat_to_Q S) 0) eqn:Hz.
  { apply Qeq_bool_iff in Hz. contradiction. }
  simpl.
  destruct (mapping_matrix_loop N ((1 / nat_to_Q S) ^ 2) src img (P * S ^ 2))
    as (f & Hrun & Hlen & Hentry); [done | done | done |].
  exists f. split; [exact Hrun |]. split; [exact Hlen |].
  intros r o. rewrite Hentry. simpl. field. exact HSq.
Qed.

(** The scenario of C9: [sub_grid_size = 2], the four sub-samples of
    observation pixel 0 all assigned to reconstruction pixel 2. *)
Lemma create_mapping_matrix_counts_witness :
  exists f,
    create_mapping_matrix 3 1 2 [2; 2; 2; 2]%nat [0; 0; 0; 0]%nat = Ret f
    /\ length f = 3%nat
    /\ entry f 2 0 == 1.
Proof.
  destruct (create_mapping_matrix_counts 3 1 2 [2; 2; 2; 2]%nat [0; 0; 0; 0]%nat)
    as (f & Hrun & Hlen & Hentry).
  - lia.
  - simpl. lia.
  - simpl. lia.
  - intros k r Hk Hr. simpl in Hk.
    destruct k as [| [| [| [| k]]]]; simpl in Hr; try lia;
      inversion Hr; subst; lia.
  - exists f. split; [exact Hrun |]. split; [exact Hlen |].
    rewrite Hentry. vm_compute. reflexivity.
Defined.

(** ** The regularization matrix of the 3x3 test *)

(** C3, as amended. For the pair list [[(0, 1)]], all-ones weights and
    neighbour counts [[1, 1, 0]] the pair-based builder returns
    [[[2,-2,0],[-2,2,0],[0,0,0]]], which is the product [Bᵗ·B] the test
    compares it with. *)
Theorem regularization_matrix_3x3 :
  exists h,
    setup_regularization_matrix_via_pixel_pairs
      3 [1; 1; 1] [1; 1; 0]%nat [(0, 1)]%nat = Ret h
    /\ cells h = [[2; -2; 0]; [-2; 2; 0]; [0; 0; 0]]
    /\ array_equal h test_regularization_matrix = true.
Proof. eexists. split; [vm_compute; reflexivity |]. split; reflexivity. Qed.

(** C3, as stated, fails: the builder's matrix is not
    [[[1,-1,0],[-1,1,0],[0,0,0]]]. *)
Lemma regularization_matrix_3x3_not_claimed :
  ~ exists h,
      setup_regularization_matrix_via_pixel_pairs
        3 [1; 1; 1] [1; 1; 0]%nat [(0, 1)]%nat = Ret h
      /\ array_equal h (array_of [[1; -1; 0]; [-1; 1; 0]; [0; 0; 0]]) = true.
Proof.
  intros (h & Hrun & Heq). vm_compute in Hrun. inversion Hrun; subst.
  vm_compute in Heq. discriminate.
Qed.

(** The builder also meets the expectation of the weighted 3x3 test. *)
Lemma regularization_matrix_3x3_weighted :
  exists h,
    setup_regularization_matrix_via_pixel_pairs
      3 [2; 4; 1] [1; 1; 0]%nat [(0, 1)]%nat = Ret h
    /\ cells h = [[20; -20; 0]; [-20; 20; 0]; [0; 0; 0]]
    /\ array_equal h test_regularization_matrix_weighted = true.
Proof. eexists. split; [vm_compute; reflexivity |]. split; reflexivity. Qed.

(** ** calculate_covariance *)

(** C1 at the input [pixel_maps = [{0: 0.5}]], [noise_vector = [1.0]]:
    the specified covariance of pixel 0 with itself is [0.25], the code
    returns [0.5 * 0.5 // 1.0 = 0.0]. *)
Theorem calculate_covariance_floor_divides :
  calculate_covariance (generator_init [{[0%nat := 1 # 2]}] [1] [[]] 0) 0 0
  = Ret 0
  /\ specified_covariance {[0%nat := 1 # 2]} {[0%nat := 1 # 2]} [1] == 1 # 4
  /\ ~ 0 == 1 # 4.
Proof.
  split; [vm_compute; reflexivity |]. split; [vm_compute; reflexivity |].
  intros Hq. discriminate Hq.
Qed.

(** ** The data vectors *)

Lemma setitem_lt {A : Type} (l : list A) (i : nat) (x : A) :
  (i < length l)%nat -> setitem l i x = Ret (<[i := x]> l).
Proof. intros Hi. unfold setitem. by rewrite decide_True. Qed.

Lemma at0_insert (l : list Q) (i j : nat) (x : Q) :
  (i < length l)%nat ->
  at0 (<[i := x]> l) j = if decide (j = i) then x else at0 l j.
Proof.
  intros Hi. unfold at0. destruct (decide (j = i)) as [-> | Hne].
  - by rewrite list_lookup_insert_eq.
  - by rewrite list_lookup_insert_ne.
Qed.

Lemma at0_lookup (l : list Q) (i : nat) (x : Q) : l !! i = Some x -> at0 l i = x.
Proof. unfold at0. by intros ->. Qed.

Lemma mget_cell (m : ndarray2) (i j : nat) :
  array_wf m -> (i < shape0 m)%nat -> (j < shape1 m)%nat ->
  mget m i j = Ret (cell m i j).
Proof.
  intros [Hrows Hcols] Hi Hj. unfold mget, cell.
  destruct (getitem_lt (cells m) i) as (row & -> & Hrow); [lia |]. simpl.
  rewrite Hrow. simpl.
  assert (Hlen : length row = shape1 m).
  { eapply Forall_forall in Hcols; [exact Hcols |].
    eapply list_elem_of_lookup_2, Hrow. }
  destruct (getitem_lt row j) as (x & -> & ->); [lia |]. done.
Qed.

Lemma truediv_nonzero (x y : Q) : ~ y == 0 -> truediv x y = Ret (x / y).
Proof.
  intros Hy. unfold truediv. destruct (Qeq_bool y 0) eqn:Hz; [| done].
  by apply Qeq_bool_iff in Hz.
Qed.

Lemma Qsquare_nonzero (n : Q) : 0 < n -> ~ n ^ 2 == 0.
Proof.
  intros Hn Hz. simpl in Hz.
  assert (Hsq : 0 < n * n) by (by apply Qmult_lt_0_compat).
  rewrite Hz in Hsq. by apply Qlt_irrefl in Hsq.
Qed.

Section DenseDataVector.
Variables (m : ndarray2) (image noise_map : list Q).
Hypothesis Hwf : array_wf m.
Hypothesis Himage : (shape0 m <= length image)%nat.
Hypothesis Hnoise : (shape0 m <= length noise_map)%nat.
Hypothesis Hpos :
  forall o n, (o < shape0 m)%nat -> noise_map !! o = Some n -> 0 < n.

(** The inner loop over [pix_index], for image pixel [o], after [j] turns. *)
Lemma data_vector_inner (o : nat) (dv : list Q) (j : nat) :
  (o < shape0 m)%nat -> length dv = shape1 m -> (j <= shape1 m)%nat ->
  exists dv',
    foldM (fun data_vector pix_index =>
             old ← getitem data_vector pix_index;
             img ← getitem image o;
             x ← mget m o pix_index;
             n ← getitem noise_map o;
             t ← truediv (img * x) (n ^ 2);
             setitem data_vector pix_index (old + t)) dv (seq 0 j) = Ret dv'
    /\ length dv' = shape1 m
    /\ forall r, at0 dv' r ==
                 at0 dv r + (if decide (r < j)%nat
                             then data_term m image noise_map r o else 0).
Proof.
  intros Ho Hlen. induction j as [| j IH]; intros Hj.
  - exists dv. split; [done |]. split; [done |]. intros r.
    rewrite decide_False by lia. ring.
  - destruct IH as (dv1 & Hrun & Hlen1 & Hval); [lia |].
    rewrite seq_S, foldM_app, Hrun. simpl.
    destruct (getitem_lt dv1 j) as (old & -> & Hold); [lia |].
    destruct (getitem_lt image o) as (img & -> & Himg); [lia |].
    rewrite mget_cell by (done || lia).
    destruct (getitem_lt noise_map o) as (n & -> & Hn); [lia |]. simpl.
    pose proof (Hpos o n Ho Hn) as Hnpos.
    rewrite truediv_nonzero by (by apply Qsquare_nonzero).
    simpl. rewrite setitem_lt by lia. simpl. eexists. split; [done |].
    split; [by rewrite length_insert |]. intros r.
    rewrite at0_insert by lia.
    destruct (decide (r = j)) as [-> | Hne].
    + rewrite decide_True by lia.
      specialize (Hval j). rewrite decide_False in Hval by lia.
      rewrite <- (at0_lookup _ _ _ Hold), Hval.
      unfold data_term. rewrite (at0_lookup _ _ _ Himg), (at0_lookup _ _ _ Hn).
      simpl. ring.
    + rewrite Hval.
      destruct (decide (r < j)%nat), (decide (r < S j)%nat); try lia; ring.
Qed.

(** The outer loop over [image_index], after [i] turns. *)
Lemma data_vector_outer (i : nat) :
  (i <= shape0 m)%nat ->
  exists dv,
    foldM (fun data_vector image_index =>
      foldM (fun data_vector pix_index =>
               old ← getitem data_vector pix_index;
               img ← getitem image image_index;
               x ← mget m image_index pix_index;
               n ← getitem noise_map image_index;
               t ← truediv (img * x) (n ^ 2);
               setitem data_vector pix_index (old + t))
            data_vector (seq 0 (shape1 m)))
      (replicate (shape1 m) 0) (seq 0 i) = Ret dv
    /\ length dv = shape1 m
    /\ forall r, (r < shape1 m)%nat ->
         at0 dv r == Qsum (map (data_term m image noise_map r) (seq 0 i)).
Proof.
  induction i as [| i IH]; intros Hi.
  - eexists. split; [done |]. split; [apply length_replicate |].
    intros r Hr. unfold at0. rewrite lookup_replicate_2 by done. reflexivity.
  - destruct IH as (dv & Hrun & Hlen & Hval); [lia |].
    rewrite seq_0_S, foldM_snoc, Hrun, bind_Ret.
    destruct (data_vector_inner i dv (shape1 m)) as (dv' & -> & Hlen' & Hval');
      [lia | done | lia |].
    exists dv'. split; [done |]. split; [done |]. intros r Hr.
    rewrite Hval', decide_True by done.
    rewrite map_app. simpl map. rewrite Qsum_snoc, Hval by done.
    reflexivity.
Qed.

Lemma data_vector_dense :
  exists d,
    data_vector_from_blurred_mapping_matrix_and_data m image noise_map = Ret d
    /\ length d = shape1 m
    /\ forall r, (r < shape1 m)%nat ->
         at0 d r == Qsum (map (data_term m image noise_map r)
                              (seq 0 (shape0 m))).
Proof. apply data_vector_outer. lia. Qed.
End DenseDataVector.

Lemma keys_lookup (d : gmap nat Q) (k : nat) :
  k ∈ keys d <-> exists w, d !! k = Some w.
Proof.
  unfold keys. rewrite list_elem_of_fmap. split.
  - intros ([k' w] & -> & Hkw). apply elem_of_map_to_list in Hkw. eauto.
  - intros (w & Hw). exists (k, w). split; [done |].
    by apply elem_of_map_to_list.
Qed.

Lemma floordiv_exact (x y : Q) (z : Z) :
  0 < y -> x / y == inject_Z z ->
  exists t, floordiv x y = Ret t /\ t == x / y.
Proof.
  intros Hy Hz. unfold floordiv. destruct (Qeq_bool y 0) eqn:Hy0.
  { apply Qeq_bool_iff in Hy0. rewrite Hy0 in Hy. by apply Qlt_irrefl in Hy. }
  eexists. split; [done |].
  rewrite (Qfloor_comp _ _ Hz), Qfloor_Z. symmetry. exact Hz.
Qed.

Lemma value_for_pixel_map_exact (pixel_map : gmap nat Q)
    (noise_vector image_vector : list Q) :
  d_exact pixel_map noise_vector image_vector ->
  exists v,
    value_for_pixel_map noise_vector image_vector pixel_map = Ret v
    /\ v == Qsum (map (d_term pixel_map noise_vector image_vector)
                      (keys pixel_map)).
Proof.
  intros Hexact. unfold value_for_pixel_map.
  assert (Hloop : forall ks acc,
    (forall k, k ∈ ks -> k ∈ keys pixel_map) ->
    exists v,
      foldM (fun value index =>
               img ← getitem image_vector index;
               w ← dict_getitem pixel_map index;
               n ← getitem noise_vector index;
               t ← floordiv (img * w) n;
               Ret (value + t)) acc ks = Ret v
      /\ v == acc + Qsum (map (d_term pixel_map noise_vector image_vector) ks)).
  { induction ks as [| k ks IH]; intros acc Hks.
    - exists acc. split; [done |]. simpl map. rewrite Qsum_nil. ring.
    - destruct (proj1 (keys_lookup pixel_map k)) as (w & Hw);
        [apply Hks; by left |].
      destruct (Hexact k w Hw) as (img & n & z & Himg & Hn & Hpos & Hz).
      destruct (floordiv_exact (img * w) n z Hpos Hz) as (t & Ht & Hteq).
      simpl. rewrite (proj2 (getitem_Ret _ _ _) Himg). simpl.
      rewrite (proj2 (dict_getitem_Ret _ _ _) Hw). simpl.
      rewrite (proj2 (getitem_Ret _ _ _) Hn). simpl. rewrite Ht. simpl.
      destruct (IH (acc + t)) as (v & -> & Hv);
        [intros; apply Hks; by right |].
      exists v. split; [done |]. simpl map. rewrite Hv, Qsum_cons, Hteq.
      unfold d_term at 2. rewrite Hw. simpl.
      rewrite (at0_lookup _ _ _ Himg), (at0_lookup _ _ _ Hn). ring. }
  destruct (Hloop (keys pixel_map) 0) as (v & Hrun & Hv); [done |].
  exists v. split; [done |]. rewrite Hv. ring.
Qed.

Lemma create_d_matrix_exact (pixel_maps : list (gmap nat Q))
    (noise_vector image_vector : list Q) :
  Forall (fun pm => d_exact pm noise_vector image_vector) pixel_maps ->
  exists d,
    create_d_matrix pixel_maps noise_vector image_vector = Ret d
    /\ length d = length pixel_maps
    /\ forall r pm, pixel_maps !! r = Some pm ->
         at0 d r == Qsum (map (d_term pm noise_vector image_vector) (keys pm)).
Proof.
  intros Hexact. unfold create_d_matrix.
  destruct (comprehension_total
              (value_for_pixel_map noise_vector image_vector) pixel_maps)
    as (d & Hrun & Hlen).
  { intros pm Hpm. eapply Forall_forall in Hexact; [| exact Hpm].
    destruct (value_for_pixel_map_exact _ _ _ Hexact) as (v & Hv & _). eauto. }
  exists d. split; [done |]. split; [done |]. intros r pm Hr.
  destruct (comprehension_lookup _ _ _ Hrun) as [_ Hget].
  destruct (Hget r pm Hr) as (y & Hy & Hval).
  rewrite (at0_lookup _ _ _ Hy).
  assert (Hpm : d_exact pm noise_vector image_vector).
  { eapply Forall_forall in Hexact; [exact Hexact |].
    eapply list_elem_of_lookup_2, Hr. }
  destruct (value_for_pixel_map_exact _ _ _ Hpm) as (v & Hv & Hveq).
  congruence.
Qed.

(** C4, as amended. On a well-shaped mapping matrix with positive noise,
    entry [r] of [data_vector_from_blurred_mapping_matrix_and_data] is
    [Σ_o image[o] * mapping[o, r] / noise[o]²].  [create_d_matrix] divides
    by the noise itself: where its divisions are exact, entry [r] is
    [Σ_o image[o] * pixel_map_r[o] / noise[o]] over the keys of the map. *)
Theorem data_vector_entries (m : ndarray2) (image noise_map : list Q)
    (pixel_maps : list (gmap nat Q)) (noise_vector image_vector : list Q) :
  array_wf m ->
  (shape0 m <= length image)%nat ->
  (shape0 m <= length noise_map)%nat ->
  (forall o n, (o < shape0 m)%nat -> noise_map !! o = Some n -> 0 < n) ->
  Forall (fun pm => d_exact pm noise_vector image_vector) pixel_maps ->
  (exists d,
     data_vector_from_blurred_mapping_matrix_and_data m image noise_map = Ret d
     /\ length d = shape1 m
     /\ forall r, (r < shape1 m)%nat ->
          at0 d r == Qsum (map (data_term m image noise_map r)
                               (seq 0 (shape0 m))))
  /\ (exists d,
        create_d_matrix pixel_maps noise_vector image_vector = Ret d
        /\ length d = length pixel_maps
        /\ forall r pm, pixel_maps !! r = Some pm ->
             at0 d r
             == Qsum (map (d_term pm noise_vector image_vector) (keys pm))).
Proof.
  intros Hwf Himage Hnoise Hpos Hexact. split.
  - by apply data_vector_dense.
  - by apply create_d_matrix_exact.
Qed.

Lemma data_vector_entries_witness :
  (exists d,
     data_vector_from_blurred_mapping_matrix_and_data
       (array_of [[1; 2]; [3; 4]]) [1; 1] [1; 2] = Ret d
     /\ length d = 2%nat
     /\ forall r, (r < 2)%nat ->
          at0 d r == Qsum (map (data_term (array_of [[1; 2]; [3; 4]])
                                          [1; 1] [1; 2] r) (seq 0 2)))
  /\ (exists d,
        create_d_matrix [{[0%nat := 1]}] [2] [4] = Ret d
        /\ length d = 1%nat
        /\ forall r pm, [{[0%nat := 1]}] !! r = Some pm ->
             at0 d r == Qsum (map (d_term pm [2] [4]) (keys pm))).
Proof.
  apply (data_vector_entries (array_of [[1; 2]; [3; 4]]) [1; 1] [1; 2]
           [{[0%nat := 1]}] [2] [4]).
  - split; [reflexivity |]. repeat constructor.
  - simpl. lia.
  - simpl. lia.
  - intros o n Ho Hn. destruct o as [| [| o]]; simpl in *;
      [inversion Hn; subst; reflexivity
      | inversion Hn; subst; reflexivity | lia].
  - constructor; [| constructor]. intros o w Hw.
    apply lookup_singleton_Some in Hw as [<- <-].
    exists 4, 2, 2%Z. repeat split; reflexivity.
Defined.

(** C4, as stated, fails for [create_d_matrix]: with
    [pixel_maps = [{0: 1}]], [noise_vector = [2]], [image_vector = [4]] the
    specified entry is [4 * 1 / 2² = 1] and the code returns
    [4 * 1 // 2 = 2]. *)
Lemma create_d_matrix_not_squared_noise :
  create_d_matrix [{[0%nat := 1]}] [2] [4] = Ret [2]
  /\ specified_d_entry {[0%nat := 1]} [2] [4] == 1
  /\ ~ 2 == 1.
Proof.
  split; [vm_compute; reflexivity |]. split; [vm_compute; reflexivity |].
  intros Hq. discriminate Hq.
Qed.

(** ** Outcomes of straight-line code *)

Lemma plain_bind {A B : Type} (m : result A) (f : A -> result B) :
  plain m -> (forall a, m = Ret a -> plain (f a)) -> plain (m ≫= f).
Proof. destruct m; simpl; auto. Qed.

Lemma plain_foldM {A B : Type} (body : A -> B -> result A) (acc : A)
    (xs : list B) :
  (forall a x, plain (body a x)) -> plain (foldM body acc xs).
Proof.
  intros Hbody. revert acc. induction xs as [| x xs IH]; intros acc; simpl.
  - done.
  - apply plain_bind; [apply Hbody | intros; apply IH].
Qed.

Lemma plain_comprehension {A B : Type} (f : A -> result B) (xs : list A) :
  (forall x, plain (f x)) -> plain (comprehension f xs).
Proof.
  intros Hf. induction xs as [| x xs IH]; simpl; [done |].
  apply plain_bind; [apply Hf | intros].
  apply plain_bind; [apply IH | done].
Qed.

Lemma plain_getitem {A : Type} (l : list A) (i : nat) : plain (getitem l i).
Proof. unfold getitem. destruct (l !! i); simpl; [done | by left]. Qed.

Lemma plain_dict_getitem (d : gmap nat Q) (k : nat) : plain (dict_getitem d k).
Proof.
  unfold dict_getitem. destruct (d !! k); simpl; [done | right; by left].
Qed.

Lemma plain_setitem {A : Type} (l : list A) (i : nat) (x : A) :
  plain (setitem l i x).
Proof. unfold setitem. destruct (decide _); simpl; [done | by left]. Qed.

Lemma plain_truediv (x y : Q) : plain (truediv x y).
Proof. unfold truediv. destruct (Qeq_bool y 0); simpl; [right; by right | done]. Qed.

Lemma plain_floordiv (x y : Q) : plain (floordiv x y).
Proof. unfold floordiv. destruct (Qeq_bool y 0); simpl; [right; by right | done]. Qed.

Lemma plain_mget (m : ndarray2) (i j : nat) : plain (mget m i j).
Proof.
  unfold mget. apply plain_bind; [apply plain_getitem | intros].
  apply plain_getitem.
Qed.

Lemma plain_mset (m : ndarray2) (i j : nat) (x : Q) : plain (mset m i j x).
Proof.
  unfold mset. apply plain_bind; [apply plain_getitem | intros].
  apply plain_bind; [apply plain_setitem | done].
Qed.

Create HintDb plain discriminated.
#[global] Hint Resolve plain_getitem plain_dict_getitem plain_setitem
  plain_truediv plain_floordiv plain_mget plain_mset : plain.

(** Break a goal [plain e] along the structure of [e]. *)
Ltac plain_step :=
  match goal with
  | |- plain (Ret _) => exact I
  | |- plain (_ ≫= _) => apply plain_bind; [| intros ? _]
  | |- plain (foldM _ _ _) => apply plain_foldM; intros ? ?
  | |- plain (comprehension _ _) => apply plain_comprehension; intros ?
  | |- plain (match ?x with _ => _ end) => destruct x
  | |- plain _ => solve [auto with plain]
  end.
Ltac plain_tac := repeat plain_step.

Lemma plain_data_vector (m : ndarray2) (image noise_map : list Q) :
  plain (data_vector_from_blurred_mapping_matrix_and_data m image noise_map).
Proof. unfold data_vector_from_blurred_mapping_matrix_and_data. plain_tac. Qed.

Lemma plain_curvature_matrix (m : ndarray2) (noise_map : list Q) :
  plain (curvature_matrix_from_blurred_mapping_matrix m noise_map).
Proof.
  unfold curvature_matrix_from_blurred_mapping_matrix,
    curvature_matrix_from_blurred_mapping_matrix_jit, curvature_mirror,
    curvature_row, curvature_accumulate, curvature_collect.
  plain_tac.
Qed.

Lemma plain_assemble (image noise_map : list Q) (convolver : Convolver)
    (mapper : Mapper) (regularization : Regularization) :
  plain (assemble image noise_map convolver mapper regularization).
Proof.
  unfold assemble. apply plain_bind; [apply plain_data_vector | intros ? _].
  apply plain_bind; [apply plain_curvature_matrix | intros ? _]. exact I.
Qed.

Lemma plain_not_InversionException {A : Type} (r : result A) :
  plain r -> r <> Raise InversionException.
Proof.
  intros Hr ->. simpl in Hr. destruct Hr as [? | [? | ?]]; discriminate.
Qed.

Lemma plain_not_OutOfFuel {A : Type} (r : result A) : plain r -> r <> OutOfFuel.
Proof. by intros Hr ->. Qed.

(** ** The inversion and its errors *)

(** C2, as amended. [inversion_from_mapper_regularization_and_data] raises
    [InversionException] on no input: it returns exactly when
    [np.linalg.solve] answers for the assembled [F+H], and a [LinAlgError]
    of the solver leaves it unchanged.  [InversionException] is what
    [log_determinant_of_matrix_cholesky], and with it the two log
    determinant properties, raise exactly when [np.linalg.cholesky]
    fails. *)
Theorem inversion_error_handling `{NumpyLinalg} (image noise_map : list Q)
    (convolver : Convolver) (mapper : Mapper) (regularization : Regularization)
    (matrix : ndarray2) (inv : Inversion) :
  inversion_from_mapper_regularization_and_data
    image noise_map convolver mapper regularization
  <> Raise InversionException
  /\ inversion_from_mapper_regularization_and_data
       image noise_map convolver mapper regularization
     = ('(b, d, f, h, fh) ←
          assemble image noise_map convolver mapper regularization;
        match np_linalg_solve fh d with
        | None => Raise LinAlgError
        | Some x => Ret (mkInversion b h f fh x)
        end)
  /\ (log_determinant_of_matrix_cholesky matrix = Raise InversionException
      <-> np_linalg_cholesky matrix = None)
  /\ (log_det_curvature_reg_matrix_term inv = Raise InversionException
      <-> np_linalg_cholesky (curvature_reg_matrix inv) = None)
  /\ (log_det_regularization_matrix_term inv = Raise InversionException
      <-> np_linalg_cholesky (regularization_matrix inv) = None).
Proof.
  assert (Hlog : forall m,
    log_determinant_of_matrix_cholesky m = Raise InversionException
    <-> np_linalg_cholesky m = None).
  { intros m. unfold log_determinant_of_matrix_cholesky.
    destruct (np_linalg_cholesky m); split; intros Hm; congruence. }
  split; [| split; [reflexivity | split; [apply Hlog | split; apply Hlog]]].
  unfold inversion_from_mapper_regularization_and_data.
  pose proof (plain_assemble image noise_map convolver mapper regularization)
    as Hplain.
  destruct (assemble image noise_map convolver mapper regularization)
    as [[[[[b d] f] h] fh] | e |]; simpl in *.
  - destruct (np_linalg_solve fh d); discriminate.
  - intros He. inversion He; subst. destruct Hplain as [? | [? | ?]]; discriminate.
  - discriminate.
Qed.

Lemma deficient_not_positive_definite :
  ~ positive_definite (array_of [[1; 0; 0]; [0; 0; 0]; [0; 0; 0]]).
Proof.
  intros Hpd. specialize (Hpd [0; 1; 0]).
  assert (Hlt : 0 < quadratic_form
                      (array_of [[1; 0; 0]; [0; 0; 0]; [0; 0; 0]]) [0; 1; 0]).
  { apply Hpd; [reflexivity |]. right. left. intros Hq.
    unfold Qeq in Hq. simpl in Hq. lia. }
  vm_compute in Hlt. discriminate Hlt.
Qed.

(** C2, as stated, fails: with a zero [H] and the rank-deficient [F] of two
    observations of three pixels, [F+H] is not positive definite, and for
    no behaviour of numpy does the inversion raise [InversionException]. *)
Lemma inversion_deficient_not_InversionException :
  assemble [1; 1] [1; 1] identity_convolver deficient_mapper zero_regularization
  = Ret (array_of [[1; 0; 0]; [0; 0; 0]], [1; 0; 0],
         array_of [[1; 0; 0]; [0; 0; 0]; [0; 0; 0]], np_zeros2 3 3,
         array_of [[1; 0; 0]; [0; 0; 0]; [0; 0; 0]])
  /\ ~ positive_definite (array_of [[1; 0; 0]; [0; 0; 0]; [0; 0; 0]])
  /\ ~ exists np : NumpyLinalg,
         @inversion_from_mapper_regularization_and_data np
           [1; 1] [1; 1] identity_convolver deficient_mapper zero_regularization
         = Raise InversionException.
Proof.
  split; [vm_compute; reflexivity |].
  split; [apply deficient_not_positive_definite |].
  intros (np & Hraise). revert Hraise.
  unfold inversion_from_mapper_regularization_and_data.
  replace (assemble [1; 1] [1; 1] identity_convolver deficient_mapper
             zero_regularization)
    with (Ret (array_of [[1; 0; 0]; [0; 0; 0]], [1; 0; 0],
               array_of [[1; 0; 0]; [0; 0; 0]; [0; 0; 0]], np_zeros2 3 3,
               array_of [[1; 0; 0]; [0; 0; 0]; [0; 0; 0]]))
    by (vm_compute; reflexivity).
  simpl. destruct (np_linalg_solve _ _); discriminate.
Qed.

(** ** The breadth first search *)

Lemma enqueue_unvisited_graph (b : BreadthFirstSearch) (n : nat) :
  bfs_graph (enqueue_unvisited b n) = bfs_graph b.
Proof. unfold enqueue_unvisited. by destruct (decide _). Qed.

Lemma foldl_enqueue_graph (nbrs : list nat) (b : BreadthFirstSearch) :
  bfs_graph (foldl enqueue_unvisited b nbrs) = bfs_graph b.
Proof.
  revert b. induction nbrs as [| n nbrs IH]; intros b; simpl; [done |].
  by rewrite IH, enqueue_unvisited_graph.
Qed.

Lemma graph_values_lookup (graph : list (list nat)) (i n : nat)
    (nbrs : list nat) :
  graph !! i = Some nbrs -> n ∈ nbrs -> n ∈ graph_values graph.
Proof.
  intros Hi Hn. unfold graph_values. apply elem_of_list_to_set.
  apply list_elem_of_In, in_concat. exists nbrs.
  split; apply list_elem_of_In; [by eapply list_elem_of_lookup_2 | done].
Qed.

Lemma size_graph_values (graph : list (list nat)) :
  (size (graph_values graph) <= bfs_fuel graph)%nat.
Proof.
  unfold graph_values, bfs_fuel.
  induction (concat graph) as [| x l IH].
  - rewrite list_to_set_nil, size_empty. simpl. lia.
  - rewrite list_to_set_cons, size_union_alt, size_singleton. simpl length.
    assert (Hsub : list_to_set l ∖ {[x]} ⊆ (list_to_set l : gset nat))
      by set_solver.
    apply subseteq_size in Hsub. lia.
Qed.

Lemma enqueue_unvisited_measure (b : BreadthFirstSearch) (n : nat) :
  n ∈ graph_values (bfs_graph b) ->
  bfs_measure (enqueue_unvisited b n) = bfs_measure b.
Proof.
  intros Hn. unfold enqueue_unvisited, bfs_measure.
  destruct (decide (n ∈ visited b)) as [Hv | Hv]; [done |]. simpl.
  rewrite length_app. simpl.
  assert (Hsplit : graph_values (bfs_graph b) ∖ visited b
                   = {[n]} ∪ graph_values (bfs_graph b) ∖ ({[n]} ∪ visited b)).
  { apply set_eq. intros x. rewrite elem_of_union, !elem_of_difference,
      elem_of_union, elem_of_singleton.
    destruct (decide (x = n)) as [-> | Hx]; [tauto | tauto]. }
  rewrite Hsplit.
  rewrite (size_union (C := gset nat) {[n]}
             (graph_values (bfs_graph b) ∖ ({[n]} ∪ visited b)))
    by set_solver.
  rewrite (size_singleton (C := gset nat) n). lia.
Qed.

Lemma foldl_enqueue_measure (nbrs : list nat) (b : BreadthFirstSearch) :
  (forall n, n ∈ nbrs -> n ∈ graph_values (bfs_graph b)) ->
  bfs_measure (foldl enqueue_unvisited b nbrs) = bfs_measure b.
Proof.
  revert b. induction nbrs as [| n nbrs IH]; intros b Hin; simpl; [done |].
  rewrite IH.
  - apply enqueue_unvisited_measure, Hin. by left.
  - intros k Hk. rewrite enqueue_unvisited_graph. apply Hin. by right.
Qed.

Lemma add_neighbours_of_Ret (index : nat) (b b' : BreadthFirstSearch) :
  add_neighbours_of index b = Ret b' ->
  exists nbrs,
    bfs_graph b !! index = Some nbrs
    /\ b' = foldl enqueue_unvisited
              (mkBFS (bfs_graph b) (queue b) ({[index]} ∪ visited b)) nbrs.
Proof.
  unfold add_neighbours_of. intros Hrun. inv_bind Hrun.
  apply getitem_Ret in Ha. inversion Hrun; subst. eauto.
Qed.

Lemma add_neighbours_of_measure (index : nat) (b b' : BreadthFirstSearch) :
  add_neighbours_of index b = Ret b' ->
  bfs_graph b' = bfs_graph b /\ (bfs_measure b' <= bfs_measure b)%nat.
Proof.
  intros Hrun. apply add_neighbours_of_Ret in Hrun as (nbrs & Hnbrs & ->).
  split; [by rewrite foldl_enqueue_graph |].
  rewrite foldl_enqueue_measure.
  - unfold bfs_measure. simpl.
    assert (Hsub : graph_values (bfs_graph b) ∖ ({[index]} ∪ visited b)
                   ⊆ graph_values (bfs_graph b) ∖ visited b) by set_solver.
    apply subseteq_size in Hsub. lia.
  - intros n Hn. simpl. by eapply graph_values_lookup.
Qed.

Lemma next_neighbour_Some (b b1 : BreadthFirstSearch) (index : nat) :
  next_neighbour b = Some (index, b1) ->
  queue b = index :: queue b1 /\ bfs_graph b1 = bfs_graph b
  /\ visited b1 = visited b /\ bfs_measure b = S (bfs_measure b1).
Proof.
  unfold next_neighbour, bfs_measure. destruct (queue b) as [| i rest] eqn:Hq;
    [discriminate |].
  intros Hn. inversion Hn; subst. simpl. auto.
Qed.

Lemma next_neighbour_None (b : BreadthFirstSearch) :
  next_neighbour b = None <-> queue b = [].
Proof. unfold next_neighbour. by destruct (queue b). Qed.

(** ** The generator: outcomes and frames *)

Lemma plain_add_neighbours_of (index : nat) (b : BreadthFirstSearch) :
  plain (add_neighbours_of index b).
Proof. unfold add_neighbours_of. plain_tac. Qed.

Lemma plain_calculate_covariance (g : CovarianceMatrixGenerator) (a b : nat) :
  plain (calculate_covariance g a b).
Proof. unfold calculate_covariance. plain_tac. Qed.

Lemma plain_add_covariance_for_indices (g : CovarianceMatrixGenerator)
    (a b : nat) :
  plain (add_covariance_for_indices g a b).
Proof.
  unfold add_covariance_for_indices. plain_tac.
  apply plain_calculate_covariance.
Qed.

Lemma plain_append_neighbour (g : CovarianceMatrixGenerator) (s index : nat) :
  plain (append_neighbour g s index).
Proof. unfold append_neighbour. plain_tac. Qed.

#[global] Hint Resolve plain_add_neighbours_of plain_calculate_covariance
  plain_add_covariance_for_indices plain_append_neighbour : plain.

Lemma plain_contiguous_body (s : nat) (g : CovarianceMatrixGenerator)
    (index : nat) (b : BreadthFirstSearch) :
  plain (contiguous_body s g index b).
Proof. unfold contiguous_body. plain_tac. Qed.

(** What one turn of the contiguous loop does to the search. *)
Lemma contiguous_body_bfs (s : nat) (g g' : CovarianceMatrixGenerator)
    (index : nat) (b b' : BreadthFirstSearch) :
  contiguous_body s g index b = Ret (g', b') ->
  b' = b \/ add_neighbours_of index b = Ret b'.
Proof.
  unfold contiguous_body. intros Hrun. inv_bind Hrun. destruct a as [r g1].
  destruct (Qgtb r (neighbour_search_limit g1)).
  - inv_bind Hrun. inv_bind Hrun. inversion Hrun; subst. by right.
  - inversion Hrun; subst. by left.
Qed.

Lemma contiguous_body_measure (s : nat) (g g' : CovarianceMatrixGenerator)
    (index : nat) (b b' : BreadthFirstSearch) :
  contiguous_body s g index b = Ret (g', b') ->
  bfs_graph b' = bfs_graph b /\ (bfs_measure b' <= bfs_measure b)%nat.
Proof.
  intros Hrun. apply contiguous_body_bfs in Hrun as [-> | Hadd]; [done |].
  by eapply add_neighbours_of_measure.
Qed.

(** The contiguous loop never spends its fuel when it is given a turn for
    every index the search can still yield. *)
Lemma contiguous_loop_fuel (fuel s : nat) (g : CovarianceMatrixGenerator)
    (b : BreadthFirstSearch) :
  (bfs_measure b <= fuel)%nat -> plain (contiguous_loop fuel s g b).
Proof.
  revert g b. induction fuel as [| fuel IH]; intros g b Hfuel; simpl.
  - destruct (next_neighbour b) as [[index b1] |] eqn:Hnext; [| done].
    apply next_neighbour_Some in Hnext as (_ & _ & _ & Hm). lia.
  - destruct (next_neighbour b) as [[index b1] |] eqn:Hnext; [| done].
    apply next_neighbour_Some in Hnext as (_ & _ & _ & Hm).
    apply plain_bind; [apply plain_contiguous_body |].
    intros [g' b'] Hbody. apply IH.
    apply contiguous_body_measure in Hbody as [_ Hle]. lia.
Qed.

Lemma plain_find_contiguous_covariances_bfs (g : CovarianceMatrixGenerator)
    (s : nat) :
  plain (find_contiguous_covariances_bfs g s).
Proof.
  unfold find_contiguous_covariances_bfs.
  apply plain_bind; [auto with plain |]. intros [v g1] _.
  apply plain_bind; [auto with plain |]. intros b1 Hb1.
  apply contiguous_loop_fuel.
  apply add_neighbours_of_measure in Hb1 as [_ Hle].
  etransitivity; [exact Hle |]. unfold bfs_measure, bfs_init. simpl.
  etransitivity; [| apply size_graph_values].
  apply subseteq_size. set_solver.
Qed.

(** An invariant that every completed turn of the contiguous loop keeps
    holds when the loop returns, and the queue is empty then. *)
Lemma contiguous_loop_invariant (I : CovarianceMatrixGenerator ->
                                     BreadthFirstSearch -> Prop) (s : nat) :
  (forall g b index b1 g' b',
     I g b -> next_neighbour b = Some (index, b1) ->
     contiguous_body s g index b1 = Ret (g', b') -> I g' b') ->
  forall fuel g b g' b',
    I g b -> contiguous_loop fuel s g b = Ret (g', b') ->
    I g' b' /\ queue b' = [].
Proof.
  intros Hstep. induction fuel as [| fuel IH]; intros g b g' b' HI Hrun;
    simpl in Hrun.
  - destruct (next_neighbour b) as [[index b1] |] eqn:Hnext; [discriminate |].
    inversion Hrun; subst. split; [done | by apply next_neighbour_None].
  - destruct (next_neighbour b) as [[index b1] |] eqn:Hnext.
    + inv_bind Hrun. destruct a as [g1 b2].
      eapply IH; [| exact Hrun]. eapply Hstep; eauto.
    + inversion Hrun; subst. split; [done | by apply next_neighbour_None].
Qed.

(** A loop whose every turn returns under the invariant returns. *)
Lemma contiguous_loop_total (I : CovarianceMatrixGenerator ->
                                 BreadthFirstSearch -> Prop) (s : nat) :
  (forall g b index b1,
     I g b -> next_neighbour b = Some (index, b1) ->
     exists g' b', contiguous_body s g index b1 = Ret (g', b') /\ I g' b') ->
  forall fuel g b,
    (bfs_measure b <= fuel)%nat -> I g b ->
    exists g' b', contiguous_loop fuel s g b = Ret (g', b') /\ I g' b'.
Proof.
  intros Hstep. induction fuel as [| fuel IH]; intros g b Hfuel HI; simpl.
  - destruct (next_neighbour b) as [[index b1] |] eqn:Hnext; [| eauto].
    apply next_neighbour_Some in Hnext as (_ & _ & _ & Hm). lia.
  - destruct (next_neighbour b) as [[index b1] |] eqn:Hnext; [| eauto].
    destruct (Hstep g b index b1 HI Hnext) as (g1 & b2 & Hbody & HI1).
    rewrite Hbody. simpl. apply IH; [| done].
    apply next_neighbour_Some in Hnext as (_ & _ & _ & Hm).
    apply contiguous_body_measure in Hbody as [_ Hle]. lia.
Qed.

(** ** The search enqueues an index once *)

Lemma enqueue_unvisited_invariant (graph : list (list nat)) (seed n : nat)
    (b : BreadthFirstSearch) (done : list nat) :
  n ∈ graph_values graph ->
  bfs_invariant graph seed b done ->
  bfs_invariant graph seed (enqueue_unvisited b n) done.
Proof.
  intros Hn (Hg & Hseed & Hnd & Hin). unfold enqueue_unvisited.
  destruct (decide (n ∈ visited b)) as [Hv | Hv]; [done |].
  split; [done |]. simpl. split; [set_solver |].
  rewrite app_assoc. split.
  - apply NoDup_app. split; [done |]. split; [| apply NoDup_singleton].
    intros i Hi Hi'. apply list_elem_of_singleton in Hi'. subst i.
    apply Hin in Hi as [Hv' _]. contradiction.
  - intros i Hi. apply elem_of_app in Hi as [Hi | Hi].
    + apply Hin in Hi as (? & ? & ?). split; [set_solver | done].
    + apply list_elem_of_singleton in Hi. subst i.
      split; [set_solver |]. split; [| done]. intros ->. contradiction.
Qed.

Lemma foldl_enqueue_invariant (graph : list (list nat)) (seed : nat)
    (nbrs : list nat) (b : BreadthFirstSearch) (done : list nat) :
  (forall n, n ∈ nbrs -> n ∈ graph_values graph) ->
  bfs_invariant graph seed b done ->
  bfs_invariant graph seed (foldl enqueue_unvisited b nbrs) done.
Proof.
  revert b. induction nbrs as [| n nbrs IH]; intros b Hvals Hinv; simpl;
    [done |].
  apply IH.
  - intros k Hk. apply Hvals. by right.
  - apply enqueue_unvisited_invariant; [apply Hvals; by left | done].
Qed.

Lemma add_neighbours_of_invariant (graph : list (list nat)) (seed index : nat)
    (b b' : BreadthFirstSearch) (done : list nat) :
  add_neighbours_of index b = Ret b' ->
  bfs_invariant graph seed b done -> bfs_invariant graph seed b' done.
Proof.
  intros Hadd Hinv. apply add_neighbours_of_Ret in Hadd as (nbrs & Hnbrs & ->).
  destruct Hinv as (Hg & Hseed & Hnd & Hin).
  apply foldl_enqueue_invariant.
  - intros n Hn. rewrite <- Hg. by eapply graph_values_lookup.
  - split; [done |]. split; [simpl; set_solver |]. split; [done |].
    intros i Hi. apply Hin in Hi as (? & ? & ?). simpl.
    split; [set_solver | done].
Qed.

(** The state a search is in once its seed has been added. *)
Lemma seeded_invariant (graph : list (list nat)) (seed : nat)
    (b0 : BreadthFirstSearch) :
  add_neighbours_of seed (bfs_init graph) = Ret b0 ->
  bfs_invariant graph seed b0 [] /\ (seed < length graph)%nat.
Proof.
  intros Hadd. apply add_neighbours_of_Ret in Hadd as (nbrs & Hnbrs & ->).
  simpl in Hnbrs. split; [| by eapply lookup_lt_Some].
  apply foldl_enqueue_invariant.
  - intros n Hn. by eapply graph_values_lookup.
  - split; [done |]. split; [simpl; set_solver |]. simpl.
    split; [constructor |]. intros i Hi. by apply elem_of_nil in Hi.
Qed.

Lemma bfs_run_invariant (graph : list (list nat)) (seed : nat)
    (b b' : BreadthFirstSearch) (ys done : list nat) :
  bfs_run b ys b' ->
  bfs_invariant graph seed b done -> bfs_invariant graph seed b' (done ++ ys).
Proof.
  intros Hrun. revert done.
  induction Hrun as [b | b b1 b' index ys Hnext Hrun IH
                       | b b1 b' index ys Hadd Hrun IH]; intros done Hinv.
  - by rewrite app_nil_r.
  - replace (done ++ index :: ys) with ((done ++ [index]) ++ ys)
      by (by rewrite <- app_assoc).
    apply IH. apply next_neighbour_Some in Hnext as (Hq & Hg & Hv & _).
    destruct Hinv as (Hg' & Hseed & Hnd & Hin).
    rewrite Hq in Hnd, Hin.
    split; [congruence |]. split; [by rewrite Hv |].
    rewrite <- app_assoc. simpl. split; [done |]. by rewrite Hv.
  - apply IH. by eapply add_neighbours_of_invariant.
Qed.

Lemma graph_values_in_range (graph : list (list nat)) (n : nat) :
  graph_in_range graph -> n ∈ graph_values graph -> (n < length graph)%nat.
Proof.
  intros Hrange Hn. apply elem_of_list_to_set in Hn.
  apply list_elem_of_In, in_concat in Hn as (l & Hl & Hn).
  apply list_elem_of_In in Hl, Hn.
  eapply Forall_forall in Hrange; [| exact Hl].
  eapply Forall_forall in Hrange; [exact Hrange | exact Hn].
Qed.

Lemma NoDup_length_subseteq (l : list nat) (X : gset nat) :
  NoDup l -> (forall i, i ∈ l -> i ∈ X) -> (length l <= size X)%nat.
Proof.
  intros Hnd Hin. rewrite <- (size_list_to_set (C := gset nat) l Hnd).
  apply subseteq_size. intros i Hi. apply elem_of_list_to_set in Hi. auto.
Qed.

(** The contiguous loop is a run of the search. *)
Lemma contiguous_loop_run (fuel s : nat) (g g' : CovarianceMatrixGenerator)
    (b b' : BreadthFirstSearch) :
  contiguous_loop fuel s g b = Ret (g', b') ->
  exists ys, bfs_run b ys b' /\ queue b' = [].
Proof.
  revert g b. induction fuel as [| fuel IH]; intros g b Hrun; simpl in Hrun.
  - destruct (next_neighbour b) as [[index b1] |] eqn:Hnext; [discriminate |].
    inversion Hrun; subst. exists []. split; [constructor |].
    by apply next_neighbour_None.
  - destruct (next_neighbour b) as [[index b1] |] eqn:Hnext.
    + inv_bind Hrun. destruct a as [g1 b2].
      destruct (IH _ _ Hrun) as (ys & Hys & Hq).
      exists (index :: ys). split; [| done].
      eapply bfs_run_yield; [exact Hnext |].
      apply contiguous_body_bfs in Ha as [-> | Hadd]; [done |].
      eapply bfs_run_add; eauto.
    + inversion Hrun; subst. exists []. split; [constructor |].
      by apply next_neighbour_None.
Qed.

(** C10. In every use of a search seeded at [seed], the indices taken from
    it together with those still queued are pairwise distinct, are all
    visited, and never include the seed; there are at most as many as the
    graph has adjacency entries, and at most [N - 1] when the adjacency
    lists name pixels below [N] only.  The loop of
    [find_contiguous_covariances] is such a use, and it terminates. *)
Theorem breadth_first_search_enqueues_once (gr : list (list nat))
    (seed : nat) (b0 b : BreadthFirstSearch) (ys : list nat) :
  add_neighbours_of seed (bfs_init gr) = Ret b0 ->
  bfs_run b0 ys b ->
  NoDup (ys ++ queue b)
  /\ (seed ∉ ys ++ queue b)
  /\ (forall i, i ∈ ys ++ queue b -> i ∈ visited b)
  /\ (length (ys ++ queue b) <= bfs_fuel gr)%nat
  /\ (graph_in_range gr -> (length (ys ++ queue b) <= length gr - 1)%nat)
  /\ (forall g, find_contiguous_covariances_bfs g seed <> OutOfFuel)
  /\ (forall g g' b',
        graph g = gr ->
        find_contiguous_covariances_bfs g seed = Ret (g', b') ->
        exists zs, bfs_run b0 zs b' /\ queue b' = []).
Proof.
  intros Hb0 Hrun.
  destruct (seeded_invariant _ _ _ Hb0) as [Hinit Hseed].
  pose proof (bfs_run_invariant _ _ _ _ _ _ Hrun Hinit) as Hinv.
  simpl in Hinv. destruct Hinv as (Hg & Hvis & Hnd & Hin).
  split; [done |].
  split; [intros Hi; apply Hin in Hi as (_ & Hne & _); congruence |].
  split; [intros i Hi; by apply Hin in Hi as (? & _) |].
  split.
  { etransitivity; [| apply size_graph_values].
    apply NoDup_length_subseteq; [done |]. intros i Hi.
    by apply Hin in Hi as (_ & _ & Hval). }
  split.
  { intros Hrange.
    assert (Hle : (length (ys ++ queue b)
                   <= size (set_seq 0 (length gr) ∖ {[seed]} : gset nat))%nat).
    { apply NoDup_length_subseteq; [done |]. intros i Hi.
      apply Hin in Hi as (_ & Hne & Hval).
      apply (graph_values_in_range _ _ Hrange) in Hval.
      apply elem_of_difference. split; [apply elem_of_set_seq; lia |].
      by apply not_elem_of_singleton. }
    rewrite size_difference in Hle.
    - by rewrite size_set_seq, size_singleton in Hle.
    - apply singleton_subseteq_l, elem_of_set_seq. lia. }
  split.
  { intros g. apply plain_not_OutOfFuel, plain_find_contiguous_covariances_bfs. }
  intros g g' b' Hgraph Hfind. unfold find_contiguous_covariances_bfs in Hfind.
  inv_bind Hfind. destruct a as [v g1]. simpl in Hfind. inv_bind Hfind.
  assert (Hg1 : graph g1 = gr).
  { unfold add_covariance_for_indices in Ha.
    destruct (calculated_covariances g !! (seed, seed)).
    - inversion Ha; subst. done.
    - inv_bind Ha. inversion Ha; subst. done. }
  rewrite Hg1 in Ha0. rewrite Hb0 in Ha0. inversion Ha0; subst a.
  eapply contiguous_loop_run, Hfind.
Qed.

Lemma breadth_first_search_enqueues_once_witness :
  let b0 := mkBFS line_graph [1%nat] {[0%nat; 1%nat]} in
  let b := mkBFS line_graph [] {[0%nat; 1%nat; 2%nat]} in
  NoDup ([1; 2]%nat ++ queue b)
  /\ (0%nat ∉ [1; 2]%nat ++ queue b)
  /\ (forall i, i ∈ [1; 2]%nat ++ queue b -> i ∈ visited b)
  /\ (length ([1; 2]%nat ++ queue b) <= bfs_fuel line_graph)%nat
  /\ (graph_in_range line_graph ->
      (length ([1; 2]%nat ++ queue b) <= length line_graph - 1)%nat)
  /\ (forall g, find_contiguous_covariances_bfs g 0 <> OutOfFuel)
  /\ (forall g g' b',
        graph g = line_graph ->
        find_contiguous_covariances_bfs g 0 = Ret (g', b') ->
        exists zs, bfs_run b0 zs b' /\ queue b' = []).
Proof.
  intros b0 b.
  apply (breadth_first_search_enqueues_once line_graph 0 b0 b [1; 2]%nat).
  - vm_compute. reflexivity.
  - eapply bfs_run_yield; [vm_compute; reflexivity |].
    eapply (bfs_run_add _ _ _ 1%nat); [vm_compute; reflexivity |].
    eapply bfs_run_yield; [vm_compute; reflexivity |].
    apply bfs_run_stop.
Defined.

(** ** The memoized covariances *)

Lemma calculate_covariance_same_inputs (g g' : CovarianceMatrixGenerator)
    (a b : nat) :
  same_inputs g g' -> calculate_covariance g' a b = calculate_covariance g a b.
Proof.
  intros (Hpm & Hnoise & _). unfold calculate_covariance.
  by rewrite Hpm, Hnoise.
Qed.

Lemma same_inputs_refl (g : CovarianceMatrixGenerator) : same_inputs g g.
Proof. by repeat split. Qed.

Lemma same_inputs_trans (g1 g2 g3 : CovarianceMatrixGenerator) :
  same_inputs g1 g2 -> same_inputs g2 g3 -> same_inputs g1 g3.
Proof.
  intros (? & ? & ? & ? & ?) (? & ? & ? & ? & ?).
  repeat split; congruence.
Qed.

(** What a request for the covariance of [(a, b)] returns and leaves. *)
Lemma add_covariance_for_indices_Ret (g g' : CovarianceMatrixGenerator)
    (a b : nat) (v : Q) :
  add_covariance_for_indices g a b = Ret (v, g') ->
  same_inputs g g'
  /\ non_zero_covariances g' = non_zero_covariances g
  /\ neighbour_lists g' = neighbour_lists g
  /\ calculated_covariances g' !! (a, b) = Some v
  /\ ((g' = g /\ calculated_covariances g !! (a, b) = Some v)
      \/ (calculated_covariances g !! (a, b) = None
          /\ calculated_covariances g'
             = <[(a, b) := v]> (calculated_covariances g)
          /\ (calculated_covariances g !! (b, a) = Some v
              \/ (calculated_covariances g !! (b, a) = None
                  /\ calculate_covariance g a b = Ret v)))).
Proof.
  unfold add_covariance_for_indices. intros Hrun.
  destruct (calculated_covariances g !! (a, b)) as [v0 |] eqn:Hab.
  - inversion Hrun; subst. split; [apply same_inputs_refl |].
    do 3 (split; [done |]). by left.
  - inv_bind Hrun. inversion Hrun; subst. split; [by repeat split |].
    do 2 (split; [done |]). simpl. split; [apply lookup_insert_eq |].
    right. do 2 (split; [done |]).
    destruct (calculated_covariances g !! (b, a)) as [w |] eqn:Hba.
    + inversion Ha0; subst. by left.
    + by right.
Qed.

Lemma add_covariance_for_indices_cache (g g' : CovarianceMatrixGenerator)
    (a b : nat) (v : Q) :
  add_covariance_for_indices g a b = Ret (v, g') ->
  calculated_covariances g ⊆ calculated_covariances g'.
Proof.
  intros Hrun.
  apply add_covariance_for_indices_Ret in Hrun
    as (_ & _ & _ & _ & [[-> _] | (Hnone & -> & _)]); [done |].
  by apply insert_subseteq.
Qed.

Lemma add_covariance_for_indices_cache_ok (g g' : CovarianceMatrixGenerator)
    (a b : nat) (v : Q) :
  add_covariance_for_indices g a b = Ret (v, g') -> cache_ok g -> cache_ok g'.
Proof.
  intros Hrun (Hsym & Hsound & Hrec).
  apply add_covariance_for_indices_Ret in Hrun
    as (Hsame & Hnz & _ & _ & [[-> _] | (Hnone & Hcache & Hsrc)]); [done |].
  split; [| split].
  - intros x y p q. rewrite Hcache, !lookup_insert.
    destruct (decide ((a, b) = (x, y))) as [Hxy | Hxy],
             (decide ((a, b) = (y, x))) as [Hyx | Hyx];
      simpl; intros Hp Hq.
    + congruence.
    + inversion Hxy; subst x y. inversion Hp; subst p.
      destruct Hsrc as [Hba | [Hba _]]; congruence.
    + inversion Hyx; subst x y. inversion Hq; subst q.
      destruct Hsrc as [Hba | [Hba _]]; congruence.
    + eauto.
  - intros x y p. rewrite Hcache, lookup_insert.
    rewrite !(calculate_covariance_same_inputs g g') by done.
    destruct (decide ((a, b) = (x, y))) as [Hxy | Hxy]; simpl; intros Hp.
    + inversion Hxy; subst x y. inversion Hp; subst p.
      destruct Hsrc as [Hba | [_ Hcalc]]; [| by left].
      destruct (Hsound _ _ _ Hba); [by right | by left].
    + eauto.
  - intros k p. rewrite Hnz, Hcache. intros Hk. apply Hrec in Hk.
    rewrite lookup_insert_ne; [done |]. intros <-. congruence.
Qed.

Lemma record_cache_ok (g : CovarianceMatrixGenerator) (k : nat * nat) (v : Q) :
  calculated_covariances g !! k = Some v -> cache_ok g ->
  cache_ok (set_non_zero g (<[k := v]> (non_zero_covariances g))).
Proof.
  intros Hk (Hsym & Hsound & Hrec). split; [done |]. split; [done |].
  intros k' p. simpl. rewrite lookup_insert.
  destruct (decide (k = k')) as [<- | Hne]; simpl; [congruence | auto].
Qed.

Lemma append_neighbour_Ret (g g' : CovarianceMatrixGenerator) (s index : nat) :
  append_neighbour g s index = Ret g' ->
  exists l,
    neighbour_lists g !! s = Some l
    /\ g' = set_neighbour_lists g (<[s := l ++ [index]]> (neighbour_lists g)).
Proof.
  unfold append_neighbour. intros Hrun. inv_bind Hrun.
  apply getitem_Ret in Ha. inversion Hrun; subst. eauto.
Qed.

(** What one turn of the contiguous loop does: the covariance of the seed
    [s] and the candidate [index] is requested; above the limit the
    candidate is appended, recorded and expanded, otherwise nothing else
    changes. *)
Lemma contiguous_body_Ret (s index : nat) (g g' : CovarianceMatrixGenerator)
    (b b' : BreadthFirstSearch) :
  contiguous_body s g index b = Ret (g', b') ->
  exists r g1,
    add_covariance_for_indices g s index = Ret (r, g1)
    /\ ((Qgtb r (neighbour_search_limit g) = true
         /\ (exists l,
               neighbour_lists g !! s = Some l
               /\ g' = set_non_zero
                         (set_neighbour_lists g1
                            (<[s := l ++ [index]]> (neighbour_lists g)))
                         (<[(s, index) := r]> (non_zero_covariances g)))
         /\ add_neighbours_of index b = Ret b')
        \/ (Qgtb r (neighbour_search_limit g) = false /\ g' = g1 /\ b' = b)).
Proof.
  unfold contiguous_body. intros Hrun. inv_bind Hrun. destruct a as [r g1].
  exists r, g1. split; [done |].
  destruct (add_covariance_for_indices_Ret _ _ _ _ _ Ha)
    as ((_ & _ & _ & Hlim & _) & Hnz & Hnl & _).
  rewrite Hlim in Hrun.
  destruct (Qgtb r (neighbour_search_limit g)) eqn:Hgt.
  - inv_bind Hrun. inv_bind Hrun. inversion Hrun; subst. left.
    split; [done |]. split; [| done].
    apply append_neighbour_Ret in Ha0 as (l & Hl & ->).
    exists l. rewrite <- Hnl, <- Hnz. by split.
  - inversion Hrun; subst. by right.
Qed.

Lemma contiguous_body_cache_ok (s index : nat)
    (g g' : CovarianceMatrixGenerator) (b b' : BreadthFirstSearch) :
  contiguous_body s g index b = Ret (g', b') -> cache_ok g -> cache_ok g'.
Proof.
  intros Hrun Hok.
  apply contiguous_body_Ret in Hrun as (r & g1 & Hadd & Hcase).
  pose proof (add_covariance_for_indices_cache_ok _ _ _ _ _ Hadd Hok) as Hok1.
  destruct (add_covariance_for_indices_Ret _ _ _ _ _ Hadd)
    as (_ & Hnz & _ & Hr & _).
  destruct Hcase as [(_ & (l & _ & ->) & _) | (_ & -> & _)]; [| done].
  rewrite <- Hnz.
  apply (record_cache_ok
           (set_neighbour_lists g1 (<[s := l ++ [index]]> (neighbour_lists g)))
           (s, index) r); [done |].
  destruct Hok1 as (? & ? & ?). by repeat split.
Qed.

Lemma find_contiguous_covariances_bfs_Ret (g g' : CovarianceMatrixGenerator)
    (s : nat) (b' : BreadthFirstSearch) :
  find_contiguous_covariances_bfs g s = Ret (g', b') ->
  exists v g1 b1,
    add_covariance_for_indices g s s = Ret (v, g1)
    /\ add_neighbours_of s (bfs_init (graph g)) = Ret b1
    /\ contiguous_loop (bfs_fuel (graph g)) s
         (set_non_zero g1 (<[(s, s) := v]> (non_zero_covariances g))) b1
       = Ret (g', b').
Proof.
  unfold find_contiguous_covariances_bfs. intros Hrun. inv_bind Hrun.
  destruct a as [v g1]. simpl in Hrun. inv_bind Hrun.
  destruct (add_covariance_for_indices_Ret _ _ _ _ _ Ha)
    as ((_ & _ & Hgraph & _) & Hnz & _).
  rewrite Hgraph in Ha0, Hrun. rewrite Hnz in Hrun. eauto 6.
Qed.

Lemma find_contiguous_covariances_Ret (g g' : CovarianceMatrixGenerator)
    (s : nat) :
  find_contiguous_covariances g s = Ret g' <->
  exists b', find_contiguous_covariances_bfs g s = Ret (g', b').
Proof.
  unfold find_contiguous_covariances. split.
  - intros Hrun. inv_bind Hrun. destruct a as [g1 b1].
    inversion Hrun; subst. eauto.
  - intros (b' & ->). done.
Qed.

Lemma find_contiguous_covariances_cache_ok (g g' : CovarianceMatrixGenerator)
    (s : nat) :
  find_contiguous_covariances g s = Ret g' -> cache_ok g -> cache_ok g'.
Proof.
  intros Hrun Hok. apply find_contiguous_covariances_Ret in Hrun as (b' & Hrun).
  apply find_contiguous_covariances_bfs_Ret in Hrun
    as (v & g1 & b1 & Hadd & _ & Hloop).
  pose proof (add_covariance_for_indices_cache_ok _ _ _ _ _ Hadd Hok) as Hok1.
  destruct (add_covariance_for_indices_Ret _ _ _ _ _ Hadd)
    as (_ & Hnz & _ & Hv & _).
  rewrite <- Hnz in Hloop.
  eapply (contiguous_loop_invariant (fun g _ => cache_ok g)); [| | exact Hloop].
  - intros g0 b0 index b2 g2 b3 Hg0 _ Hbody.
    by eapply contiguous_body_cache_ok.
  - by apply record_cache_ok.
Qed.

Lemma non_contiguous_body_Ret (a b : nat) (g g' : CovarianceMatrixGenerator) :
  non_contiguous_body a g b = Ret g' ->
  (a = b /\ g' = g)
  \/ (a <> b
      /\ exists r g1,
           add_covariance_for_indices g a b = Ret (r, g1)
           /\ ((Qgtb r 0 = true
                /\ g' = set_non_zero g1
                          (<[(a, b) := r]> (non_zero_covariances g)))
               \/ (Qgtb r 0 = false /\ g' = g1))).
Proof.
  unfold non_contiguous_body. intros Hrun.
  destruct (decide (a ≠ b)) as [Hne | Heq].
  - right. split; [done |]. inv_bind Hrun. destruct a0 as [r g1].
    exists r, g1. split; [done |].
    destruct (add_covariance_for_indices_Ret _ _ _ _ _ Ha0) as (_ & Hnz & _).
    destruct (Qgtb r 0); inversion Hrun; subst; [left | right]; split; try done.
    by rewrite Hnz.
  - left. inversion Hrun; subst. split; [| done].
    destruct (decide (a = b)); [done | contradiction].
Qed.

Lemma non_contiguous_body_cache_ok (a b : nat)
    (g g' : CovarianceMatrixGenerator) :
  non_contiguous_body a g b = Ret g' -> cache_ok g -> cache_ok g'.
Proof.
  intros Hrun Hok.
  apply non_contiguous_body_Ret in Hrun
    as [[_ ->] | (_ & r & g1 & Hadd & Hcase)]; [done |].
  pose proof (add_covariance_for_indices_cache_ok _ _ _ _ _ Hadd Hok) as Hok1.
  destruct (add_covariance_for_indices_Ret _ _ _ _ _ Hadd)
    as (_ & Hnz & _ & Hr & _).
  destruct Hcase as [[_ ->] | [_ ->]]; [| done].
  rewrite <- Hnz. by apply record_cache_ok.
Qed.

Lemma find_all_non_contiguous_covariances_cache_ok
    (g g' : CovarianceMatrixGenerator) :
  find_all_non_contiguous_covariances g = Ret g' -> cache_ok g -> cache_ok g'.
Proof.
  unfold find_all_non_contiguous_covariances, non_contiguous_list.
  intros Hrun Hok. revert Hok Hrun. apply foldM_invariant.
  intros g0 l g1 Hg0 _. revert Hg0. apply foldM_invariant.
  intros g2 a g3 Hg2 _. revert Hg2. apply foldM_invariant.
  intros g4 b g5 Hg4 _ Hbody. by eapply non_contiguous_body_cache_ok.
Qed.

Lemma find_all_contiguous_covariances_cache_ok
    (g g' : CovarianceMatrixGenerator) :
  find_all_contiguous_covariances g = Ret g' -> cache_ok g -> cache_ok g'.
Proof.
  unfold find_all_contiguous_covariances. intros Hrun Hok. revert Hok Hrun.
  apply foldM_invariant. intros g0 s g1 Hg0 _ Hfind.
  by eapply find_contiguous_covariances_cache_ok.
Qed.

Lemma generator_init_cache_ok (pms : list (gmap nat Q)) (noise : list Q)
    (gr : list (list nat)) (limit : Q) :
  cache_ok (generator_init pms noise gr limit).
Proof. repeat split; intros *; simpl; by rewrite lookup_empty. Qed.

Lemma run_generator_cache_ok (pms : list (gmap nat Q)) (noise : list Q)
    (gr : list (list nat)) (limit : Q) (g : CovarianceMatrixGenerator) :
  run_generator pms noise gr limit = Ret g -> cache_ok g.
Proof.
  unfold run_generator. intros Hrun. inv_bind Hrun.
  eapply find_all_non_contiguous_covariances_cache_ok; [exact Hrun |].
  eapply find_all_contiguous_covariances_cache_ok; [exact Ha |].
  apply generator_init_cache_ok.
Qed.

(** A request for a pair that is cached in either order returns the cached
    value, without calculating. *)
Lemma add_covariance_for_indices_cached (g : CovarianceMatrixGenerator)
    (a b : nat) (v : Q) :
  cache_ok g -> calculated_covariances g !! (a, b) = Some v ->
  add_covariance_for_indices g a b = Ret (v, g)
  /\ exists g', add_covariance_for_indices g b a = Ret (v, g').
Proof.
  intros (Hsym & _) Hab. unfold add_covariance_for_indices. rewrite Hab.
  split; [done |].
  destruct (calculated_covariances g !! (b, a)) as [w |] eqn:Hba.
  - rewrite (Hsym _ _ _ _ Hab Hba). eauto.
  - simpl. eauto.
Qed.

(** C6. In the map [create_covariance_matrix] returns, a pair recorded in
    both orders carries one value; the value recorded for [(i, j)] is the
    cached one, and it is what a request for [(j, i)] returns.  A request
    for a pair cached in the other order only returns that value and
    caches it under the requested order, without calculating; every
    value a request returns is cached under the requested pair. *)
Theorem covariance_map_symmetric (pms : list (gmap nat Q)) (noise : list Q)
    (gr : list (list nat)) (limit : Q) (g : CovarianceMatrixGenerator) :
  run_generator pms noise gr limit = Ret g ->
  create_covariance_matrix pms noise gr limit = Ret (non_zero_covariances g)
  /\ (forall i j v,
        non_zero_covariances g !! (i, j) = Some v ->
        (forall w, non_zero_covariances g !! (j, i) = Some w -> w = v)
        /\ calculated_covariances g !! (i, j) = Some v
        /\ exists g', add_covariance_for_indices g j i = Ret (v, g'))
  /\ (forall g0 a b v,
        calculated_covariances g0 !! (a, b) = Some v ->
        calculated_covariances g0 !! (b, a) = None ->
        add_covariance_for_indices g0 b a
        = Ret (v, set_calculated g0
                    (<[(b, a) := v]> (calculated_covariances g0))))
  /\ (forall g0 a b v g1,
        add_covariance_for_indices g0 a b = Ret (v, g1) ->
        calculated_covariances g1 !! (a, b) = Some v).
Proof.
  intros Hrun. pose proof (run_generator_cache_ok _ _ _ _ _ Hrun) as Hok.
  split; [unfold create_covariance_matrix; by rewrite Hrun |].
  split; [| split;
    [| intros g0 a b v g1 Hadd;
       by apply add_covariance_for_indices_Ret in Hadd as (_ & _ & _ & ? & _)]].
  - intros i j v Hij. destruct Hok as (Hsym & Hsound & Hrec).
    pose proof (Hrec _ _ Hij) as Hcij.
    split; [| split; [done |]].
    + intros w Hji. apply Hrec in Hji. symmetry. eauto.
    + by apply (add_covariance_for_indices_cached g i j v).
  - intros g0 a b v Hab Hba. unfold add_covariance_for_indices.
    by rewrite Hba, Hab.
Qed.

Lemma covariance_map_symmetric_witness :
  exists g,
    run_generator [{[0%nat := 1]}; {[1%nat := 1]}; {[0%nat := 1; 1%nat := 1]}]
                  [1; 1] line_graph 0 = Ret g
    /\ create_covariance_matrix
         [{[0%nat := 1]}; {[1%nat := 1]}; {[0%nat := 1; 1%nat := 1]}]
         [1; 1] line_graph 0 = Ret (non_zero_covariances g)
    /\ (forall i j v,
          non_zero_covariances g !! (i, j) = Some v ->
          (forall w, non_zero_covariances g !! (j, i) = Some w -> w = v)
          /\ calculated_covariances g !! (i, j) = Some v
          /\ exists g', add_covariance_for_indices g j i = Ret (v, g'))
    /\ (forall g0 a b v,
          calculated_covariances g0 !! (a, b) = Some v ->
          calculated_covariances g0 !! (b, a) = None ->
          add_covariance_for_indices g0 b a
          = Ret (v, set_calculated g0
                      (<[(b, a) := v]> (calculated_covariances g0))))
    /\ (forall g0 a b v g1,
          add_covariance_for_indices g0 a b = Ret (v, g1) ->
          calculated_covariances g1 !! (a, b) = Some v).
Proof.
  eexists. split; [vm_compute; reflexivity |].
  eapply covariance_map_symmetric. vm_compute. reflexivity.
Defined.

(** ** The passes return over well-formed inputs *)

Lemma floordiv_nonzero (x y : Q) :
  ~ y == 0 -> floordiv x y = Ret (inject_Z (Qfloor (x / y))).
Proof.
  intros Hy. unfold floordiv. destruct (Qeq_bool y 0) eqn:Hz; [| done].
  by apply Qeq_bool_iff in Hz.
Qed.

Lemma shared_keys_spec (m1 m2 : gmap nat Q) (i : nat) :
  i ∈ shared_keys m1 m2 <-> is_Some (m1 !! i) /\ is_Some (m2 !! i).
Proof.
  unfold shared_keys. rewrite list_elem_of_filter, keys_lookup.
  unfold is_Some. tauto.
Qed.

Lemma calculate_covariance_total (g : CovarianceMatrixGenerator) (a b : nat) :
  generator_wf g ->
  (a < no_source_pixels g)%nat -> (b < no_source_pixels g)%nat ->
  exists v, calculate_covariance g a b = Ret v.
Proof.
  intros (HN & (_ & _ & Hnoise) & _) Ha Hb. unfold calculate_covariance.
  destruct (getitem_lt (pixel_maps g) a) as (m1 & -> & Hm1); [lia |].
  destruct (getitem_lt (pixel_maps g) b) as (m2 & -> & Hm2); [lia |]. simpl.
  match goal with
  | |- context [comprehension ?f ?xs] =>
      destruct (comprehension_total f xs) as (terms & -> & _)
  end; [| simpl; eauto].
  intros i Hi. apply shared_keys_spec in Hi as [[x Hx] [y Hy]].
  rewrite (proj2 (dict_getitem_Ret _ _ _) Hx),
          (proj2 (dict_getitem_Ret _ _ _) Hy). simpl.
  eapply Forall_forall in Hnoise; [| eapply list_elem_of_lookup_2, Hm1].
  destruct (Hnoise i x Hx) as (n & Hn & Hn0).
  rewrite (proj2 (getitem_Ret _ _ _) Hn). simpl.
  rewrite floordiv_nonzero by done. eauto.
Qed.

(** What [calculate_covariance] returns: the sum, over the keys of the
    first map that are keys of the second, of the floored quotients. *)
Lemma calculate_covariance_floor_sum (g : CovarianceMatrixGenerator)
    (a b : nat) (m1 m2 : gmap nat Q) :
  pixel_maps g !! a = Some m1 -> pixel_maps g !! b = Some m2 ->
  (forall k, k ∈ shared_keys m1 m2 ->
     exists n, noise_vector g !! k = Some n /\ ~ n == 0) ->
  calculate_covariance g a b
  = Ret (Qsum (map (fun k =>
                      inject_Z (Qfloor (default 0 (m1 !! k)
                                        * default 0 (m2 !! k)
                                        / at0 (noise_vector g) k)))
                   (shared_keys m1 m2))).
Proof.
  intros Hm1 Hm2 Hnoise. unfold calculate_covariance.
  rewrite (proj2 (getitem_Ret _ _ _) Hm1), (proj2 (getitem_Ret _ _ _) Hm2).
  simpl.
  match goal with
  | |- (comprehension ?f _ ≫= _) = Ret (Qsum (map ?F _)) =>
      assert (Hcomp : forall ks,
                (forall k, k ∈ ks -> k ∈ shared_keys m1 m2) ->
                comprehension f ks = Ret (map F ks))
  end.
  { induction ks as [| k ks IH]; intros Hin; simpl; [done |].
    assert (Hk : k ∈ shared_keys m1 m2) by (apply Hin; by left).
    destruct (proj1 (shared_keys_spec m1 m2 k) Hk) as [[x Hx] [y Hy]].
    destruct (Hnoise k Hk) as (n & Hn & Hn0).
    rewrite (proj2 (dict_getitem_Ret _ _ _) Hx),
            (proj2 (dict_getitem_Ret _ _ _) Hy). simpl.
    rewrite (proj2 (getitem_Ret _ _ _) Hn). simpl.
    rewrite floordiv_nonzero by done. simpl.
    rewrite IH by (intros; apply Hin; by right). simpl.
    by rewrite Hx, Hy, (at0_lookup _ _ _ Hn). }
  by rewrite Hcomp.
Qed.

Lemma generator_wf_frame (g g' : CovarianceMatrixGenerator) :
  same_inputs g g' -> neighbour_lists g' = neighbour_lists g ->
  generator_wf g -> generator_wf g'.
Proof.
  intros (Hpm & Hnoise & Hgr & _ & HN) Hnl (H1 & H2 & H3 & H4).
  unfold generator_wf. by rewrite Hpm, Hnoise, Hgr, HN, Hnl.
Qed.

Lemma add_covariance_for_indices_total (g : CovarianceMatrixGenerator)
    (a b : nat) :
  generator_wf g ->
  (a < no_source_pixels g)%nat -> (b < no_source_pixels g)%nat ->
  exists v g', add_covariance_for_indices g a b = Ret (v, g').
Proof.
  intros Hwf Ha Hb. unfold add_covariance_for_indices.
  destruct (calculated_covariances g !! (a, b)); [eauto |].
  destruct (calculated_covariances g !! (b, a)); [simpl; eauto |].
  destruct (calculate_covariance_total g a b Hwf Ha Hb) as (v & ->).
  simpl. eauto.
Qed.

Lemma recorded_le_refl (g : CovarianceMatrixGenerator) : recorded_le g g.
Proof. by intros k. Qed.

Lemma recorded_le_trans (g1 g2 g3 : CovarianceMatrixGenerator) :
  recorded_le g1 g2 -> recorded_le g2 g3 -> recorded_le g1 g3.
Proof. intros H12 H23 k Hk. auto. Qed.

Lemma recorded_le_insert (g g' : CovarianceMatrixGenerator) (k : nat * nat)
    (v : Q) :
  non_zero_covariances g' = <[k := v]> (non_zero_covariances g) ->
  recorded_le g g'.
Proof.
  intros Hnz k' Hk'. rewrite Hnz, lookup_insert.
  by destruct (decide (k = k')).
Qed.

Lemma recorded_le_same (g g' : CovarianceMatrixGenerator) :
  non_zero_covariances g' = non_zero_covariances g -> recorded_le g g'.
Proof. intros Hnz k. by rewrite Hnz. Qed.

Lemma foldl_enqueue_queue (P : nat -> Prop) (nbrs : list nat)
    (b : BreadthFirstSearch) :
  Forall P nbrs -> Forall P (queue b) ->
  Forall P (queue (foldl enqueue_unvisited b nbrs)).
Proof.
  revert b. induction nbrs as [| n nbrs IH]; intros b Hn Hq; simpl; [done |].
  inversion Hn; subst. apply IH; [done |]. unfold enqueue_unvisited.
  destruct (decide _); [done |]. simpl. apply Forall_app. by repeat constructor.
Qed.

Lemma add_neighbours_of_total (g0 g : CovarianceMatrixGenerator)
    (b : BreadthFirstSearch) (index : nat) :
  contiguous_wf g0 g b -> (index < no_source_pixels g)%nat ->
  exists b', add_neighbours_of index b = Ret b' /\ contiguous_wf g0 g b'.
Proof.
  intros (Hwf & Hsame & Hrec & Hgr & Hq) Hindex.
  pose proof Hwf as (HN & (Hlen & Hrange & _) & _).
  unfold add_neighbours_of. rewrite Hgr.
  destruct (getitem_lt (graph g) index) as (nbrs & -> & Hnbrs); [lia |].
  simpl. eexists. split; [done |].
  split; [done |]. split; [done |]. split; [done |].
  split; [by rewrite foldl_enqueue_graph |].
  apply foldl_enqueue_queue; [| done].
  eapply Forall_forall in Hrange; [| eapply list_elem_of_lookup_2, Hnbrs].
  eapply Forall_impl; [exact Hrange |]. simpl. intros n Hn. lia.
Qed.

Lemma contiguous_body_total (s index : nat)
    (g0 g : CovarianceMatrixGenerator) (b b1 : BreadthFirstSearch) :
  (s < no_source_pixels g)%nat ->
  contiguous_wf g0 g b -> next_neighbour b = Some (index, b1) ->
  exists g' b', contiguous_body s g index b1 = Ret (g', b')
                /\ contiguous_wf g0 g' b'.
Proof.
  intros Hs (Hwf & Hsame & Hrec & Hgr & Hq) Hnext.
  apply next_neighbour_Some in Hnext as (Hqueue & Hgr1 & _ & _).
  rewrite Hqueue in Hq. inversion Hq as [| ? ? Hindex Hq1]; subst.
  destruct (add_covariance_for_indices_total g s index Hwf Hs Hindex)
    as (r & g1 & Hadd).
  destruct (add_covariance_for_indices_Ret _ _ _ _ _ Hadd)
    as (Hsame1 & Hnz1 & Hnl1 & _).
  pose proof (generator_wf_frame _ _ Hsame1 Hnl1 Hwf) as Hwf1.
  pose proof Hsame1 as (_ & _ & Hgraph1 & Hlim1 & HN1).
  assert (Hcw1 : contiguous_wf g0 g1 b1).
  { split; [done |]. split; [by eapply same_inputs_trans |].
    split; [eapply recorded_le_trans; [exact Hrec | by apply recorded_le_same] |].
    split; [congruence |]. by rewrite HN1. }
  unfold contiguous_body. rewrite Hadd. simpl.
  destruct (Qgtb r (neighbour_search_limit g1)); [| eauto].
  pose proof Hwf1 as (HNpm & Hin & Hlen & Hlists).
  unfold append_neighbour.
  destruct (getitem_lt (neighbour_lists g1) s) as (l & -> & Hl); [lia |].
  simpl.
  set (g2 := set_non_zero _ _).
  assert (Hcw2 : contiguous_wf g0 g2 b1).
  { destruct Hcw1 as (_ & Hsame01 & Hrec01 & Hgr01 & Hq01).
    split.
    - split; [done |]. split; [done |]. simpl.
      split; [by rewrite length_insert |].
      apply Forall_insert; [done |]. apply Forall_app. split.
      + eapply Forall_forall in Hlists; [exact Hlists |].
        eapply list_elem_of_lookup_2, Hl.
      + repeat constructor. lia.
    - split; [done |]. split; [| done].
      eapply recorded_le_trans; [exact Hrec01 |].
      by eapply recorded_le_insert. }
  destruct (add_neighbours_of_total g0 g2 b1 index Hcw2) as (b' & -> & Hcw');
    [simpl; lia |].
  simpl. eauto.
Qed.

Lemma seeded_measure (gr : list (list nat)) (s : nat) (b1 : BreadthFirstSearch) :
  add_neighbours_of s (bfs_init gr) = Ret b1 ->
  (bfs_measure b1 <= bfs_fuel gr)%nat.
Proof.
  intros Hb1. apply add_neighbours_of_measure in Hb1 as [_ Hle].
  etransitivity; [exact Hle |]. unfold bfs_measure, bfs_init. simpl.
  etransitivity; [| apply size_graph_values].
  apply subseteq_size. set_solver.
Qed.

Lemma find_contiguous_covariances_total (g : CovarianceMatrixGenerator)
    (s : nat) :
  generator_wf g -> (s < no_source_pixels g)%nat ->
  exists g',
    find_contiguous_covariances g s = Ret g'
    /\ generator_wf g' /\ same_inputs g g' /\ recorded_le g g'
    /\ is_Some (non_zero_covariances g' !! (s, s)).
Proof.
  intros Hwf Hs.
  destruct (add_covariance_for_indices_total g s s Hwf Hs Hs)
    as (v & g1 & Hadd).
  destruct (add_covariance_for_indices_Ret _ _ _ _ _ Hadd)
    as (Hsame1 & Hnz1 & Hnl1 & _).
  pose proof (generator_wf_frame _ _ Hsame1 Hnl1 Hwf) as Hwf1.
  pose proof Hsame1 as (_ & _ & Hgraph1 & _ & HN1).
  unfold find_contiguous_covariances, find_contiguous_covariances_bfs.
  rewrite Hadd. simpl.
  set (g2 := set_non_zero g1 _).
  assert (Hcw0 : contiguous_wf g2 g2 (bfs_init (graph g1))).
  { split; [exact Hwf1 |]. split; [apply same_inputs_refl |].
    split; [apply recorded_le_refl |]. split; [done |]. constructor. }
  destruct (add_neighbours_of_total g2 g2 _ s Hcw0) as (b1 & Hb1 & Hcw1);
    [simpl; lia |].
  rewrite Hb1. simpl.
  destruct (contiguous_loop_total (contiguous_wf g2) s) with
    (fuel := bfs_fuel (graph g1)) (g := g2) (b := b1)
    as (g' & b' & -> & Hcw').
  - intros g3 b3 index b4 Hcw3 Hnext.
    eapply contiguous_body_total; [| exact Hcw3 | exact Hnext].
    destruct Hcw3 as (_ & (_ & _ & _ & _ & HN3) & _). rewrite HN3. simpl. lia.
  - by eapply seeded_measure.
  - done.
  - simpl. exists g'. split; [done |].
    destruct Hcw' as (Hwf' & Hsame' & Hrec' & _).
    split; [done |].
    split; [eapply same_inputs_trans; [exact Hsame1 | exact Hsame'] |].
    split.
    + eapply recorded_le_trans; [| exact Hrec'].
      eapply recorded_le_trans; [by apply recorded_le_same |].
      by eapply recorded_le_insert.
    + apply Hrec'. simpl. rewrite lookup_insert_eq. eauto.
Qed.

Lemma find_all_contiguous_covariances_total (g : CovarianceMatrixGenerator) :
  generator_wf g ->
  exists g',
    find_all_contiguous_covariances g = Ret g'
    /\ generator_wf g' /\ same_inputs g g'
    /\ forall s, (s < no_source_pixels g)%nat ->
         is_Some (non_zero_covariances g' !! (s, s)).
Proof.
  intros Hwf. unfold find_all_contiguous_covariances.
  assert (Hprefix : forall n, (n <= no_source_pixels g)%nat ->
    exists g',
      foldM find_contiguous_covariances g (seq 0 n) = Ret g'
      /\ generator_wf g' /\ same_inputs g g'
      /\ forall s, (s < n)%nat -> is_Some (non_zero_covariances g' !! (s, s))).
  { induction n as [| n IH]; intros Hn.
    - exists g. split; [done |]. split; [done |].
      split; [apply same_inputs_refl | intros; lia].
    - destruct IH as (g1 & Hrun & Hwf1 & Hsame1 & Hdiag); [lia |].
      pose proof Hsame1 as (_ & _ & _ & _ & HN1).
      destruct (find_contiguous_covariances_total g1 n Hwf1)
        as (g2 & Hfind & Hwf2 & Hsame2 & Hrec2 & Hnn); [lia |].
      exists g2. rewrite seq_0_S, foldM_snoc, Hrun. simpl.
      split; [done |]. split; [done |].
      split; [by eapply same_inputs_trans |].
      intros s Hs. destruct (decide (s = n)) as [-> | Hne]; [done |].
      apply Hrec2, Hdiag. lia. }
  by apply Hprefix.
Qed.

Lemma non_contiguous_body_total (a b : nat) (g : CovarianceMatrixGenerator) :
  generator_wf g ->
  (a < no_source_pixels g)%nat -> (b < no_source_pixels g)%nat ->
  exists g',
    non_contiguous_body a g b = Ret g'
    /\ generator_wf g' /\ same_inputs g g' /\ recorded_le g g'
    /\ neighbour_lists g' = neighbour_lists g.
Proof.
  intros Hwf Ha Hb. unfold non_contiguous_body.
  destruct (decide (a ≠ b)) as [Hne | _].
  - destruct (add_covariance_for_indices_total g a b Hwf Ha Hb)
      as (r & g1 & Hadd).
    destruct (add_covariance_for_indices_Ret _ _ _ _ _ Hadd)
      as (Hsame1 & Hnz1 & Hnl1 & _).
    pose proof (generator_wf_frame _ _ Hsame1 Hnl1 Hwf) as Hwf1.
    rewrite Hadd. simpl. destruct (Qgtb r 0); eexists; (split; [done |]).
    + split; [exact Hwf1 |]. split; [exact Hsame1 |]. split; [| done].
      eapply recorded_le_trans; [by apply recorded_le_same |].
      by eapply recorded_le_insert.
    + split; [done |]. split; [done |]. split; [| done].
      by apply recorded_le_same.
  - exists g. split; [done |]. split; [done |].
    split; [apply same_inputs_refl |]. split; [apply recorded_le_refl | done].
Qed.

Lemma find_all_non_contiguous_covariances_total
    (g : CovarianceMatrixGenerator) :
  generator_wf g ->
  exists g',
    find_all_non_contiguous_covariances g = Ret g' /\ non_contiguous_wf g g'.
Proof.
  intros Hwf. unfold find_all_non_contiguous_covariances, non_contiguous_list.
  assert (Hinit : non_contiguous_wf g g).
  { split; [done |]. split; [apply same_inputs_refl |].
    split; [apply recorded_le_refl | done]. }
  pose proof Hwf as (_ & _ & _ & Hlists).
  apply (foldM_total (non_contiguous_wf g)); [| done].
  intros g1 l Hg1 Hl.
  eapply Forall_forall in Hlists; [| exact Hl].
  apply (foldM_total (non_contiguous_wf g)); [| done].
  intros g2 a Hg2 Ha.
  apply (foldM_total (non_contiguous_wf g)); [| done].
  intros g3 b (Hwf3 & Hsame3 & Hrec3 & Hnl3) Hb.
  pose proof Hsame3 as (_ & _ & _ & _ & HN3).
  destruct (non_contiguous_body_total a b g3 Hwf3)
    as (g4 & -> & Hwf4 & Hsame4 & Hrec4 & Hnl4).
  - rewrite HN3. eapply Forall_forall in Hlists; [exact Hlists | exact Ha].
  - rewrite HN3. eapply Forall_forall in Hlists; [exact Hlists | exact Hb].
  - exists g4. split; [done |]. split; [done |].
    split; [by eapply same_inputs_trans |].
    split; [by eapply recorded_le_trans | congruence].
Qed.

Lemma generator_init_wf (pms : list (gmap nat Q)) (noise : list Q)
    (gr : list (list nat)) (limit : Q) :
  inputs_wf pms noise gr -> generator_wf (generator_init pms noise gr limit).
Proof.
  intros Hin. split; [done |]. split; [done |]. simpl.
  split; [apply length_replicate |].
  apply Forall_forall. intros l Hl. apply elem_of_replicate in Hl as [-> _].
  constructor.
Qed.

(** ** The threshold of the contiguous search *)

Lemma foldl_enqueue_spec (nbrs : list nat) (b : BreadthFirstSearch) :
  exists new,
    queue (foldl enqueue_unvisited b nbrs) = queue b ++ new
    /\ (forall n, n ∈ visited (foldl enqueue_unvisited b nbrs) <->
                  n ∈ visited b \/ n ∈ new)
    /\ (forall n, n ∈ new -> n ∈ nbrs)
    /\ (forall n, n ∈ nbrs -> n ∈ visited (foldl enqueue_unvisited b nbrs)).
Proof.
  revert b. induction nbrs as [| k nbrs IH]; intros b; simpl.
  - exists []. rewrite app_nil_r. split; [done |].
    split; [intros n; rewrite elem_of_nil; tauto |].
    split; intros n Hn; by apply elem_of_nil in Hn.
  - destruct (IH (enqueue_unvisited b k)) as (new & Hq & Hv & Hnew & Hall).
    unfold enqueue_unvisited in Hq, Hv, Hall |- *.
    destruct (decide (k ∈ visited b)) as [Hk | Hk].
    + exists new. split; [done |]. split; [done |].
      split; [intros n Hn; right; auto |].
      intros n Hn. apply elem_of_cons in Hn as [-> | Hn]; [| auto].
      apply Hv. by left.
    + simpl in Hq, Hv. exists (k :: new).
      split; [by rewrite Hq, <- app_assoc |].
      split.
      { intros n. rewrite Hv, elem_of_union, elem_of_singleton, elem_of_cons.
        tauto. }
      split.
      { intros n Hn. apply elem_of_cons in Hn as [-> | Hn];
          [by left | right; auto]. }
      intros n Hn. apply elem_of_cons in Hn as [-> | Hn]; [| auto].
      apply Hv. left. set_solver.
Qed.

Lemma add_neighbours_of_spec (index : nat) (b b' : BreadthFirstSearch) :
  add_neighbours_of index b = Ret b' ->
  exists nbrs new,
    bfs_graph b !! index = Some nbrs
    /\ queue b' = queue b ++ new
    /\ (forall n, n ∈ visited b' <-> n = index \/ n ∈ visited b \/ n ∈ new)
    /\ (forall n, n ∈ new -> n ∈ nbrs)
    /\ (forall n, n ∈ nbrs -> n ∈ visited b').
Proof.
  intros Hadd. apply add_neighbours_of_Ret in Hadd as (nbrs & Hnbrs & ->).
  destruct (foldl_enqueue_spec nbrs
              (mkBFS (bfs_graph b) (queue b) ({[index]} ∪ visited b)))
    as (new & Hq & Hv & Hnew & Hall).
  exists nbrs, new. split; [done |]. split; [done |].
  split; [| by split].
  intros n. rewrite Hv. simpl. rewrite elem_of_union, elem_of_singleton. tauto.
Qed.

Lemma next_neighbour_invariant (gr : list (list nat)) (seed index : nat)
    (b b1 : BreadthFirstSearch) (done : list nat) :
  next_neighbour b = Some (index, b1) ->
  bfs_invariant gr seed b done ->
  bfs_invariant gr seed b1 (done ++ [index]) /\ index ∉ done.
Proof.
  intros Hnext (Hg & Hseed & Hnd & Hin).
  apply next_neighbour_Some in Hnext as (Hq & Hg1 & Hv & _).
  rewrite Hq in Hnd, Hin. split.
  - split; [congruence |]. split; [by rewrite Hv |].
    rewrite <- app_assoc. simpl. split; [done |]. by rewrite Hv.
  - apply NoDup_app in Hnd as (_ & Hdisj & _). intros Hi.
    apply (Hdisj index Hi). by left.
Qed.

(** One turn of the contiguous loop keeps the invariant, for the yielded
    candidate added to [done], and to [acc] when it passed. *)
Lemma contiguous_body_inv (g0 : CovarianceMatrixGenerator) (s index : nat)
    (l0 done acc : list nat) (g g' : CovarianceMatrixGenerator)
    (b b1 b' : BreadthFirstSearch) :
  contiguous_inv g0 s l0 done acc g b ->
  next_neighbour b = Some (index, b1) ->
  contiguous_body s g index b1 = Ret (g', b') ->
  exists acc',
    (acc' = acc \/ acc' = acc ++ [index])
    /\ contiguous_inv g0 s l0 (done ++ [index]) acc' g' b'.
Proof.
  intros (Hsame & Hbfs & Hnl & Hsub & Hdone & Hnz & Hvis & Horigin & Hexp)
         Hnext Hbody.
  destruct (next_neighbour_invariant _ _ _ _ _ _ Hnext Hbfs) as [Hbfs1 Hfresh].
  apply next_neighbour_Some in Hnext as (Hq & Hg1 & Hv1 & _).
  apply contiguous_body_Ret in Hbody as (r & g1 & Hadd & Hcase).
  destruct (add_covariance_for_indices_Ret _ _ _ _ _ Hadd)
    as (Hsame1 & Hnz1 & Hnl1 & Hr & _).
  pose proof (add_covariance_for_indices_cache _ _ _ _ _ Hadd) as Hcache.
  pose proof Hsame as (_ & _ & _ & Hlim & _).
  rewrite Hlim in Hcase.
  assert (Hnotacc : index ∉ acc) by (intros Hi; apply Hfresh; auto).
  rewrite Hq in Hvis, Horigin.
  destruct Hcase as [(Hgt & (l & Hl & ->) & Hadd') | (Hgt & -> & ->)].
  - (* the candidate passed the threshold *)
    exists (acc ++ [index]). split; [by right |].
    destruct (add_neighbours_of_spec _ _ _ Hadd')
      as (nbrs & new & Hnbrs & Hq' & Hv' & Hnew & Hall).
    pose proof Hbfs1 as (Hgr1 & _). rewrite Hgr1 in Hnbrs.
    rewrite Hnl in Hl. inversion Hl; subst l. clear Hl.
    split; [by eapply same_inputs_trans |].
    split; [by eapply add_neighbours_of_invariant |].
    split.
    { simpl. rewrite list_lookup_insert_eq by (by eapply lookup_lt_Some).
      by rewrite app_assoc. }
    split.
    { intros x. rewrite !elem_of_app. intros [Hx | Hx]; auto. }
    split.
    { intros x. rewrite elem_of_app, list_elem_of_singleton.
      intros [Hx | ->].
      - destruct (Hdone x Hx) as (rx & Hrx & Hiff & Hrec).
        assert (Hne : x <> index) by (intros ->; contradiction).
        exists rx. split; [by eapply lookup_weaken |].
        rewrite elem_of_app, list_elem_of_singleton. split; [tauto |].
        intros [Hacc | ?]; [| contradiction]. simpl.
        rewrite lookup_insert_ne by congruence. auto.
      - exists r. split; [done |].
        rewrite elem_of_app, list_elem_of_singleton.
        split; [tauto |]. intros _. simpl. apply lookup_insert_eq. }
    split.
    { intros a x Hax. simpl. rewrite lookup_insert_ne.
      - apply Hnz. rewrite elem_of_app in Hax. tauto.
      - intros Heq. inversion Heq; subst a x.
        rewrite elem_of_app, list_elem_of_singleton in Hax. tauto. }
    split.
    { intros x Hx. apply Hv' in Hx. rewrite Hv1 in Hx. rewrite Hq'.
      rewrite !elem_of_app, list_elem_of_singleton.
      destruct Hx as [-> | [Hx | Hx]]; [tauto | | tauto].
      apply Hvis in Hx. rewrite elem_of_app, elem_of_cons in Hx. tauto. }
    split.
    { intros x. rewrite Hq', !elem_of_app, list_elem_of_singleton.
      intros Hx.
      assert (Hcases : x ∈ done ++ index :: queue b1 \/ x ∈ new).
      { rewrite elem_of_app, elem_of_cons. tauto. }
      destruct Hcases as [Hold | Hx'].
      - destruct (Horigin x Hold) as [? | (p & nb & Hp & Hnb & Hxnb)];
          [by left |].
        right. exists p, nb. rewrite elem_of_app. tauto.
      - right. exists index, nbrs. rewrite elem_of_app, list_elem_of_singleton.
        split; [tauto |]. split; [done | auto]. }
    intros p nb Hp Hnb n Hn. apply Hv'. rewrite Hv1.
    rewrite elem_of_app, list_elem_of_singleton in Hp.
    destruct Hp as [Hp | [Hp | ->]].
    + right. left. eapply Hexp; [by left | done | done].
    + right. left. eapply Hexp; [by right | done | done].
    + rewrite Hnbrs in Hnb. inversion Hnb; subst nb.
      apply Hall, Hv' in Hn. by rewrite Hv1 in Hn.
  - (* the candidate did not pass *)
    exists acc. split; [by left |].
    split; [by eapply same_inputs_trans |].
    split; [done |].
    split; [by rewrite Hnl1 |].
    split; [intros x Hx; apply elem_of_app; auto |].
    split.
    { intros x. rewrite elem_of_app, list_elem_of_singleton.
      intros [Hx | ->].
      - destruct (Hdone x Hx) as (rx & Hrx & Hiff & Hrec).
        exists rx. split; [by eapply lookup_weaken |]. split; [done |].
        rewrite Hnz1. auto.
      - exists r. split; [done |]. split; [| done].
        split; [done | congruence]. }
    split; [intros a x Hax; rewrite Hnz1; auto |].
    split.
    { intros x Hx. rewrite Hv1 in Hx. apply Hvis in Hx.
      rewrite <- app_assoc. by simpl. }
    split.
    { intros x Hx. rewrite <- app_assoc in Hx. simpl in Hx. auto. }
    intros p nb Hp Hnb n Hn. rewrite Hv1. eauto.
Qed.


Lemma contiguous_loop_inv (g0 : CovarianceMatrixGenerator) (s : nat)
    (l0 : list nat) (fuel : nat) (g g' : CovarianceMatrixGenerator)
    (b b' : BreadthFirstSearch) (done acc : list nat) :
  contiguous_inv g0 s l0 done acc g b ->
  contiguous_loop fuel s g b = Ret (g', b') ->
  exists done' acc', contiguous_inv g0 s l0 done' acc' g' b' /\ queue b' = [].
Proof.
  intros Hinv Hloop.
  destruct (contiguous_loop_invariant
              (fun g b => exists done acc, contiguous_inv g0 s l0 done acc g b)
              s) with (fuel := fuel) (g := g) (b := b) (g' := g') (b' := b')
    as [(done' & acc' & Hinv') Hq]; [| eauto | done | eauto].
  intros g1 b1 index b2 g2 b3 (done1 & acc1 & Hinv1) Hnext Hbody.
  destruct (contiguous_body_inv _ _ _ _ _ _ _ _ _ _ _ Hinv1 Hnext Hbody)
    as (acc2 & _ & Hinv2).
  eauto.
Qed.



(** ** The second pass *)

(** A loop whose turns move the state along a preorder [R] and settle a
    property [Q] of their element that [R] keeps, settles it for every
    element. *)
Lemma foldM_settle {A B : Type} (R : A -> A -> Prop) (Q : B -> A -> Prop)
    (body : A -> B -> result A) (xs : list B) :
  (forall a, R a a) ->
  (forall a b c, R a b -> R b c -> R a c) ->
  (forall x a a', Q x a -> R a a' -> Q x a') ->
  (forall a x a', x ∈ xs -> body a x = Ret a' -> R a a' /\ Q x a') ->
  forall a a', foldM body a xs = Ret a' ->
    R a a' /\ forall x, x ∈ xs -> Q x a'.
Proof.
  intros Hrefl Htrans Hkeep. induction xs as [| x xs IH];
    intros Hbody a a' Hrun; simpl in Hrun.
  - inversion Hrun; subst. split; [done |].
    intros x Hx. by apply elem_of_nil in Hx.
  - inv_bind Hrun. destruct (Hbody a x a0) as [HR HQ]; [by left | done |].
    destruct (IH (fun a x a' Hx => Hbody a x a' (list_elem_of_further _ _ _ Hx))
                 a0 a' Hrun) as [HR' HQ'].
    split; [by eapply Htrans |].
    intros y Hy. apply elem_of_cons in Hy as [-> | Hy]; [| auto].
    by eapply Hkeep.
Qed.

Lemma second_pass_le_refl (lists : list (list nat))
    (g : CovarianceMatrixGenerator) :
  second_pass_le lists g g.
Proof.
  split; [apply same_inputs_refl |]. split; [done |]. split; [done |].
  intros k. by left.
Qed.

Lemma second_pass_le_trans (lists : list (list nat))
    (g1 g2 g3 : CovarianceMatrixGenerator) :
  second_pass_le lists g1 g2 -> second_pass_le lists g2 g3 ->
  second_pass_le lists g1 g3.
Proof.
  intros (Hs12 & Hnl12 & Hc12 & Hnz12) (Hs23 & Hnl23 & Hc23 & Hnz23).
  split; [by eapply same_inputs_trans |]. split; [congruence |].
  split; [by etransitivity |].
  intros k. destruct (Hnz23 k) as [Heq | Hrec]; [| by right].
  rewrite Heq. destruct (Hnz12 k) as [Heq' | (Hcand & r & Hr & Hpos & Hrec)];
    [by left |].
  right. split; [done |]. exists r.
  split; [exact (lookup_weaken _ _ _ _ Hr Hc23) |]. by split.
Qed.

Lemma pair_settled_le (lists : list (list nat)) (k : nat * nat)
    (g g' : CovarianceMatrixGenerator) :
  pair_settled k g -> second_pass_le lists g g' -> pair_settled k g'.
Proof.
  intros (r & Hr & Hrec) (_ & _ & Hcache & Hnz).
  pose proof (lookup_weaken _ _ _ _ Hr Hcache) as Hr'.
  exists r. split; [done |]. intros Hpos.
  destruct (Hnz k) as [-> | (_ & r' & Hr'' & _ & ->)]; [auto | congruence].
Qed.

Lemma non_contiguous_body_le (lists : list (list nat)) (a b : nat)
    (g g' : CovarianceMatrixGenerator) :
  (a <> b -> candidate_pair lists (a, b)) ->
  non_contiguous_body a g b = Ret g' ->
  second_pass_le lists g g' /\ (a <> b -> pair_settled (a, b) g').
Proof.
  intros Hcand Hrun.
  apply non_contiguous_body_Ret in Hrun
    as [[Heq ->] | (Hne & r & g1 & Hadd & Hcase)].
  { split; [apply second_pass_le_refl | done]. }
  destruct (add_covariance_for_indices_Ret _ _ _ _ _ Hadd)
    as (Hsame1 & Hnz1 & Hnl1 & Hr & _).
  pose proof (add_covariance_for_indices_cache _ _ _ _ _ Hadd) as Hcache.
  destruct Hcase as [[Hgt ->] | [Hgt ->]].
  - apply Qgtb_true in Hgt. split.
    + split; [done |]. split; [done |]. split; [done |].
      intros k. simpl. rewrite lookup_insert.
      destruct (decide ((a, b) = k)) as [<- | Hk]; [| by left].
      right. split; [auto |]. exists r. by repeat split.
    + intros _. exists r. split; [done |]. intros _. simpl.
      apply lookup_insert_eq.
  - apply Qgtb_false in Hgt. split.
    + split; [done |]. split; [done |]. split; [done |].
      intros k. left. by rewrite Hnz1.
    + intros _. exists r. split; [done |]. intros Hpos.
      by apply Qlt_not_le in Hpos.
Qed.

Lemma find_all_non_contiguous_covariances_le
    (g g' : CovarianceMatrixGenerator) :
  find_all_non_contiguous_covariances g = Ret g' ->
  second_pass_le (neighbour_lists g) g g'
  /\ forall l a b, l ∈ neighbour_lists g -> a ∈ l -> b ∈ l -> a <> b ->
       pair_settled (a, b) g'.
Proof.
  unfold find_all_non_contiguous_covariances, non_contiguous_list.
  set (lists := neighbour_lists g). intros Hrun.
  pose proof (second_pass_le_refl lists) as Hrefl.
  pose proof (second_pass_le_trans lists) as Htrans.
  apply (foldM_settle (second_pass_le lists)
           (fun l g' => forall a b, a ∈ l -> b ∈ l -> a <> b ->
                                    pair_settled (a, b) g')) in Hrun;
    [destruct Hrun as [Hle Hall]; split; [done | eauto] | done | done | |].
  { intros l g1 g2 Hset Hle a b Ha Hb Hne. eapply pair_settled_le; eauto. }
  intros g1 l g2 Hl Hrun1.
  apply (foldM_settle (second_pass_le lists)
           (fun a g' => forall b, b ∈ l -> a <> b -> pair_settled (a, b) g'))
    in Hrun1;
    [destruct Hrun1 as [Hle Hall]; split; [done | eauto] | done | done | |].
  { intros a g3 g4 Hset Hle b Hb Hne. eapply pair_settled_le; eauto. }
  intros g3 a g4 Ha Hrun2.
  apply (foldM_settle (second_pass_le lists)
           (fun b g' => a <> b -> pair_settled (a, b) g')) in Hrun2;
    [destruct Hrun2 as [Hle Hall]; split; [done | eauto] | done | done | |].
  { intros b g5 g6 Hset Hle Hne. eapply pair_settled_le; eauto. }
  intros g5 b g6 Hb Hbody.
  eapply non_contiguous_body_le; [| exact Hbody].
  intros Hne. split; [done |]. exists l. by repeat split.
Qed.

(** C8. [create_covariance_matrix] runs the second pass on the generator
    the contiguous passes leave.  For every ordered pair [(a, b)] of
    distinct indices of one neighbour list the pass caches the covariance
    and records it when it is strictly positive; it leaves the entry as
    the first pass left it when the covariance is not positive, and it
    changes no entry of any other pair. *)
Theorem second_pass_records_positive (pms : list (gmap nat Q))
    (noise : list Q) (gr : list (list nat)) (limit : Q)
    (g' : CovarianceMatrixGenerator) :
  run_generator pms noise gr limit = Ret g' ->
  exists g1,
    find_all_contiguous_covariances (generator_init pms noise gr limit)
    = Ret g1
    /\ find_all_non_contiguous_covariances g1 = Ret g'
    /\ neighbour_lists g' = neighbour_lists g1
    /\ (forall l a b,
          l ∈ neighbour_lists g1 -> a ∈ l -> b ∈ l -> a <> b ->
          exists r,
            calculated_covariances g' !! (a, b) = Some r
            /\ (calculate_covariance g' a b = Ret r
                \/ calculate_covariance g' b a = Ret r)
            /\ (0 < r -> non_zero_covariances g' !! (a, b) = Some r)
            /\ (r <= 0 -> non_zero_covariances g' !! (a, b)
                          = non_zero_covariances g1 !! (a, b)))
    /\ (forall k, ~ candidate_pair (neighbour_lists g1) k ->
          non_zero_covariances g' !! k = non_zero_covariances g1 !! k).
Proof.
  intros Hrun. pose proof (run_generator_cache_ok _ _ _ _ _ Hrun) as Hok.
  unfold run_generator in Hrun. inv_bind Hrun.
  rename a into g1, Ha into Hfirst.
  exists g1. split; [done |]. split; [done |].
  destruct (find_all_non_contiguous_covariances_le _ _ Hrun)
    as [(Hsame & Hnl & Hcache & Hnz) Hsettled].
  split; [done |]. split.
  - intros l a b Hl Ha Hb Hne.
    destruct (Hsettled l a b Hl Ha Hb Hne) as (r & Hr & Hrec).
    exists r. split; [done |].
    destruct Hok as (_ & Hsound & _).
    split; [by apply Hsound |]. split; [done |].
    intros Hle. destruct (Hnz (a, b)) as [Heq | (_ & r' & Hr' & Hpos & _)];
      [done |].
    rewrite Hr in Hr'. inversion Hr'; subst r'. by apply Qlt_not_le in Hpos.
  - intros k Hk. destruct (Hnz k) as [Heq | (Hcand & _)]; [done |].
    contradiction.
Qed.

Lemma second_pass_records_positive_witness :
  exists g' g1,
    run_generator [{[0%nat := 1]}; {[1%nat := 1]}; {[0%nat := 1; 1%nat := 1]}]
                  [1; 1] line_graph 0 = Ret g'
    /\ find_all_contiguous_covariances
         (generator_init
            [{[0%nat := 1]}; {[1%nat := 1]}; {[0%nat := 1; 1%nat := 1]}]
            [1; 1] line_graph 0) = Ret g1
    /\ find_all_non_contiguous_covariances g1 = Ret g'
    /\ neighbour_lists g' = neighbour_lists g1
    /\ (forall l a b,
          l ∈ neighbour_lists g1 -> a ∈ l -> b ∈ l -> a <> b ->
          exists r,
            calculated_covariances g' !! (a, b) = Some r
            /\ (calculate_covariance g' a b = Ret r
                \/ calculate_covariance g' b a = Ret r)
            /\ (0 < r -> non_zero_covariances g' !! (a, b) = Some r)
            /\ (r <= 0 -> non_zero_covariances g' !! (a, b)
                          = non_zero_covariances g1 !! (a, b)))
    /\ (forall k, ~ candidate_pair (neighbour_lists g1) k ->
          non_zero_covariances g' !! k = non_zero_covariances g1 !! k).
Proof.
  destruct (run_generator
              [{[0%nat := 1]}; {[1%nat := 1]}; {[0%nat := 1; 1%nat := 1]}]
              [1; 1] line_graph 0) as [g' | e |] eqn:Hrun.
  - exists g'.
    destruct (second_pass_records_positive _ _ _ _ _ Hrun) as (g1 & Hrest).
    exists g1. split; [reflexivity | exact Hrest].
  - vm_compute in Hrun. discriminate Hrun.
  - vm_compute in Hrun. discriminate Hrun.
Defined.

(** ** The diagonal is always recorded *)

Lemma contiguous_body_recorded (s index : nat)
    (g g' : CovarianceMatrixGenerator) (b b' : BreadthFirstSearch) :
  contiguous_body s g index b = Ret (g', b') ->
  recorded_le g g' /\ no_source_pixels g' = no_source_pixels g.
Proof.
  intros Hbody. apply contiguous_body_Ret in Hbody as (r & g1 & Hadd & Hcase).
  destruct (add_covariance_for_indices_Ret _ _ _ _ _ Hadd)
    as ((_ & _ & _ & _ & HN) & Hnz & _).
  destruct Hcase as [(_ & (l & _ & ->) & _) | (_ & -> & _)].
  - split; [by eapply recorded_le_insert | done].
  - split; [by apply recorded_le_same | done].
Qed.

Lemma find_contiguous_covariances_recorded (g g' : CovarianceMatrixGenerator)
    (s : nat) :
  find_contiguous_covariances g s = Ret g' ->
  (recorded_le g g' /\ no_source_pixels g' = no_source_pixels g)
  /\ is_Some (non_zero_covariances g' !! (s, s)).
Proof.
  intros Hrun. apply find_contiguous_covariances_Ret in Hrun as (b' & Hrun).
  apply find_contiguous_covariances_bfs_Ret in Hrun
    as (v & g1 & b1 & Hadd & _ & Hloop).
  destruct (add_covariance_for_indices_Ret _ _ _ _ _ Hadd)
    as ((_ & _ & _ & _ & HN) & Hnz & _).
  set (g2 := set_non_zero g1 _) in Hloop.
  destruct (contiguous_loop_invariant
              (fun g0 _ => recorded_le g2 g0
                           /\ no_source_pixels g0 = no_source_pixels g2) s)
    with (fuel := bfs_fuel (graph g)) (g := g2) (b := b1) (g' := g') (b' := b')
    as [[Hrec HN'] _]; [| split; [apply recorded_le_refl | done] | done |].
  { intros g3 b3 index b4 g4 b5 [Hrec3 HN3] _ Hbody.
    apply contiguous_body_recorded in Hbody as [Hrec4 HN4].
    split; [by eapply recorded_le_trans | congruence]. }
  assert (Hss : is_Some (non_zero_covariances g2 !! (s, s))).
  { simpl. rewrite lookup_insert_eq. eauto. }
  split; [split |].
  - eapply recorded_le_trans; [| exact Hrec].
    by eapply recorded_le_insert.
  - rewrite HN'. simpl. exact HN.
  - by apply Hrec.
Qed.

Lemma find_all_contiguous_covariances_recorded
    (g g' : CovarianceMatrixGenerator) :
  find_all_contiguous_covariances g = Ret g' ->
  forall s, (s < no_source_pixels g)%nat ->
    is_Some (non_zero_covariances g' !! (s, s)).
Proof.
  unfold find_all_contiguous_covariances. intros Hrun s Hs.
  apply (foldM_settle
           (fun g g' => recorded_le g g'
                        /\ no_source_pixels g' = no_source_pixels g)
           (fun s g' => is_Some (non_zero_covariances g' !! (s, s)))) in Hrun.
  - destruct Hrun as [_ Hall]. apply Hall, elem_of_seq. lia.
  - intros g0. split; [apply recorded_le_refl | done].
  - intros g1 g2 g3 [H12 N12] [H23 N23].
    split; [by eapply recorded_le_trans | congruence].
  - intros x g1 g2 Hx [Hle _]. by apply Hle.
  - intros g1 x g2 _ Hfind. by apply find_contiguous_covariances_recorded.
Qed.

(** C5. For every threshold, a map that [create_covariance_matrix]
    returns has the key [(s, s)] for every pixel [s], with the value
    [calculate_covariance] returns for [(s, s)]; and over well-formed
    inputs [create_covariance_matrix] does return. *)
Theorem diagonal_always_recorded (pms : list (gmap nat Q)) (noise : list Q)
    (gr : list (list nat)) (limit : Q) :
  (forall m,
     create_covariance_matrix pms noise gr limit = Ret m ->
     forall s, (s < length pms)%nat ->
       exists v,
         m !! (s, s) = Some v
         /\ calculate_covariance (generator_init pms noise gr limit) s s
            = Ret v)
  /\ (inputs_wf pms noise gr ->
      exists m, create_covariance_matrix pms noise gr limit = Ret m).
Proof.
  split.
  - intros m Hcreate s Hs. unfold create_covariance_matrix in Hcreate.
    inv_bind Hcreate. rename a into g2, Ha into Hrun.
    inversion Hcreate; subst m.
    pose proof (run_generator_cache_ok _ _ _ _ _ Hrun) as (_ & Hsound & Hrec).
    unfold run_generator in Hrun. inv_bind Hrun. rename a into g1.
    pose proof (find_all_contiguous_covariances_recorded _ _ Ha s Hs) as Hss.
    destruct (find_all_non_contiguous_covariances_le _ _ Hrun)
      as [(Hsame12 & _ & _ & Hnz) _].
    assert (Hsame01 : same_inputs
                        (generator_init pms noise gr limit) g1).
    { revert Ha. unfold find_all_contiguous_covariances.
      apply (foldM_invariant
               (same_inputs (generator_init pms noise gr limit)));
        [| apply same_inputs_refl].
      intros g3 x g4 Hg3 _ Hfind.
      apply find_contiguous_covariances_Ret in Hfind as (b' & Hfind).
      apply find_contiguous_covariances_bfs_Ret in Hfind
        as (v & g5 & b1 & Hadd & _ & Hloop).
      destruct (add_covariance_for_indices_Ret _ _ _ _ _ Hadd)
        as (Hsame5 & _).
      eapply (contiguous_loop_invariant
                (fun g _ => same_inputs
                              (generator_init pms noise gr limit) g));
        [| | exact Hloop].
      - intros g6 b6 index b7 g7 b8 Hg6 _ Hbody.
        apply contiguous_body_Ret in Hbody as (r & g8 & Hadd8 & Hcase).
        destruct (add_covariance_for_indices_Ret _ _ _ _ _ Hadd8)
          as (Hsame8 & _).
        destruct Hcase as [(_ & (l & _ & ->) & _) | (_ & -> & _)];
          by eapply same_inputs_trans.
      - by eapply same_inputs_trans. }
    assert (Hv : is_Some (non_zero_covariances g2 !! (s, s))).
    { destruct (Hnz (s, s)) as [-> | (_ & r & _ & _ & ->)]; [done | eauto]. }
    destruct Hv as [v Hv]. exists v. split; [done |].
    rewrite <- (calculate_covariance_same_inputs _ g2)
      by (by eapply same_inputs_trans).
    apply Hrec, Hsound in Hv. by destruct Hv.
  - intros Hin.
    pose proof (generator_init_wf pms noise gr limit Hin) as Hwf0.
    destruct (find_all_contiguous_covariances_total _ Hwf0)
      as (g1 & Hrun1 & Hwf1 & _).
    destruct (find_all_non_contiguous_covariances_total _ Hwf1)
      as (g2 & Hrun2 & _).
    exists (non_zero_covariances g2).
    unfold create_covariance_matrix, run_generator.
    rewrite Hrun1. simpl. by rewrite Hrun2.
Qed.

Lemma diagonal_always_recorded_witness :
  exists m,
    create_covariance_matrix
      [{[0%nat := 1]}; {[1%nat := 1]}; {[0%nat := 1; 1%nat := 1]}]
      [1; 1] line_graph 0 = Ret m
    /\ forall s, (s < 3)%nat ->
         exists v,
           m !! (s, s) = Some v
           /\ calculate_covariance
                (generator_init
                   [{[0%nat := 1]}; {[1%nat := 1]}; {[0%nat := 1; 1%nat := 1]}]
                   [1; 1] line_graph 0) s s = Ret v.
Proof.
  destruct (diagonal_always_recorded
              [{[0%nat := 1]}; {[1%nat := 1]}; {[0%nat := 1; 1%nat := 1]}]
              [1; 1] line_graph 0) as [Hdiag Htotal].
  destruct Htotal as (m & Hm).
  - split; [reflexivity |]. split.
    + unfold graph_in_range, line_graph. simpl. repeat constructor; lia.
    + assert (Hone : ~ 1 == 0)
        by (intros Hq; unfold Qeq in Hq; simpl in Hq; lia).
      repeat constructor; intros k w Hkw.
      * apply lookup_singleton_Some in Hkw as [<- <-]. exists 1. by split.
      * apply lookup_singleton_Some in Hkw as [<- <-]. exists 1. by split.
      * apply lookup_insert_Some in Hkw as [[<- <-] | [_ Hkw]];
          [exists 1; by split |].
        apply lookup_singleton_Some in Hkw as [<- <-]. exists 1. by split.
  - exists m. split; [exact Hm | exact (Hdiag m Hm)].
Defined.

(** * Further properties of the modelled code *)

(** ** calculate_covariance *)

Lemma floordiv_Ret (x y t : Q) :
  floordiv x y = Ret t <-> ~ y == 0 /\ t = inject_Z (Qfloor (x / y)).
Proof.
  unfold floordiv. destruct (Qeq_bool y 0) eqn:Hz.
  - apply Qeq_bool_iff in Hz. split; [discriminate | tauto].
  - apply Qeq_bool_neq in Hz. split.
    + intros Ht. inversion Ht; subst. by split.
    + intros [_ ->]. done.
Qed.

Lemma comprehension_map {A B : Type} (f : A -> result B) (g : A -> B)
    (xs : list A) :
  (forall x, x ∈ xs -> f x = Ret (g x)) -> comprehension f xs = Ret (map g xs).
Proof.
  induction xs as [| x xs IH]; intros Hf; simpl; [done |].
  rewrite Hf by (by left). simpl. rewrite IH by (intros; apply Hf; by right).
  done.
Qed.

Lemma comprehension_Ret_inv {A B : Type} (f : A -> result B) (xs : list A)
    (ys : list B) :
  comprehension f xs = Ret ys ->
  Forall2 (fun x y => f x = Ret y) xs ys.
Proof.
  revert ys. induction xs as [| x xs IH]; intros ys Hrun; simpl in Hrun.
  - inversion Hrun; subst. constructor.
  - inv_bind Hrun. inv_bind Hrun. inversion Hrun; subst.
    constructor; [done | auto].
Qed.

(** The body of the comprehension of [calculate_covariance] at a key of
    both maps. *)
Lemma covariance_term_Ret (m1 m2 : gmap nat Q) (noise : list Q) (k : nat)
    (t : Q) :
  k ∈ shared_keys m1 m2 ->
  (x ← dict_getitem m1 k; y ← dict_getitem m2 k; n ← getitem noise k;
   floordiv (x * y) n) = Ret t
  <-> (exists n, noise !! k = Some n /\ ~ n == 0)
      /\ t = covariance_term m1 m2 noise k.
Proof.
  intros Hk. apply shared_keys_spec in Hk as [[x Hx] [y Hy]].
  rewrite (proj2 (dict_getitem_Ret _ _ _) Hx),
          (proj2 (dict_getitem_Ret _ _ _) Hy). simpl.
  unfold covariance_term. rewrite Hx, Hy. simpl.
  destruct (noise !! k) as [n |] eqn:Hn.
  - rewrite (proj2 (getitem_Ret _ _ _) Hn). simpl.
    rewrite floordiv_Ret, (at0_lookup _ _ _ Hn). split.
    + intros [Hn0 ->]. split; [eauto | done].
    + intros [(n' & Hn' & Hn0) ->]. inversion Hn'; subst. by split.
  - unfold getitem. rewrite Hn. simpl. split; [discriminate |].
    intros [(n' & Hn' & _) _]. discriminate.
Qed.

Lemma calculate_covariance_Ret (g : CovarianceMatrixGenerator)
    (a b : nat) (v : Q) :
  calculate_covariance g a b = Ret v
  <-> exists m1 m2,
        pixel_maps g !! a = Some m1 /\ pixel_maps g !! b = Some m2
        /\ (forall k, k ∈ shared_keys m1 m2 ->
              exists n, noise_vector g !! k = Some n /\ ~ n == 0)
        /\ v = Qsum (map (covariance_term m1 m2 (noise_vector g))
                         (shared_keys m1 m2)).
Proof.
  split.
  - unfold calculate_covariance. intros Hrun.
    inv_bind Hrun. rename a0 into m1, Ha0 into Hm1.
    inv_bind Hrun. rename a0 into m2, Ha0 into Hm2.
    inv_bind Hrun. rename a0 into terms, Ha0 into Hterms.
    inversion Hrun; subst v. apply getitem_Ret in Hm1, Hm2.
    exists m1, m2. split; [done |]. split; [done |].
    apply comprehension_Ret_inv in Hterms.
    assert (Hall : forall ks ts,
      (forall k, k ∈ ks -> k ∈ shared_keys m1 m2) ->
      Forall2 (fun k t =>
                 (x ← dict_getitem m1 k; y ← dict_getitem m2 k;
                  n ← getitem (noise_vector g) k; floordiv (x * y) n) = Ret t)
              ks ts ->
      (forall k, k ∈ ks ->
         exists n, noise_vector g !! k = Some n /\ ~ n == 0)
      /\ ts = map (covariance_term m1 m2 (noise_vector g)) ks).
    { intros ks ts Hks Hf. induction Hf as [| k t ks ts Hkt Hf IH].
      - split; [intros k Hk; by apply elem_of_nil in Hk | done].
      - apply covariance_term_Ret in Hkt as [Hn ->]; [| apply Hks; by left].
        destruct IH as [IHn ->]; [intros; apply Hks; by right |].
        split; [| done].
        intros k' Hk'. apply elem_of_cons in Hk' as [-> | Hk']; auto. }
    destruct (Hall _ _ (fun k Hk => Hk) Hterms) as [Hn ->]. by split.
  - intros (m1 & m2 & Hm1 & Hm2 & Hnoise & ->).
    unfold calculate_covariance.
    rewrite (proj2 (getitem_Ret _ _ _) Hm1), (proj2 (getitem_Ret _ _ _) Hm2).
    simpl. rewrite (comprehension_map _
                      (covariance_term m1 m2 (noise_vector g))); [done |].
    intros k Hk. apply covariance_term_Ret; [done |]. split; [auto | done].
Qed.

(** X1. [calculate_covariance] returns exactly when both indices are
    pixels and the noise vector has a non-zero value at every observation
    index the two pixel maps share; what it returns is the sum of the
    floored quotients over those indices. *)
Theorem calculate_covariance_returns (g : CovarianceMatrixGenerator)
    (a b : nat) (v : Q) :
  calculate_covariance g a b = Ret v
  <-> exists m1 m2,
        pixel_maps g !! a = Some m1 /\ pixel_maps g !! b = Some m2
        /\ (forall k, k ∈ shared_keys m1 m2 ->
              exists n, noise_vector g !! k = Some n /\ ~ n == 0)
        /\ v = Qsum (map (covariance_term m1 m2 (noise_vector g))
                         (shared_keys m1 m2)).
Proof. apply calculate_covariance_Ret. Qed.

Lemma Qsum_Permutation (xs ys : list Q) : xs ≡ₚ ys -> Qsum xs == Qsum ys.
Proof.
  induction 1 as [| x xs ys _ IH | x y xs | xs ys zs _ IH1 _ IH2].
  - reflexivity.
  - rewrite !Qsum_cons, IH. reflexivity.
  - rewrite !Qsum_cons. ring.
  - by rewrite IH1.
Qed.

Lemma shared_keys_NoDup (m1 m2 : gmap nat Q) : NoDup (shared_keys m1 m2).
Proof. apply NoDup_filter, NoDup_fst_map_to_list. Qed.

Lemma shared_keys_Permutation (m1 m2 : gmap nat Q) :
  shared_keys m1 m2 ≡ₚ shared_keys m2 m1.
Proof.
  apply NoDup_Permutation; [apply shared_keys_NoDup .. |].
  intros k. rewrite !shared_keys_spec. tauto.
Qed.

Lemma covariance_term_comm (m1 m2 : gmap nat Q) (noise : list Q) (k : nat) :
  covariance_term m1 m2 noise k = covariance_term m2 m1 noise k.
Proof.
  unfold covariance_term. f_equal. apply Qfloor_comp.
  rewrite (Qmult_comm (default 0 (m1 !! k))). reflexivity.
Qed.

Lemma calculate_covariance_swap (g : CovarianceMatrixGenerator)
    (a b : nat) (v : Q) :
  calculate_covariance g a b = Ret v ->
  exists w, calculate_covariance g b a = Ret w /\ w == v.
Proof.
  intros Hab. apply calculate_covariance_Ret in Hab
    as (m1 & m2 & Hm1 & Hm2 & Hnoise & ->).
  eexists. split.
  - apply calculate_covariance_Ret. exists m2, m1.
    split; [done |]. split; [done |]. split; [| reflexivity].
    intros k Hk. apply Hnoise. rewrite shared_keys_spec in Hk |- *. tauto.
  - rewrite (Qsum_Permutation _
               (map (covariance_term m2 m1 (noise_vector g))
                    (shared_keys m1 m2))).
    + erewrite map_ext; [reflexivity |]. intros k. simpl.
      apply covariance_term_comm.
    + apply Permutation_map, shared_keys_Permutation.
Qed.

(** X2. The covariance does not depend on the order of the two pixels:
    when [calculate_covariance] returns for [(a, b)] it returns for
    [(b, a)], and the two values are equal. *)
Theorem calculate_covariance_symmetric (g : CovarianceMatrixGenerator)
    (a b : nat) (v : Q) :
  calculate_covariance g a b = Ret v ->
  exists w, calculate_covariance g b a = Ret w /\ w == v.
Proof. apply calculate_covariance_swap. Qed.

Lemma calculate_covariance_symmetric_witness :
  exists w,
    calculate_covariance
      (generator_init [{[0%nat := 1]}; {[0%nat := 3; 1%nat := 1]}] [2; 1] [] 0)
      1 0 = Ret w
    /\ w == 1.
Proof.
  apply (calculate_covariance_symmetric
           (generator_init [{[0%nat := 1]}; {[0%nat := 3; 1%nat := 1]}]
                           [2; 1] [] 0) 0 1 1).
  vm_compute. reflexivity.
Defined.

(** X3. Two pixels whose maps share no observation index have covariance
    zero, whatever the noise vector is. *)
Theorem calculate_covariance_disjoint (g : CovarianceMatrixGenerator)
    (a b : nat) (m1 m2 : gmap nat Q) :
  pixel_maps g !! a = Some m1 -> pixel_maps g !! b = Some m2 ->
  (forall k, m1 !! k = None \/ m2 !! k = None) ->
  calculate_covariance g a b = Ret 0.
Proof.
  intros Hm1 Hm2 Hdisj.
  assert (Hnil : shared_keys m1 m2 = []).
  { destruct (shared_keys m1 m2) as [| k ks] eqn:Hks; [done |].
    assert (Hk : k ∈ shared_keys m1 m2) by (rewrite Hks; by left).
    apply shared_keys_spec in Hk as [[x Hx] [y Hy]].
    destruct (Hdisj k); congruence. }
  apply calculate_covariance_Ret. exists m1, m2.
  split; [done |]. split; [done |]. rewrite Hnil.
  split; [intros k Hk; by apply elem_of_nil in Hk | done].
Qed.

Lemma calculate_covariance_disjoint_witness :
  calculate_covariance
    (generator_init [{[0%nat := 1]}; {[1%nat := 1]}] [] [] 0) 0 1 = Ret 0.
Proof.
  apply (calculate_covariance_disjoint _ 0 1 {[0%nat := 1]} {[1%nat := 1]}).
  - reflexivity.
  - reflexivity.
  - intros k. destruct (decide (k = 0%nat)) as [-> | Hk].
    + right. by rewrite lookup_singleton_ne.
    + left. by rewrite lookup_singleton_ne.
Defined.

(** ** The memoized requests *)

(** X4. Once a covariance has been requested, asking again for the same
    pair returns the same value and changes nothing, and asking for the
    pair in the other order returns the same value too. *)
Theorem add_covariance_for_indices_repeat (g g1 : CovarianceMatrixGenerator)
    (a b : nat) (v : Q) :
  cache_ok g ->
  add_covariance_for_indices g a b = Ret (v, g1) ->
  add_covariance_for_indices g1 a b = Ret (v, g1)
  /\ exists g2, add_covariance_for_indices g1 b a = Ret (v, g2).
Proof.
  intros Hok Hadd.
  pose proof (add_covariance_for_indices_cache_ok _ _ _ _ _ Hadd Hok) as Hok1.
  destruct (add_covariance_for_indices_Ret _ _ _ _ _ Hadd)
    as (_ & _ & _ & Hv & _).
  by apply add_covariance_for_indices_cached.
Qed.

Lemma add_covariance_for_indices_repeat_witness :
  let g := generator_init [{[0%nat := 1]}; {[0%nat := 3; 1%nat := 1]}]
                          [2; 1] [[]; []] 0 in
  exists g1,
    add_covariance_for_indices g 0 1 = Ret (1, g1)
    /\ add_covariance_for_indices g1 0 1 = Ret (1, g1)
    /\ exists g2, add_covariance_for_indices g1 1 0 = Ret (1, g2).
Proof.
  intros g. eexists. split; [vm_compute; reflexivity |].
  eapply (add_covariance_for_indices_repeat g).
  - apply generator_init_cache_ok.
  - vm_compute. reflexivity.
Defined.

(** ** What the returned map holds *)

Lemma contiguous_body_same_inputs (s index : nat)
    (g g' : CovarianceMatrixGenerator) (b b' : BreadthFirstSearch) :
  contiguous_body s g index b = Ret (g', b') -> same_inputs g g'.
Proof.
  intros Hbody. apply contiguous_body_Ret in Hbody as (r & g1 & Hadd & Hcase).
  destruct (add_covariance_for_indices_Ret _ _ _ _ _ Hadd) as (Hsame & _).
  by destruct Hcase as [(_ & (l & _ & ->) & _) | (_ & -> & _)].
Qed.

Lemma find_contiguous_covariances_same_inputs
    (g g' : CovarianceMatrixGenerator) (s : nat) :
  find_contiguous_covariances g s = Ret g' -> same_inputs g g'.
Proof.
  intros Hrun. apply find_contiguous_covariances_Ret in Hrun as (b' & Hrun).
  apply find_contiguous_covariances_bfs_Ret in Hrun
    as (v & g1 & b1 & Hadd & _ & Hloop).
  destruct (add_covariance_for_indices_Ret _ _ _ _ _ Hadd) as (Hsame & _).
  eapply (contiguous_loop_invariant (fun g0 _ => same_inputs g g0));
    [| | exact Hloop]; [| done].
  intros g3 b3 index b4 g4 b5 Hg3 _ Hbody.
  eapply same_inputs_trans; [exact Hg3 |].
  by eapply contiguous_body_same_inputs.
Qed.

Lemma run_generator_same_inputs (pms : list (gmap nat Q)) (noise : list Q)
    (gr : list (list nat)) (limit : Q) (g : CovarianceMatrixGenerator) :
  run_generator pms noise gr limit = Ret g ->
  same_inputs (generator_init pms noise gr limit) g.
Proof.
  unfold run_generator. intros Hrun. inv_bind Hrun.
  destruct (find_all_non_contiguous_covariances_le _ _ Hrun)
    as [(Hsame & _) _].
  eapply same_inputs_trans; [| exact Hsame].
  revert Ha. unfold find_all_contiguous_covariances.
  apply (foldM_invariant (same_inputs (generator_init pms noise gr limit)));
    [| apply same_inputs_refl].
  intros g1 s g2 Hg1 _ Hfind. eapply same_inputs_trans; [exact Hg1 |].
  by eapply find_contiguous_covariances_same_inputs.
Qed.

Lemma create_covariance_matrix_Ret (pms : list (gmap nat Q)) (noise : list Q)
    (gr : list (list nat)) (limit : Q) (m : gmap (nat * nat) Q) :
  create_covariance_matrix pms noise gr limit = Ret m <->
  exists g, run_generator pms noise gr limit = Ret g
            /\ m = non_zero_covariances g.
Proof.
  unfold create_covariance_matrix. split.
  - intros Hrun. inv_bind Hrun. inversion Hrun; subst. eauto.
  - intros (g & -> & ->). done.
Qed.

(** X5. Every entry of the map [create_covariance_matrix] returns is keyed
    by two pixels of the input, and its value is the covariance
    [calculate_covariance] computes for that pair. *)
Theorem covariance_map_sound (pms : list (gmap nat Q)) (noise : list Q)
    (gr : list (list nat)) (limit : Q) (m : gmap (nat * nat) Q)
    (a b : nat) (v : Q) :
  create_covariance_matrix pms noise gr limit = Ret m ->
  m !! (a, b) = Some v ->
  (a < length pms)%nat /\ (b < length pms)%nat
  /\ exists w,
       calculate_covariance (generator_init pms noise gr limit) a b = Ret w
       /\ w == v.
Proof.
  intros Hcreate Hab.
  apply create_covariance_matrix_Ret in Hcreate as (g & Hrun & ->).
  pose proof (run_generator_cache_ok _ _ _ _ _ Hrun) as (_ & Hsound & Hrec).
  pose proof (run_generator_same_inputs _ _ _ _ _ Hrun) as Hsame.
  apply Hrec, Hsound in Hab.
  rewrite !(calculate_covariance_same_inputs _ g) in Hab by done.
  assert (Hw : exists w,
    calculate_covariance (generator_init pms noise gr limit) a b = Ret w
    /\ w == v).
  { destruct Hab as [Hab | Hba]; [exists v; by split |].
    by apply calculate_covariance_swap. }
  destruct Hw as (w & Hw & Heq).
  pose proof Hw as Hrange.
  apply calculate_covariance_Ret in Hrange as (m1 & m2 & Hm1 & Hm2 & _).
  simpl in Hm1, Hm2. apply lookup_lt_Some in Hm1, Hm2. eauto.
Qed.

Lemma covariance_map_sound_witness :
  exists m,
    create_covariance_matrix
      [{[0%nat := 1]}; {[1%nat := 1]}; {[0%nat := 1; 1%nat := 1]}]
      [1; 1] line_graph 0 = Ret m
    /\ (2 < 3)%nat /\ (0 < 3)%nat
    /\ exists w,
         calculate_covariance
           (generator_init
              [{[0%nat := 1]}; {[1%nat := 1]}; {[0%nat := 1; 1%nat := 1]}]
              [1; 1] line_graph 0) 2 0 = Ret w
         /\ w == 1.
Proof.
  eexists. split; [vm_compute; reflexivity |].
  eapply (covariance_map_sound
            [{[0%nat := 1]}; {[1%nat := 1]}; {[0%nat := 1; 1%nat := 1]}]
            [1; 1] line_graph 0 _ 2 0 1).
  - vm_compute. reflexivity.
  - vm_compute. reflexivity.
Defined.

Lemma contiguous_body_above (s index : nat)
    (g g' : CovarianceMatrixGenerator) (b b' : BreadthFirstSearch) :
  contiguous_body s g index b = Ret (g', b') ->
  off_diagonal_above g -> off_diagonal_above g'.
Proof.
  intros Hbody Habove.
  pose proof (contiguous_body_same_inputs _ _ _ _ _ _ Hbody)
    as (_ & _ & _ & Hlim & _).
  apply contiguous_body_Ret in Hbody as (r & g1 & Hadd & Hcase).
  destruct (add_covariance_for_indices_Ret _ _ _ _ _ Hadd)
    as (_ & Hnz & _).
  intros x y v. rewrite Hlim.
  destruct Hcase as [(Hgt & (l & _ & ->) & _) | (_ & -> & _)].
  - simpl. rewrite lookup_insert.
    destruct (decide ((s, index) = (x, y))) as [_ | _]; simpl.
    + intros Hv _. inversion Hv; subst v. left. by apply Qgtb_true.
    + apply Habove.
  - rewrite Hnz. apply Habove.
Qed.

Lemma find_contiguous_covariances_above (g g' : CovarianceMatrixGenerator)
    (s : nat) :
  find_contiguous_covariances g s = Ret g' ->
  off_diagonal_above g -> off_diagonal_above g'.
Proof.
  intros Hrun Habove.
  apply find_contiguous_covariances_Ret in Hrun as (b' & Hrun).
  apply find_contiguous_covariances_bfs_Ret in Hrun
    as (v & g1 & b1 & Hadd & _ & Hloop).
  destruct (add_covariance_for_indices_Ret _ _ _ _ _ Hadd)
    as ((_ & _ & _ & Hlim & _) & _).
  eapply (contiguous_loop_invariant (fun g0 _ => off_diagonal_above g0));
    [| | exact Hloop].
  - intros g3 b3 index b4 g4 b5 Hg3 _ Hbody.
    by eapply contiguous_body_above.
  - intros x y w. simpl. rewrite Hlim, lookup_insert.
    destruct (decide ((s, s) = (x, y))) as [Heq | _]; simpl.
    + inversion Heq; subst. intros _ Hne. contradiction.
    + apply Habove.
Qed.

Lemma non_contiguous_body_above (a b : nat)
    (g g' : CovarianceMatrixGenerator) :
  non_contiguous_body a g b = Ret g' ->
  off_diagonal_above g -> off_diagonal_above g'.
Proof.
  intros Hrun Habove.
  apply non_contiguous_body_Ret in Hrun
    as [[_ ->] | (_ & r & g1 & Hadd & Hcase)]; [done |].
  destruct (add_covariance_for_indices_Ret _ _ _ _ _ Hadd)
    as ((_ & _ & _ & Hlim & _) & Hnz & _).
  intros x y v.
  destruct Hcase as [[Hgt ->] | [_ ->]].
  - simpl. rewrite Hlim, lookup_insert.
    destruct (decide ((a, b) = (x, y))) as [_ | _]; simpl.
    + intros Hv _. inversion Hv; subst v. right. by apply Qgtb_true.
    + apply Habove.
  - rewrite Hlim, Hnz. apply Habove.
Qed.

Lemma run_generator_above (pms : list (gmap nat Q)) (noise : list Q)
    (gr : list (list nat)) (limit : Q) (g : CovarianceMatrixGenerator) :
  run_generator pms noise gr limit = Ret g -> off_diagonal_above g.
Proof.
  unfold run_generator. intros Hrun. inv_bind Hrun.
  assert (Hfirst : off_diagonal_above a).
  { revert Ha. unfold find_all_contiguous_covariances.
    apply (foldM_invariant off_diagonal_above).
    - intros g1 s g2 Hg1 _ Hfind.
      by eapply find_contiguous_covariances_above.
    - intros x y v. simpl. by rewrite lookup_empty. }
  revert Hfirst Hrun.
  unfold find_all_non_contiguous_covariances, non_contiguous_list.
  apply foldM_invariant. intros g0 l g1 Hg0 _. revert Hg0.
  apply foldM_invariant. intros g2 x g3 Hg2 _. revert Hg2.
  apply foldM_invariant. intros g4 y g5 Hg4 _ Hbody.
  by eapply non_contiguous_body_above.
Qed.

(** X6. Every entry of the returned map for two different pixels is
    strictly above the search limit or strictly positive; with a limit
    that is not negative, every such entry is strictly positive. *)
Theorem covariance_map_off_diagonal_positive (pms : list (gmap nat Q))
    (noise : list Q) (gr : list (list nat)) (limit : Q)
    (m : gmap (nat * nat) Q) (a b : nat) (v : Q) :
  create_covariance_matrix pms noise gr limit = Ret m ->
  m !! (a, b) = Some v -> a <> b ->
  (limit < v \/ 0 < v) /\ (0 <= limit -> 0 < v).
Proof.
  intros Hcreate Hab Hne.
  apply create_covariance_matrix_Ret in Hcreate as (g & Hrun & ->).
  pose proof (run_generator_above _ _ _ _ _ Hrun a b v Hab Hne) as Habove.
  pose proof (run_generator_same_inputs _ _ _ _ _ Hrun)
    as (_ & _ & _ & Hlim & _).
  rewrite Hlim in Habove. simpl in Habove. split; [done |].
  intros Hlimit. destruct Habove as [Hv | Hv]; [| done].
  by eapply Qle_lt_trans.
Qed.

Lemma covariance_map_off_diagonal_positive_witness :
  exists m,
    create_covariance_matrix
      [{[0%nat := 1]}; {[1%nat := 1]}; {[0%nat := 1; 1%nat := 1]}]
      [1; 1] line_graph 0 = Ret m
    /\ (0 < 1 \/ 0 < 1) /\ (0 <= 0 -> 0 < 1).
Proof.
  eexists. split; [vm_compute; reflexivity |].
  eapply (covariance_map_off_diagonal_positive
            [{[0%nat := 1]}; {[1%nat := 1]}; {[0%nat := 1; 1%nat := 1]}]
            [1; 1] line_graph 0 _ 2 0 1).
  - vm_compute. reflexivity.
  - vm_compute. reflexivity.
  - lia.
Defined.

(** ** The search stays within the graph *)

(** The state of the contiguous loop seeded at [s]: everything visited or
    queued is reachable from [s]. *)
Lemma contiguous_body_local (gr : list (list nat)) (s index : nat)
    (g g' : CovarianceMatrixGenerator) (b b1 b' : BreadthFirstSearch) :
  local_to_graph gr g /\ bfs_graph b = gr
  /\ (forall x, x ∈ visited b -> reachable gr s x)
  /\ (forall x, x ∈ queue b -> x ∈ visited b) ->
  next_neighbour b = Some (index, b1) ->
  contiguous_body s g index b1 = Ret (g', b') ->
  local_to_graph gr g' /\ bfs_graph b' = gr
  /\ (forall x, x ∈ visited b' -> reachable gr s x)
  /\ (forall x, x ∈ queue b' -> x ∈ visited b').
Proof.
  intros ((Hlists & Hpairs) & Hgr & Hvis & Hqueue) Hnext Hbody.
  apply next_neighbour_Some in Hnext as (Hq & Hgr1 & Hv1 & _).
  assert (Hindex : reachable gr s index).
  { apply Hvis, Hqueue. rewrite Hq. by left. }
  apply contiguous_body_Ret in Hbody as (r & g1 & Hadd & Hcase).
  destruct (add_covariance_for_indices_Ret _ _ _ _ _ Hadd)
    as (_ & Hnz & Hnl & _).
  destruct Hcase as [(_ & (l & Hl & ->) & Hadd') | (_ & -> & ->)].
  - destruct (add_neighbours_of_spec _ _ _ Hadd')
      as (nbrs & new & Hnbrs & Hq' & Hv' & Hnew & Hall).
    rewrite Hgr1, Hgr in Hnbrs.
    split; [split |].
    + intros s' l' x. simpl.
      destruct (decide (s' = s)) as [-> | Hne].
      * rewrite list_lookup_insert_eq by (by eapply lookup_lt_Some).
        intros Hl' Hx. inversion Hl'; subst l'.
        apply elem_of_app in Hx as [Hx | Hx]; [by eapply Hlists |].
        apply list_elem_of_singleton in Hx. by subst x.
      * rewrite list_lookup_insert_ne by done. apply Hlists.
    + intros x y. simpl. rewrite lookup_insert.
      destruct (decide ((s, index) = (x, y))) as [Heq | _]; simpl.
      * injection Heq as <- <-. intros _. exists s.
        split; [constructor | done].
      * apply Hpairs.
    + split.
      { apply add_neighbours_of_measure in Hadd' as [-> _]. congruence. }
      split.
      * intros x Hx. apply Hv' in Hx as [-> | [Hx | Hx]]; [done | |].
        -- apply Hvis. by rewrite <- Hv1.
        -- eapply reachable_step; [exact Hindex | exact Hnbrs | auto].
      * intros x. rewrite Hq', elem_of_app. intros [Hx | Hx]; apply Hv'.
        -- right. left. rewrite Hv1. apply Hqueue. rewrite Hq. by right.
        -- by right; right.
  - split; [split |].
    + intros s' l' x. rewrite Hnl. apply Hlists.
    + intros x y. rewrite Hnz. apply Hpairs.
    + split; [congruence |]. split.
      * intros x. rewrite Hv1. apply Hvis.
      * intros x Hx. rewrite Hv1. apply Hqueue. rewrite Hq. by right.
Qed.

Lemma find_contiguous_covariances_bfs_local (gr : list (list nat))
    (g g' : CovarianceMatrixGenerator) (s : nat) (b' : BreadthFirstSearch) :
  graph g = gr -> local_to_graph gr g ->
  find_contiguous_covariances_bfs g s = Ret (g', b') ->
  local_to_graph gr g' /\ forall x, x ∈ visited b' -> reachable gr s x.
Proof.
  intros Hgr [Hlists Hpairs] Hrun.
  apply find_contiguous_covariances_bfs_Ret in Hrun
    as (v & g1 & b1 & Hadd & Hseed & Hloop).
  destruct (add_covariance_for_indices_Ret _ _ _ _ _ Hadd)
    as (_ & _ & Hnl & _).
  rewrite Hgr in Hseed.
  destruct (add_neighbours_of_spec _ _ _ Hseed)
    as (nbrs & new & Hnbrs & Hq & Hv & Hnew & _).
  simpl in Hnbrs, Hq, Hv.
  destruct (contiguous_loop_invariant
              (fun g0 b0 =>
                 local_to_graph gr g0 /\ bfs_graph b0 = gr
                 /\ (forall x, x ∈ visited b0 -> reachable gr s x)
                 /\ (forall x, x ∈ queue b0 -> x ∈ visited b0)) s)
    with (fuel := bfs_fuel (graph g))
         (g := set_non_zero g1 (<[(s, s) := v]> (non_zero_covariances g)))
         (b := b1) (g' := g') (b' := b')
    as [(Hlocal & _ & Hvis & _) _]; [| | done | by split].
  - intros g3 b3 index b4 g4 b5 Hinv Hnext Hbody.
    by eapply contiguous_body_local.
  - split; [split |].
    + intros s' l x. simpl. rewrite Hnl. apply Hlists.
    + intros x y. simpl. rewrite lookup_insert.
      destruct (decide ((s, s) = (x, y))) as [Heq | _]; simpl.
      * injection Heq as <- <-. intros _. exists s. split; constructor.
      * apply Hpairs.
    + split.
      { apply add_neighbours_of_measure in Hseed as [-> _]. done. }
      split.
      * intros x Hx. apply Hv in Hx as [-> | [Hx | Hx]];
          [constructor | set_solver |].
        eapply reachable_step; [constructor | exact Hnbrs | auto].
      * intros x. rewrite Hq. simpl. intros Hx. apply Hv. by right; right.
Qed.

Lemma non_contiguous_body_local (gr : list (list nat)) (a b s : nat)
    (g g' : CovarianceMatrixGenerator) :
  reachable gr s a -> reachable gr s b ->
  non_contiguous_body a g b = Ret g' ->
  local_to_graph gr g ->
  local_to_graph gr g' /\ neighbour_lists g' = neighbour_lists g.
Proof.
  intros Ha Hb Hrun [Hlists Hpairs].
  apply non_contiguous_body_Ret in Hrun
    as [[_ ->] | (_ & r & g1 & Hadd & Hcase)]; [by split |].
  destruct (add_covariance_for_indices_Ret _ _ _ _ _ Hadd)
    as (_ & Hnz & Hnl & _).
  destruct Hcase as [[_ ->] | [_ ->]].
  - split; [split |]; simpl; [by rewrite Hnl | | done].
    intros x y. rewrite lookup_insert.
    destruct (decide ((a, b) = (x, y))) as [Heq | _]; simpl; [| apply Hpairs].
    injection Heq as <- <-. eauto.
  - split; [split |]; [by rewrite Hnl | by rewrite Hnz | done].
Qed.

Lemma run_generator_local (pms : list (gmap nat Q)) (noise : list Q)
    (gr : list (list nat)) (limit : Q) (g : CovarianceMatrixGenerator) :
  run_generator pms noise gr limit = Ret g -> local_to_graph gr g.
Proof.
  unfold run_generator. intros Hrun. inv_bind Hrun. rename a into g1.
  assert (Hfirst : local_to_graph gr g1 /\ graph g1 = gr).
  { revert Ha. unfold find_all_contiguous_covariances.
    apply (foldM_invariant (fun g0 => local_to_graph gr g0 /\ graph g0 = gr)).
    - intros g2 s g3 [Hloc Hgr] _ Hfind.
      pose proof (find_contiguous_covariances_same_inputs _ _ _ Hfind)
        as (_ & _ & Hgr3 & _).
      apply find_contiguous_covariances_Ret in Hfind as (b' & Hfind).
      split; [| congruence].
      by eapply find_contiguous_covariances_bfs_local.
    - split; [| done]. split.
      + intros s l x Hl Hx. simpl in Hl.
        apply lookup_replicate in Hl as [-> _]. by apply elem_of_nil in Hx.
      + intros a b [v Hv]. simpl in Hv. by rewrite lookup_empty in Hv. }
  destruct Hfirst as [Hloc1 _].
  assert (Hinv : local_to_graph gr g
                 /\ neighbour_lists g = neighbour_lists g1);
    [| by destruct Hinv].
  revert Hrun. unfold find_all_non_contiguous_covariances, non_contiguous_list.
  set (I := fun g0 => local_to_graph gr g0
                      /\ neighbour_lists g0 = neighbour_lists g1).
  apply (foldM_invariant I); [| by split].
  intros g2 l g3 Hg2 Hl. revert Hg2.
  apply list_elem_of_lookup in Hl as [s Hs].
  apply (foldM_invariant I). intros g4 a g5 Hg4 Ha'. revert Hg4.
  apply (foldM_invariant I). intros g6 b g7 [[Hlists Hpairs] Hnl6] Hb Hbody.
  destruct (non_contiguous_body_local gr a b s g6 g7) as [Hloc7 Hnl7];
    [| | done | by split | split; [done | congruence]].
  - eapply Hlists; [rewrite Hnl6; exact Hs | done].
  - eapply Hlists; [rewrite Hnl6; exact Hs | done].
Qed.

Lemma reachable_isolated (gr : list (list nat)) (s x : nat) :
  Forall (fun l => l = []) gr -> reachable gr s x -> x = s.
Proof.
  intros Hiso Hreach. induction Hreach as [| p x nb _ _ Hnb Hx]; [done |].
  eapply Forall_forall in Hiso; [| eapply list_elem_of_lookup_2, Hnb].
  subst nb. by apply elem_of_nil in Hx.
Qed.

(** X7. The two pixels of every entry of the returned map can be reached
    from one common pixel along the adjacency lists; over a graph with no
    edges the map holds diagonal entries only. *)
Theorem covariance_map_local (pms : list (gmap nat Q)) (noise : list Q)
    (gr : list (list nat)) (limit : Q) (m : gmap (nat * nat) Q)
    (a b : nat) :
  create_covariance_matrix pms noise gr limit = Ret m ->
  is_Some (m !! (a, b)) ->
  (exists s, reachable gr s a /\ reachable gr s b)
  /\ (Forall (fun l => l = []) gr -> a = b).
Proof.
  intros Hcreate Hab.
  apply create_covariance_matrix_Ret in Hcreate as (g & Hrun & ->).
  destruct (run_generator_local _ _ _ _ _ Hrun) as [_ Hpairs].
  destruct (Hpairs a b Hab) as (s & Ha & Hb). split; [eauto |].
  intros Hiso. apply (reachable_isolated _ _ _ Hiso) in Ha, Hb. congruence.
Qed.

Lemma covariance_map_local_witness :
  exists m,
    create_covariance_matrix
      [{[0%nat := 1]}; {[1%nat := 1]}; {[0%nat := 1; 1%nat := 1]}]
      [1; 1] line_graph 0 = Ret m
    /\ (exists s, reachable line_graph s 2 /\ reachable line_graph s 0)
    /\ (Forall (fun l => l = []) line_graph -> 2%nat = 0%nat).
Proof.
  eexists. split; [vm_compute; reflexivity |].
  eapply (covariance_map_local
            [{[0%nat := 1]}; {[1%nat := 1]}; {[0%nat := 1; 1%nat := 1]}]
            [1; 1] line_graph 0 _ 2 0).
  - vm_compute. reflexivity.
  - vm_compute. eauto.
Defined.

(** ** More on the breadth first search *)

Lemma foldl_enqueue_visited (nbrs : list nat) (b : BreadthFirstSearch) :
  (forall n, n ∈ nbrs -> n ∈ visited b) ->
  foldl enqueue_unvisited b nbrs = b.
Proof.
  induction nbrs as [| n nbrs IH]; intros Hvis; simpl; [done |].
  unfold enqueue_unvisited at 2.
  rewrite decide_True by (apply Hvis; by left).
  apply IH. intros k Hk. apply Hvis. by right.
Qed.

(** X8. Adding the neighbours of an index a second time changes nothing:
    they have all been visited, so none is enqueued again. *)
Theorem add_neighbours_of_again (index : nat) (b b1 : BreadthFirstSearch) :
  add_neighbours_of index b = Ret b1 ->
  add_neighbours_of index b1 = Ret b1.
Proof.
  intros Hadd.
  destruct (add_neighbours_of_spec _ _ _ Hadd)
    as (nbrs & new & Hnbrs & _ & Hv & _ & Hall).
  apply add_neighbours_of_measure in Hadd as [Hgr _].
  unfold add_neighbours_of. rewrite Hgr.
  rewrite (proj2 (getitem_Ret _ _ _) Hnbrs). simpl. f_equal.
  assert (Hsame : {[index]} ∪ visited b1 = visited b1).
  { apply set_eq. intros x. rewrite elem_of_union, elem_of_singleton.
    split; [intros [-> | Hx]; [apply Hv; by left | done] | by right]. }
  rewrite Hsame, <- Hgr. destruct b1 as [gr1 q1 v1]. simpl in *.
  by apply foldl_enqueue_visited.
Qed.

Lemma add_neighbours_of_again_witness :
  add_neighbours_of 1 (mkBFS line_graph [] {[0%nat; 1%nat; 2%nat]})
  = Ret (mkBFS line_graph [] {[0%nat; 1%nat; 2%nat]}).
Proof.
  apply (add_neighbours_of_again 1
           (mkBFS line_graph [] {[0%nat; 1%nat; 2%nat]})).
  vm_compute. reflexivity.
Defined.

Lemma contiguous_loop_reachable (gr : list (list nat)) (fuel s : nat)
    (g g' : CovarianceMatrixGenerator) (b b' : BreadthFirstSearch) :
  bfs_graph b = gr ->
  (forall x, x ∈ visited b -> reachable gr s x) ->
  (forall x, x ∈ queue b -> x ∈ visited b) ->
  contiguous_loop fuel s g b = Ret (g', b') ->
  forall x, x ∈ visited b' -> reachable gr s x.
Proof.
  intros Hgr Hvis Hqueue Hloop.
  destruct (contiguous_loop_invariant
              (fun _ b0 =>
                 bfs_graph b0 = gr
                 /\ (forall x, x ∈ visited b0 -> reachable gr s x)
                 /\ (forall x, x ∈ queue b0 -> x ∈ visited b0)) s)
    with (fuel := fuel) (g := g) (b := b) (g' := g') (b' := b')
    as [(_ & Hdone & _) _]; [| done | done | done].
  intros g3 b3 index b4 g4 b5 (Hgr3 & Hvis3 & Hq3) Hnext Hbody.
  apply next_neighbour_Some in Hnext as (Hq & Hgr4 & Hv4 & _).
  apply contiguous_body_bfs in Hbody as [-> | Hadd].
  - split; [congruence |]. split.
    + intros x. rewrite Hv4. apply Hvis3.
    + intros x Hx. rewrite Hv4. apply Hq3. rewrite Hq. by right.
  - destruct (add_neighbours_of_spec _ _ _ Hadd)
      as (nbrs & new & Hnbrs & Hq' & Hv' & Hnew & _).
    rewrite Hgr4, Hgr3 in Hnbrs.
    assert (Hindex : reachable gr s index).
    { apply Hvis3, Hq3. rewrite Hq. by left. }
    split; [apply add_neighbours_of_measure in Hadd as [-> _]; congruence |].
    split.
    + intros x Hx. apply Hv' in Hx as [-> | [Hx | Hx]]; [done | |].
      * apply Hvis3. by rewrite <- Hv4.
      * eapply reachable_step; [exact Hindex | exact Hnbrs | auto].
    + intros x. rewrite Hq', elem_of_app. intros [Hx | Hx]; apply Hv'.
      * right. left. rewrite Hv4. apply Hq3. rewrite Hq. by right.
      * by right; right.
Qed.

(** What a traversal leaves, in the terms of the invariant of its loop. *)
Lemma find_contiguous_covariances_bfs_inv (g g' : CovarianceMatrixGenerator)
    (s : nat) (l0 : list nat) (b' : BreadthFirstSearch) :
  find_contiguous_covariances_bfs g s = Ret (g', b') ->
  neighbour_lists g !! s = Some l0 ->
  exists g0 done acc,
    contiguous_inv g0 s l0 done acc g' b' /\ queue b' = []
    /\ same_inputs g g0
    /\ (forall x, x ∈ visited b' -> reachable (graph g) s x).
Proof.
  intros Hfind Hl0.
  apply find_contiguous_covariances_bfs_Ret in Hfind
    as (v & g1 & b1 & Hadd & Hseed & Hloop).
  destruct (add_covariance_for_indices_Ret _ _ _ _ _ Hadd)
    as (Hsame1 & Hnz1 & Hnl1 & _).
  pose proof Hsame1 as (_ & _ & Hgraph1 & _).
  set (g0 := set_non_zero g1 (<[(s, s) := v]> (non_zero_covariances g)))
    in Hloop.
  destruct (add_neighbours_of_spec _ _ _ Hseed)
    as (nbrs & new & Hnbrs & Hq & Hv & Hnew & Hall).
  simpl in Hnbrs, Hq, Hv.
  assert (Hinit : contiguous_inv g0 s l0 [] [] g0 b1).
  { split; [apply same_inputs_refl |].
    split; [simpl; rewrite Hgraph1; by apply seeded_invariant |].
    split; [simpl; by rewrite Hnl1, app_nil_r |].
    split; [intros x Hx; by apply elem_of_nil in Hx |].
    split; [intros x Hx; by apply elem_of_nil in Hx |].
    split; [done |].
    split.
    { intros x Hx. apply Hv in Hx. simpl. rewrite Hq.
      destruct Hx as [-> | [Hx | Hx]]; [by left | set_solver | by right]. }
    split.
    { intros x Hx. simpl in Hx. rewrite Hq in Hx. left. exists nbrs.
      simpl. rewrite Hgraph1. auto. }
    intros p nb [-> | Hp] Hnb n Hn; [| by apply elem_of_nil in Hp].
    simpl in Hnb. rewrite Hgraph1, Hnbrs in Hnb. inversion Hnb; subst nb.
    auto. }
  destruct (contiguous_loop_inv _ _ _ _ _ _ _ _ _ _ Hinit Hloop)
    as (done & acc & Hinv & Hqueue).
  exists g0, done, acc. split; [done |]. split; [done |].
  split; [done |].
  eapply contiguous_loop_reachable; [| | | exact Hloop].
  - apply add_neighbours_of_measure in Hseed as [-> _]. done.
  - intros x Hx. apply Hv in Hx as [-> | [Hx | Hx]];
      [constructor | set_solver |].
    eapply reachable_step; [constructor | exact Hnbrs | auto].
  - intros x. rewrite Hq. simpl. intros Hx. apply Hv. by right; right.
Qed.

(** X9. A traversal visits only pixels that can be reached from its seed.
    When every candidate passes the threshold it visits exactly those
    pixels, and appends each of them except the seed to the neighbour list
    of the seed. *)
Theorem contiguous_search_complete (g g' : CovarianceMatrixGenerator)
    (s : nat) (l0 : list nat) (b' : BreadthFirstSearch) :
  find_contiguous_covariances_bfs g s = Ret (g', b') ->
  neighbour_lists g !! s = Some l0 ->
  (forall x, x ∈ visited b' -> reachable (graph g) s x)
  /\ ((forall x r, x <> s -> calculated_covariances g' !! (s, x) = Some r ->
                   neighbour_search_limit g < r) ->
      exists acc,
        neighbour_lists g' !! s = Some (l0 ++ acc)
        /\ (forall x, x ∈ acc <-> reachable (graph g) s x /\ x <> s)
        /\ (forall x, x ∈ visited b' <-> reachable (graph g) s x)).
Proof.
  intros Hfind Hl0.
  destruct (find_contiguous_covariances_bfs_inv _ _ _ _ _ Hfind Hl0)
    as (g0 & done & acc & Hinv & Hqueue & Hsame & Hsound).
  split; [done |]. intros Hpass.
  destruct Hinv
    as (_ & Hbfs & Hnl & Hsub & Hdone & _ & Hvis & _ & Hexp).
  destruct Hbfs as (_ & Hseedv & _ & Hin).
  pose proof Hsame as (_ & _ & Hgraph & Hlim & _).
  rewrite Hqueue, app_nil_r in Hin, Hvis. rewrite Hgraph in Hexp.
  assert (Hacc : forall x, x ∈ done -> x ∈ acc).
  { intros x Hx. destruct (Hdone x Hx) as (r & Hr & Hiff & _).
    apply Hiff. rewrite Hlim. apply Qgtb_true. apply (Hpass x r); [| done].
    by apply Hin in Hx as (_ & Hne & _). }
  assert (Hclosed : forall x, reachable (graph g) s x -> x ∈ visited b').
  { intros x Hreach. induction Hreach as [| p x nb _ IH Hnb Hx]; [done |].
    eapply Hexp; [| exact Hnb | exact Hx].
    apply Hvis in IH as [-> | Hp]; [by left | right; auto]. }
  exists acc. split; [done |]. split; [| intros x; split; auto].
  intros x. split.
  - intros Hx. apply Hsub, Hin in Hx as (Hx & Hne & _). auto.
  - intros [Hreach Hne]. apply Hclosed, Hvis in Hreach as [-> | Hx];
      [done | auto].
Qed.

Lemma contiguous_search_complete_witness :
  let g := generator_init
             [{[0%nat := 1]}; {[0%nat := 1]}; {[0%nat := 1]}]
             [1] line_graph 0 in
  exists g' b',
    find_contiguous_covariances_bfs g 0 = Ret (g', b')
    /\ (forall x, x ∈ visited b' -> reachable (graph g) 0 x)
    /\ ((forall x r, x <> 0%nat ->
           calculated_covariances g' !! (0%nat, x) = Some r ->
           neighbour_search_limit g < r) ->
        exists acc,
          neighbour_lists g' !! 0%nat = Some ([] ++ acc)
          /\ (forall x, x ∈ acc <-> reachable (graph g) 0 x /\ x <> 0%nat)
          /\ (forall x, x ∈ visited b' <-> reachable (graph g) 0 x)).
Proof.
  intros g. eexists _, _. split; [vm_compute; reflexivity |].
  eapply (contiguous_search_complete g _ 0 []).
  - vm_compute. reflexivity.
  - reflexivity.
Defined.

(** X10. The traversal seeded at [s] leaves the neighbour lists of all
    other pixels, and the entries of the map whose first index is another
    pixel, as they were. *)
Theorem find_contiguous_covariances_frame (g g' : CovarianceMatrixGenerator)
    (s : nat) :
  find_contiguous_covariances g s = Ret g' ->
  length (neighbour_lists g') = length (neighbour_lists g)
  /\ (forall t, t <> s -> neighbour_lists g' !! t = neighbour_lists g !! t)
  /\ (forall a x, a <> s ->
        non_zero_covariances g' !! (a, x) = non_zero_covariances g !! (a, x)).
Proof.
  intros Hrun. apply find_contiguous_covariances_Ret in Hrun as (b' & Hrun).
  apply find_contiguous_covariances_bfs_Ret in Hrun
    as (v & g1 & b1 & Hadd & _ & Hloop).
  destruct (add_covariance_for_indices_Ret _ _ _ _ _ Hadd)
    as (_ & _ & Hnl1 & _).
  set (I := fun g0 (_ : BreadthFirstSearch) =>
    length (neighbour_lists g0) = length (neighbour_lists g)
    /\ (forall t, t <> s -> neighbour_lists g0 !! t = neighbour_lists g !! t)
    /\ (forall a x, a <> s ->
          non_zero_covariances g0 !! (a, x)
          = non_zero_covariances g !! (a, x))).
  destruct (contiguous_loop_invariant I s) with
    (fuel := bfs_fuel (graph g))
    (g := set_non_zero g1 (<[(s, s) := v]> (non_zero_covariances g)))
    (b := b1) (g' := g') (b' := b') as [Hinv _]; [| | done | done].
  - intros g3 b3 index b4 g4 b5 (Hlen & Hlists & Hmap) _ Hbody.
    apply contiguous_body_Ret in Hbody as (r & g5 & Hadd5 & Hcase).
    destruct (add_covariance_for_indices_Ret _ _ _ _ _ Hadd5)
      as (_ & Hnz5 & Hnl5 & _).
    destruct Hcase as [(_ & (l & _ & ->) & _) | (_ & -> & _)].
    + split; [simpl; by rewrite length_insert |]. split.
      * intros t Ht. simpl. rewrite list_lookup_insert_ne by done. auto.
      * intros a x Ha. simpl. rewrite lookup_insert_ne by congruence. auto.
    + split; [by rewrite Hnl5 |].
      split; [intros t Ht; rewrite Hnl5; auto |].
      intros a x Ha. rewrite Hnz5. auto.
  - split; [simpl; by rewrite Hnl1 |].
    split; [intros t Ht; simpl; by rewrite Hnl1 |].
    intros a x Ha. simpl. by rewrite lookup_insert_ne by congruence.
Qed.

Lemma find_contiguous_covariances_frame_witness :
  let g := generator_init
             [{[0%nat := 1]}; {[0%nat := 1]}; {[0%nat := 1]}]
             [1] line_graph 0 in
  exists g',
    find_contiguous_covariances g 0 = Ret g'
    /\ length (neighbour_lists g') = length (neighbour_lists g)
    /\ (forall t, t <> 0%nat ->
          neighbour_lists g' !! t = neighbour_lists g !! t)
    /\ (forall a x, a <> 0%nat ->
          non_zero_covariances g' !! (a, x)
          = non_zero_covariances g !! (a, x)).
Proof.
  intros g. eexists. split; [vm_compute; reflexivity |].
  eapply (find_contiguous_covariances_frame g _ 0).
  vm_compute. reflexivity.
Defined.

(** ** More on create_mapping_matrix *)

Lemma getitem_None {A : Type} (l : list A) (i : nat) :
  l !! i = None -> getitem l i = Raise IndexError.
Proof. unfold getitem. by intros ->. Qed.

(** The mapping loop after [n] turns: either every sub-sample so far was
    in range and the rows hold a key exactly for the pairs that occurred,
    or the loop has raised [IndexError]. *)
Lemma mapping_matrix_loop_cases (N : nat) (frac : Q) (src img : list nat)
    (n : nat) :
  (exists f,
     foldM (mapping_matrix_step frac src img) (replicate N ∅) (seq 0 n) = Ret f
     /\ length f = N
     /\ assignments_in_range N src img n
     /\ forall r row o, f !! r = Some row ->
          (is_Some (row !! o) <-> (0 < hits src img r o n)%nat))
  \/ (foldM (mapping_matrix_step frac src img) (replicate N ∅) (seq 0 n)
      = Raise IndexError
      /\ ~ assignments_in_range N src img n).
Proof.
  induction n as [| n IH].
  - left. exists (replicate N ∅). split; [done |].
    split; [apply length_replicate |]. split; [intros k Hk; lia |].
    intros r row o Hrow. apply lookup_replicate in Hrow as [-> _].
    rewrite lookup_empty. unfold hits. simpl. split; [by intros [? ?] | lia].
  - rewrite seq_0_S, foldM_snoc.
    destruct IH as [(f & -> & Hlen & Hrange & Hkeys) | [-> Hbad]].
    2:{ right. split; [done |]. intros Hrange. apply Hbad.
        intros k Hk. apply Hrange. lia. }
    rewrite bind_Ret. unfold mapping_matrix_step.
    assert (Hfail : forall P : Prop,
              (forall r o, src !! n = Some r -> img !! n = Some o ->
                           (r < N)%nat -> P) ->
              assignments_in_range N src img (S n) -> P).
    { intros P HP Hall. destruct (Hall n) as (r & o & ? & ? & ?); [lia |].
      eauto. }
    destruct (img !! n) as [o' |] eqn:Ho'.
    2:{ right. rewrite (getitem_None _ _ Ho'). split; [done |].
        intros Hall. apply (Hfail False); [| done]. intros; discriminate. }
    rewrite (proj2 (getitem_Ret _ _ _) Ho'). simpl.
    destruct (src !! n) as [r' |] eqn:Hr'.
    2:{ right. rewrite (getitem_None _ _ Hr'). split; [done |].
        intros Hall. apply (Hfail False); [| done]. intros; discriminate. }
    rewrite (proj2 (getitem_Ret _ _ _) Hr'). simpl.
    destruct (f !! r') as [row' |] eqn:Hrow'.
    2:{ right. rewrite (getitem_None _ _ Hrow'). split; [done |].
        intros Hall. apply (Hfail False); [| done].
        intros r o Hr Ho Hlt. inversion Hr; subst r.
        apply lookup_ge_None in Hrow'. lia. }
    rewrite (proj2 (getitem_Ret _ _ _) Hrow'). simpl.
    assert (Hr'N : (r' < N)%nat).
    { apply lookup_lt_Some in Hrow'. lia. }
    assert (Hstep : forall x,
      length (<[r' := <[o' := x]> row']> f) = N
      /\ assignments_in_range N src img (S n)
      /\ forall r row o, <[r' := <[o' := x]> row']> f !! r = Some row ->
           (is_Some (row !! o) <-> (0 < hits src img r o (S n))%nat)).
    { intros x. split; [by rewrite length_insert |]. split.
      - intros k Hk. destruct (decide (k = n)) as [-> | Hne]; [eauto |].
        apply Hrange. lia.
      - intros r row o. rewrite hits_S.
        destruct (decide (r = r')) as [-> | Hr].
        + rewrite list_lookup_insert_eq by lia. intros Hrow.
          inversion Hrow; subst row. rewrite lookup_insert.
          destruct (decide (o' = o)) as [-> | Ho].
          * rewrite decide_True by done. simpl. split; [lia | eauto].
          * rewrite decide_False by (intros [_ ?]; congruence).
            rewrite Nat.add_0_r. by apply Hkeys.
        + rewrite list_lookup_insert_ne by done. intros Hrow.
          rewrite decide_False by (intros [? _]; congruence).
          rewrite Nat.add_0_r. by apply Hkeys. }
    left. destruct (row' !! o'); eexists; (split; [reflexivity | apply Hstep]).
Qed.

(** X11. The outcomes of [create_mapping_matrix].  A zero sub-grid size
    raises [ZeroDivisionError].  For a positive one the function returns
    exactly when the two assignment arrays cover every sub-sample and
    assign reconstruction pixels below [source_pixel_total], and raises
    [IndexError] otherwise.  A row it returns holds a key for an
    observation pixel exactly when a sub-sample was assigned to that
    pair. *)
Theorem create_mapping_matrix_returns (N P S : nat) (src img : list nat) :
  (S = 0%nat
   /\ create_mapping_matrix N P S src img = Raise ZeroDivisionError)
  \/ ((0 < S)%nat
      /\ assignments_in_range N src img (P * S ^ 2)
      /\ exists f,
           create_mapping_matrix N P S src img = Ret f /\ length f = N
           /\ forall r row o, f !! r = Some row ->
                (is_Some (row !! o)
                 <-> (0 < hits src img r o (P * S ^ 2))%nat))
  \/ ((0 < S)%nat
      /\ ~ assignments_in_range N src img (P * S ^ 2)
      /\ create_mapping_matrix N P S src img = Raise IndexError).
Proof.
  destruct S as [| S']; [by left |]. right.
  assert (HS : (0 < S S')%nat) by lia. revert HS.
  generalize (S S') as S. intros S HS.
  unfold create_mapping_matrix.
  rewrite truediv_nonzero by (by apply nat_to_Q_pos).
  rewrite bind_Ret. cbv zeta.
  destruct (mapping_matrix_loop_cases N ((1 / nat_to_Q S) ^ 2) src img
              (P * S ^ 2))
    as [(f & Hrun & Hlen & Hrange & Hkeys) | [Hrun Hbad]].
  - left. split; [done |]. split; [done |]. exists f. by rewrite Hrun.
  - right. split; [done |]. split; [done |]. by rewrite Hrun.
Qed.

Lemma sum_list_zero {A : Type} (g : A -> nat) (l : list A) :
  (forall x, x ∈ l -> g x = 0%nat) -> sum_list (map g l) = 0%nat.
Proof.
  induction l as [| x l IH]; intros Hz; [done |]. simpl.
  rewrite (Hz x) by (by left).
  rewrite IH; [done |]. intros y Hy. apply Hz. by right.
Qed.

Lemma sum_list_map_add {A : Type} (g h : A -> nat) (l : list A) :
  sum_list (map (fun x => (g x + h x)%nat) l)
  = (sum_list (map g l) + sum_list (map h l))%nat.
Proof. induction l as [| x l IH]; simpl; lia. Qed.

Lemma sum_list_snoc (l : list nat) (x : nat) :
  sum_list (l ++ [x]) = (sum_list l + x)%nat.
Proof. induction l as [| y l IH]; simpl; lia. Qed.

Lemma sum_list_single (g : nat -> nat) (r0 N : nat) :
  (r0 < N)%nat -> (forall r, r <> r0 -> g r = 0%nat) ->
  sum_list (map g (seq 0 N)) = g r0.
Proof.
  intros Hr0 Hz. induction N as [| N IH]; [lia |].
  rewrite seq_0_S, map_app. simpl map. rewrite sum_list_snoc.
  destruct (decide (N = r0)) as [-> | Hne].
  - rewrite sum_list_zero; [lia |].
    intros r Hr. apply Hz. apply elem_of_seq in Hr. lia.
  - rewrite IH by lia. rewrite (Hz N) by done. lia.
Qed.

Lemma column_hits_S (img : list nat) (o n : nat) :
  column_hits img o (S n) =
  (column_hits img o n + (if decide (img !! n = Some o) then 1 else 0))%nat.
Proof.
  unfold column_hits. rewrite seq_S, filter_app, length_app. simpl.
  rewrite filter_cons, filter_nil. by destruct (decide _).
Qed.

(** Every sub-sample is counted for exactly one reconstruction pixel. *)
Lemma hits_column_sum (N : nat) (src img : list nat) (o n : nat) :
  (n <= length src)%nat ->
  (forall k r, (k < n)%nat -> src !! k = Some r -> (r < N)%nat) ->
  sum_list (map (fun r => hits src img r o n) (seq 0 N)) = column_hits img o n.
Proof.
  induction n as [| n IH]; intros Hsrc Hrange.
  - apply sum_list_zero. done.
  - rewrite (map_ext _
               (fun r => (hits src img r o n +
                          (if decide (src !! n = Some r /\ img !! n = Some o)
                           then 1 else 0))%nat))
      by (intros r; apply hits_S).
    rewrite sum_list_map_add, column_hits_S.
    rewrite IH; [| lia | intros k r Hk; apply Hrange; lia].
    f_equal.
    destruct (lookup_lt_is_Some_2 src n) as [r0 Hr0]; [lia |].
    rewrite (sum_list_single _ r0 N).
    + destruct (decide (img !! n = Some o)) as [Ho | Ho].
      * by rewrite decide_True.
      * rewrite decide_False; [done | by intros [_ ?]].
    + apply (Hrange n); [lia | done].
    + intros r Hr. rewrite decide_False; [done |].
      intros [Heq _]. congruence.
Qed.

Lemma nat_to_Q_add (a b : nat) : nat_to_Q (a + b) == nat_to_Q a + nat_to_Q b.
Proof. unfold nat_to_Q. by rewrite Nat2Z.inj_add, inject_Z_plus. Qed.

Lemma Qsum_map_ext {A : Type} (g h : A -> Q) (l : list A) :
  (forall x, g x == h x) -> Qsum (map g l) == Qsum (map h l).
Proof.
  intros Hgh. induction l as [| x l IH]; [done |]. simpl map.
  by rewrite !Qsum_cons, IH, Hgh.
Qed.

Lemma Qsum_map_scaled_counts {A : Type} (c : Q) (g : A -> nat) (l : list A) :
  Qsum (map (fun x => c * nat_to_Q (g x)) l)
  == c * nat_to_Q (sum_list (map g l)).
Proof.
  induction l as [| x l IH].
  - simpl. rewrite Qsum_nil. unfold nat_to_Q. simpl. ring.
  - simpl map. rewrite Qsum_cons, IH. simpl sum_list.
    rewrite nat_to_Q_add. ring.
Qed.

(** X12. Under the same conditions on the assignment arrays as the
    entry formula, the column of an observation pixel sums, over all
    reconstruction pixels, to the number of its sub-samples divided by
    [sub_grid_size ** 2]; with [sub_grid_size ** 2] sub-samples the column
    sums to one. *)
Theorem create_mapping_matrix_columns (N P S : nat) (src img : list nat)
    (o : nat) :
  (0 < S)%nat ->
  (P * S ^ 2 <= length src)%nat -> (P * S ^ 2 <= length img)%nat ->
  (forall k r, (k < P * S ^ 2)%nat -> src !! k = Some r -> (r < N)%nat) ->
  exists f,
    create_mapping_matrix N P S src img = Ret f
    /\ Qsum (map (fun r => entry f r o) (seq 0 N))
       == nat_to_Q (column_hits img o (P * S ^ 2)) / nat_to_Q S ^ 2
    /\ (column_hits img o (P * S ^ 2) = (S ^ 2)%nat ->
        Qsum (map (fun r => entry f r o) (seq 0 N)) == 1).
Proof.
  intros HS Hsrc Himg Hrange.
  pose proof (nat_to_Q_pos S HS) as HSq.
  assert (Hsum : forall f,
    (forall r o, entry f r o
       == (1 / nat_to_Q S) ^ 2 * nat_to_Q (hits src img r o (P * S ^ 2))) ->
    Qsum (map (fun r => entry f r o) (seq 0 N))
    == nat_to_Q (column_hits img o (P * S ^ 2)) / nat_to_Q S ^ 2).
  { intros f Hentry.
    rewrite (Qsum_map_ext _
               (fun r => (1 / nat_to_Q S) ^ 2
                         * nat_to_Q (hits src img r o (P * S ^ 2))))
      by (intros r; apply Hentry).
    rewrite Qsum_map_scaled_counts, hits_column_sum by done.
    simpl. field. exact HSq. }
  unfold create_mapping_matrix.
  rewrite truediv_nonzero by done. rewrite bind_Ret. cbv zeta.
  destruct (mapping_matrix_loop N ((1 / nat_to_Q S) ^ 2) src img (P * S ^ 2))
    as (f & Hrun & Hlen & Hentry); [done | done | done |].
  exists f. split; [exact Hrun |]. split; [by apply Hsum |].
  intros Hfull. rewrite (Hsum f Hentry), Hfull.
  assert (Hpow : nat_to_Q (S ^ 2) == nat_to_Q S ^ 2).
  { unfold nat_to_Q. rewrite Nat2Z.inj_pow. simpl Z.of_nat.
    rewrite Z.pow_2_r, inject_Z_mult. simpl. ring. }
  rewrite Hpow. field. exact HSq.
Qed.

(** Two observation pixels with four sub-samples each, spread over three
    reconstruction pixels. *)
Lemma create_mapping_matrix_columns_witness :
  exists f,
    create_mapping_matrix 3 2 2 [0; 1; 1; 2; 2; 2; 0; 1]%nat
                                [0; 0; 0; 0; 1; 1; 1; 1]%nat = Ret f
    /\ Qsum (map (fun r => entry f r 1) (seq 0 3)) == 1.
Proof.
  destruct (create_mapping_matrix_columns 3 2 2
              [0; 1; 1; 2; 2; 2; 0; 1]%nat [0; 0; 0; 0; 1; 1; 1; 1]%nat 1)
    as (f & Hrun & _ & Hone).
  - lia.
  - simpl. lia.
  - simpl. lia.
  - intros k r Hk Hr. simpl in Hk.
    do 8 (destruct k as [| k]; [inversion Hr; subst; lia |]). lia.
  - exists f. split; [exact Hrun |]. apply Hone. reflexivity.
Defined.

(** ** More on create_d_matrix *)

Lemma comprehension_Forall2 {A B : Type} (f : A -> result B) (xs : list A)
    (ys : list B) :
  comprehension f xs = Ret ys <-> Forall2 (fun x y => f x = Ret y) xs ys.
Proof.
  split; [apply comprehension_Ret_inv |].
  induction 1 as [| x y xs ys Hx _ IH]; simpl; [done |].
  by rewrite Hx, bind_Ret, IH.
Qed.

(** One turn of the loop of [value_for_pixel_map] at a key of the map. *)
Lemma value_for_pixel_map_turn (noise image : list Q) (pm : gmap nat Q)
    (k : nat) (value v : Q) :
  is_Some (pm !! k) ->
  (img ← getitem image k; w ← dict_getitem pm k; n ← getitem noise k;
   t ← floordiv (img * w) n; Ret (value + t)) = Ret v
  <-> (exists i n, image !! k = Some i /\ noise !! k = Some n /\ ~ n == 0)
      /\ v = value + d_floor_term pm noise image k.
Proof.
  intros [w Hw]. unfold d_floor_term, at0. rewrite Hw.
  rewrite (proj2 (dict_getitem_Ret _ _ _) Hw).
  destruct (image !! k) as [i |] eqn:Hi.
  2:{ rewrite (getitem_None _ _ Hi). split; [discriminate |].
      by intros [(? & ? & ? & _) _]. }
  rewrite (proj2 (getitem_Ret _ _ _) Hi), !bind_Ret.
  destruct (noise !! k) as [n |] eqn:Hn.
  2:{ rewrite (getitem_None _ _ Hn). split; [discriminate |].
      by intros [(? & ? & _ & ? & _) _]. }
  rewrite (proj2 (getitem_Ret _ _ _) Hn), bind_Ret. simpl default.
  split.
  - intros Hrun. inv_bind Hrun. apply floordiv_Ret in Ha as [Hnz ->].
    inversion Hrun; subst. split; [| done]. by exists i, n.
  - intros [(i' & n' & Hi' & Hn' & Hnz) ->]. inversion Hn'; subst n'.
    by rewrite floordiv_nonzero, bind_Ret.
Qed.

Lemma value_for_pixel_map_loop (noise image : list Q) (pm : gmap nat Q)
    (ks : list nat) (acc v : Q) :
  (forall k, k ∈ ks -> is_Some (pm !! k)) ->
  foldM (fun value index =>
           img ← getitem image index;
           w ← dict_getitem pm index;
           n ← getitem noise index;
           t ← floordiv (img * w) n;
           Ret (value + t)) acc ks = Ret v
  <-> (forall k, k ∈ ks ->
         exists i n, image !! k = Some i /\ noise !! k = Some n /\ ~ n == 0)
      /\ v = foldl Qplus acc (map (d_floor_term pm noise image) ks).
Proof.
  revert acc. induction ks as [| k ks IH]; intros acc Hks.
  - simpl. split.
    + intros Hrun. inversion Hrun; subst. split; [| done].
      intros k Hk. by apply elem_of_nil in Hk.
    + by intros [_ ->].
  - simpl foldM. simpl map. simpl foldl.
    assert (Hk : is_Some (pm !! k)) by (apply Hks; by left).
    assert (Hks' : forall k', k' ∈ ks -> is_Some (pm !! k'))
      by (intros; apply Hks; by right).
    split.
    + intros Hrun. inv_bind Hrun.
      apply (value_for_pixel_map_turn _ _ _ _ _ _ Hk) in Ha as [Hok ->].
      apply (IH _ Hks') in Hrun as [Hrest ->]. split; [| done].
      intros k' Hk'. apply elem_of_cons in Hk' as [-> | Hk']; auto.
    + intros [Hall ->].
      rewrite (proj2 (value_for_pixel_map_turn noise image pm k acc _ Hk)
                 (conj (Hall k ltac:(by left)) eq_refl)).
      rewrite bind_Ret. apply (IH _ Hks'). split; [| done].
      intros k' Hk'. apply Hall. by right.
Qed.

(** X13. [create_d_matrix] returns exactly when the image and noise
    vectors hold a value, the noise one non-zero, at every key of every
    pixel map; element [i] of the result is then the sum over the keys of
    map [i] of the floored quotients
    [image_vector[o] * pixel_map[o] // noise_vector[o]]. *)
Theorem create_d_matrix_returns (pixel_maps : list (gmap nat Q))
    (noise_vector image_vector d : list Q) :
  create_d_matrix pixel_maps noise_vector image_vector = Ret d
  <-> Forall2 (fun pixel_map value =>
        (forall o, o ∈ keys pixel_map ->
           exists i n, image_vector !! o = Some i
                       /\ noise_vector !! o = Some n /\ ~ n == 0)
        /\ value = Qsum (map (d_floor_term pixel_map noise_vector image_vector)
                             (keys pixel_map)))
      pixel_maps d.
Proof.
  unfold create_d_matrix. rewrite comprehension_Forall2.
  split; intros Hall; eapply Forall2_impl; try exact Hall;
    intros pm v; unfold value_for_pixel_map;
    apply value_for_pixel_map_loop;
    intros k Hk; apply keys_lookup in Hk as [w Hw]; eauto.
Qed.

(** ** The reconstructed data vector *)

Section ReconstructedDataVector.
Variables (m : ndarray2) (x : list Q).
Hypothesis Hwf : array_wf m.
Hypothesis Hx : (length x <= shape1 m)%nat.

(** The inner loop over [j], for image pixel [i], after [j] turns. *)
Lemma reconstructed_inner (i : nat) (r : list Q) (j : nat) :
  (i < shape0 m)%nat -> length r = shape0 m -> (j <= length x)%nat ->
  exists r',
    foldM (fun reconstructed_data_vector j =>
             old ← getitem reconstructed_data_vector i;
             xj ← getitem x j;
             mij ← mget m i j;
             setitem reconstructed_data_vector i (old + xj * mij))
          r (seq 0 j) = Ret r'
    /\ length r' = shape0 m
    /\ forall k, at0 r' k ==
         at0 r k + (if decide (k = i)
                    then Qsum (map (fun j => at0 x j * cell m i j) (seq 0 j))
                    else 0).
Proof.
  intros Hi Hlen. induction j as [| j IH]; intros Hj.
  - exists r. split; [done |]. split; [done |]. intros k.
    destruct (decide (k = i)); simpl; rewrite ?Qsum_nil; ring.
  - destruct IH as (r1 & Hrun & Hlen1 & Hval); [lia |].
    rewrite seq_0_S, foldM_snoc, Hrun, bind_Ret.
    destruct (getitem_lt r1 i) as (old & -> & Hold); [lia |].
    destruct (getitem_lt x j) as (xj & -> & Hxj); [lia |].
    rewrite !bind_Ret, mget_cell by (done || lia).
    rewrite bind_Ret, setitem_lt by lia.
    eexists. split; [done |]. split; [by rewrite length_insert |].
    intros k. rewrite at0_insert by lia.
    destruct (decide (k = i)) as [-> | Hne].
    + rewrite map_app. simpl map. rewrite Qsum_snoc.
      specialize (Hval i). rewrite decide_True in Hval by done.
      rewrite <- (at0_lookup _ _ _ Hold), Hval, (at0_lookup _ _ _ Hxj). ring.
    + specialize (Hval k). by rewrite decide_False in Hval by done.
Qed.

(** The outer loop over [i], after [i] turns. *)
Lemma reconstructed_outer (i : nat) :
  (i <= shape0 m)%nat ->
  exists r,
    foldM (fun reconstructed_data_vector i =>
      foldM (fun reconstructed_data_vector j =>
               old ← getitem reconstructed_data_vector i;
               xj ← getitem x j;
               mij ← mget m i j;
               setitem reconstructed_data_vector i (old + xj * mij))
            reconstructed_data_vector (seq 0 (length x)))
      (replicate (shape0 m) 0) (seq 0 i) = Ret r
    /\ length r = shape0 m
    /\ forall k, at0 r k ==
         if decide (k < i)%nat
         then Qsum (map (fun j => at0 x j * cell m k j) (seq 0 (length x)))
         else 0.
Proof.
  induction i as [| i IH]; intros Hi.
  - eexists. split; [done |]. split; [apply length_replicate |].
    intros k. rewrite decide_False by lia. unfold at0.
    destruct (replicate (shape0 m) 0 !! k) as [z |] eqn:Hz; [| done].
    apply lookup_replicate in Hz as [-> _]. done.
  - destruct IH as (r & Hrun & Hlen & Hval); [lia |].
    rewrite seq_0_S, foldM_snoc, Hrun, bind_Ret.
    destruct (reconstructed_inner i r (length x)) as (r' & -> & Hlen' & Hval');
      [lia | done | lia |].
    exists r'. split; [done |]. split; [done |]. intros k.
    rewrite Hval', Hval.
    destruct (decide (k = i)) as [-> | Hne].
    + rewrite decide_False, decide_True by lia. ring.
    + destruct (decide (k < i)%nat), (decide (k < S i)%nat); try lia; ring.
Qed.
End ReconstructedDataVector.

(** X14. For an inversion whose blurred mapping matrix has the shape it
    records and at least as many columns as the solution vector has
    entries, [reconstructed_data_vector] returns one value per image
    pixel, and the value of image pixel [i] is the sum over [j] of
    [solution_vector[j] * blurred_mapping_matrix[i, j]]. *)
Theorem reconstructed_data_vector_is_product (inv : Inversion) :
  array_wf (blurred_mapping_matrix inv) ->
  (length (solution_vector inv) <= shape1 (blurred_mapping_matrix inv))%nat ->
  exists r,
    reconstructed_data_vector inv = Ret r
    /\ length r = shape0 (blurred_mapping_matrix inv)
    /\ forall i, (i < shape0 (blurred_mapping_matrix inv))%nat ->
         at0 r i ==
         Qsum (map (fun j => at0 (solution_vector inv) j
                             * cell (blurred_mapping_matrix inv) i j)
                   (seq 0 (length (solution_vector inv)))).
Proof.
  intros Hwf Hx.
  destruct (reconstructed_outer (blurred_mapping_matrix inv)
              (solution_vector inv) Hwf Hx
              (shape0 (blurred_mapping_matrix inv)))
    as (r & Hrun & Hlen & Hval); [lia |].
  exists r. split; [exact Hrun |]. split; [exact Hlen |].
  intros i Hi. by rewrite Hval, decide_True.
Qed.

(** A 2x2 mapping matrix and the solution [[1, 1]]: the reconstructed
    vector holds the row sums. *)
Lemma reconstructed_data_vector_is_product_witness :
  exists r,
    reconstructed_data_vector
      (mkInversion (array_of [[1; 2]; [3; 4]]) (np_zeros2 2 2) (np_zeros2 2 2)
                   (np_zeros2 2 2) [1; 1]) = Ret r
    /\ length r = 2%nat
    /\ at0 r 1 == 7.
Proof.
  destruct (reconstructed_data_vector_is_product
              (mkInversion (array_of [[1; 2]; [3; 4]]) (np_zeros2 2 2)
                           (np_zeros2 2 2) (np_zeros2 2 2) [1; 1]))
    as (r & Hrun & Hlen & Hval).
  - split; [reflexivity |]. repeat constructor.
  - simpl. lia.
  - exists r. split; [exact Hrun |]. split; [exact Hlen |].
    rewrite Hval by (simpl; lia). vm_compute. reflexivity.
Defined.

(** ** The curvature matrix *)

Lemma mset_cell (c : ndarray2) (i j : nat) (x : Q) :
  array_wf c -> (i < shape0 c)%nat -> (j < shape1 c)%nat ->
  exists c',
    mset c i j x = Ret c'
    /\ array_wf c' /\ shape0 c' = shape0 c /\ shape1 c' = shape1 c
    /\ forall a b, cell c' a b
                   = if decide (a = i /\ b = j) then x else cell c a b.
Proof.
  intros [Hrows Hcols] Hi Hj. unfold mset.
  destruct (getitem_lt (cells c) i) as (row & -> & Hrow); [lia |].
  assert (Hlen : length row = shape1 c).
  { eapply Forall_forall in Hcols; [exact Hcols |].
    eapply list_elem_of_lookup_2, Hrow. }
  rewrite bind_Ret, setitem_lt, bind_Ret by lia.
  eexists. split; [reflexivity |]. simpl.
  split; [| split; [done | split; [done |]]].
  - split; simpl; [by rewrite length_insert |].
    apply Forall_insert; [done |]. by rewrite length_insert.
  - intros a b. unfold cell. simpl.
    destruct (decide (a = i)) as [-> | Ha].
    + rewrite list_lookup_insert_eq by lia. simpl. rewrite Hrow. simpl.
      destruct (decide (b = j)) as [-> | Hb].
      * rewrite decide_True by done. by rewrite list_lookup_insert_eq by lia.
      * rewrite decide_False by (intros [_ ?]; done).
        by rewrite list_lookup_insert_ne by done.
    + rewrite list_lookup_insert_ne by done.
      by rewrite decide_False by (intros [? _]; done).
Qed.

Section CurvatureMirror.
Variables (n : nat) (c : ndarray2).

Lemma curvature_mirror_inner (i : nat) (c1 : ndarray2) (j : nat) :
  (i < n)%nat -> mirrored_up_to n c i 0 c1 -> (j <= n)%nat ->
  exists c2,
    foldM (fun c j => x ← mget c j i; mset c i j x) c1 (seq 0 j) = Ret c2
    /\ mirrored_up_to n c i j c2.
Proof.
  intros Hi Hstart. induction j as [| j IH]; intros Hj.
  - by exists c1.
  - destruct IH as (c2 & Hrun & (Hwf & H0 & H1) & Hval); [lia |].
    rewrite seq_0_S, foldM_snoc, Hrun, bind_Ret.
    rewrite mget_cell by (done || lia). rewrite bind_Ret.
    destruct (mset_cell c2 i j (cell c2 j i)) as (c3 & -> & Hwf3 & H03 & H13 & Hc3);
      [done | lia | lia |].
    exists c3. split; [done |]. split; [split; [done | split; congruence] |].
    intros a b Ha Hb. rewrite Hc3.
    destruct (decide (a = i /\ b = j)) as [[-> ->] | Hne].
    + rewrite decide_True by lia. rewrite Hval by lia.
      destruct (decide (j < i \/ (j = i /\ i < j))%nat) as [Hlow | Hup].
      * by rewrite Nat.max_comm, Nat.min_comm.
      * assert (Hij : (i <= j)%nat) by lia.
        by rewrite (Nat.max_r i j), (Nat.min_l i j) by lia.
    + rewrite Hval by done.
      destruct (decide (a < i \/ (a = i /\ b < j))%nat),
               (decide (a < i \/ (a = i /\ b < S j))%nat); try done; lia.
Qed.

Lemma curvature_mirror_outer (i : nat) :
  square_wf n c -> (i <= n)%nat ->
  exists c1,
    foldM (fun c i =>
             foldM (fun c j => x ← mget c j i; mset c i j x) c (seq 0 n))
          c (seq 0 i) = Ret c1
    /\ mirrored_up_to n c i 0 c1.
Proof.
  intros Hwf. induction i as [| i IH]; intros Hi.
  - exists c. split; [done |]. split; [done |]. intros a b _ _.
    by rewrite decide_False by lia.
  - destruct IH as (c1 & Hrun & Hinv); [lia |].
    rewrite seq_0_S, foldM_snoc, Hrun, bind_Ret.
    destruct (curvature_mirror_inner i c1 n) as (c2 & -> & Hwf2 & Hval);
      [lia | done | lia |].
    exists c2. split; [done |]. split; [done |]. intros a b Ha Hb.
    rewrite Hval by done.
    destruct (decide (a < i \/ (a = i /\ b < n))%nat),
             (decide (a < S i \/ (a = S i /\ b < 0))%nat); try done; lia.
Qed.
End CurvatureMirror.

Lemma curvature_mirror_run (n : nat) (c : ndarray2) :
  square_wf n c ->
  exists c',
    curvature_mirror n c = Ret c'
    /\ square_wf n c'
    /\ forall i j, (i < n)%nat -> (j < n)%nat ->
         cell c' i j = cell c (i `max` j) (i `min` j).
Proof.
  intros Hwf.
  destruct (curvature_mirror_outer n c n Hwf) as (c' & Hrun & Hwf' & Hval);
    [lia |].
  exists c'. split; [exact Hrun |]. split; [done |].
  intros i j Hi Hj. rewrite Hval by done. by rewrite decide_True by lia.
Qed.

(** X15. The closing loops of the curvature matrix, run in place on a
    square array, return; they leave the diagonal and the lower triangle
    as they were and overwrite each cell above the diagonal with the
    cell below it, so that the result is symmetric. *)
Theorem curvature_mirror_copies_lower (n : nat) (c : ndarray2) :
  square_wf n c ->
  exists c',
    curvature_mirror n c = Ret c'
    /\ square_wf n c'
    /\ (forall i j, (i < n)%nat -> (j < n)%nat ->
          cell c' i j = cell c (i `max` j) (i `min` j))
    /\ (forall i j, (i < n)%nat -> (j < n)%nat -> cell c' i j = cell c' j i).
Proof.
  intros Hwf.
  destruct (curvature_mirror_run n c Hwf) as (c' & Hrun & Hwf' & Hlow).
  exists c'. split; [exact Hrun |]. split; [done |]. split; [done |].
  intros i j Hi Hj. rewrite !Hlow by done.
  by rewrite Nat.max_comm, Nat.min_comm.
Qed.

(** An array that is not symmetric: the entry below the diagonal wins. *)
Lemma curvature_mirror_copies_lower_witness :
  exists c',
    curvature_mirror 2 (array_of [[1; 2]; [3; 4]]) = Ret c'
    /\ cell c' 0 1 = 3 /\ cell c' 1 0 = 3.
Proof.
  destruct (curvature_mirror_copies_lower 2 (array_of [[1; 2]; [3; 4]]))
    as (c' & Hrun & _ & Hlow & _).
  - split; [| done]. split; [reflexivity |]. repeat constructor.
  - exists c'. split; [exact Hrun |].
    split; rewrite Hlow by lia; reflexivity.
Defined.

Lemma Qsum_map_ext_in {A : Type} (g h : A -> Q) (l : list A) :
  (forall x, x ∈ l -> g x == h x) -> Qsum (map g l) == Qsum (map h l).
Proof.
  induction l as [| x l IH]; intros Hgh; simpl map; [done |].
  rewrite !Qsum_cons, IH, (Hgh x) by (by left || (intros; apply Hgh; by right)).
  reflexivity.
Qed.

Lemma positives_S (m : ndarray2) (o p : nat) :
  positives m o (S p) =
  (positives m o p + (if Qgtb (cell m o p) 0 then 1 else 0))%nat.
Proof.
  unfold positives. rewrite seq_S, filter_app, length_app. simpl.
  rewrite filter_cons, filter_nil.
  destruct (decide _) as [-> | Hne]; [done |].
  by destruct (Qgtb (cell m o p) 0).
Qed.

Lemma positives_mono (m : ndarray2) (o p q : nat) :
  (p <= q)%nat -> (positives m o p <= positives m o q)%nat.
Proof.
  induction 1 as [| q _ IH]; [done |]. rewrite positives_S. lia.
Qed.

Lemma cell_out_of_range (m : ndarray2) (o a : nat) :
  array_wf m -> (shape1 m <= a)%nat -> cell m o a = 0.
Proof.
  intros [_ Hcols] Ha. unfold cell.
  destruct (cells m !! o) as [row |] eqn:Hrow; [| done]. simpl.
  assert (Hlen : length row = shape1 m).
  { eapply Forall_forall in Hcols; [exact Hcols |].
    eapply list_elem_of_lookup_2, Hrow. }
  rewrite lookup_ge_None_2; [done | lia].
Qed.

Lemma np_zeros2_square (n : nat) : square_wf n (np_zeros2 n n).
Proof.
  split; [| done]. split; simpl; [apply length_replicate |].
  apply Forall_replicate. apply length_replicate.
Qed.

Lemma np_zeros2_cell (r c a b : nat) : cell (np_zeros2 r c) a b = 0.
Proof.
  unfold cell. simpl.
  destruct (replicate r (replicate c 0) !! a) as [row |] eqn:Hrow; [| done].
  apply lookup_replicate in Hrow as [-> _]. simpl.
  destruct (replicate c 0 !! b) as [x |] eqn:Hx; [| done].
  by apply lookup_replicate in Hx as [-> _].
Qed.

Section CurvatureFormula.
Variables (m : ndarray2) (noise_map : list Q).
Hypothesis Hwf : array_wf m.
Hypothesis Hnoise : (shape0 m <= length noise_map)%nat.
Hypothesis Hnz :
  forall o nz, (o < shape0 m)%nat -> noise_map !! o = Some nz -> ~ nz == 0.
Hypothesis Hfew :
  forall o, (o < shape0 m)%nat -> (positives m o (shape1 m) < shape0 m)%nat.

(** The collecting loop of image row [o], after [p] columns. *)
Lemma curvature_collect_loop (o : nat) (fl : list Q) (ifl : list nat)
    (p : nat) :
  (o < shape0 m)%nat ->
  length fl = shape0 m -> length ifl = shape0 m -> (p <= shape1 m)%nat ->
  exists fl' ifl',
    foldM (curvature_collect m noise_map o) (O, fl, ifl) (seq 0 p)
    = Ret (positives m o p, fl', ifl')
    /\ length fl' = shape0 m /\ length ifl' = shape0 m
    /\ fl' !! 0%nat = fl !! 0%nat /\ ifl' !! 0%nat = ifl !! 0%nat
    /\ (forall s, (1 <= s <= positives m o p)%nat ->
          exists col, ifl' !! s = Some col /\ (col < p)%nat)
    /\ forall a,
         Qsum (map (slot_weight fl' ifl' a) (seq 1 (positives m o p)))
         == if decide (a < p)%nat then curvature_weight m noise_map o a else 0.
Proof.
  intros Ho Hfl Hifl. induction p as [| p IH]; intros Hp.
  - exists fl, ifl. split; [done |]. repeat (split; [done |]).
    split; [intros s; unfold positives; simpl; lia |].
    intros a. by rewrite decide_False by lia.
  - destruct IH as (fl1 & ifl1 & Hrun & Hfl1 & Hifl1 & Hf0 & Hi0 & Hcols & Hsum);
      [lia |].
    rewrite seq_0_S, foldM_snoc, Hrun, bind_Ret. unfold curvature_collect.
    rewrite mget_cell by (done || lia). rewrite bind_Ret.
    pose proof (positives_mono m o (S p) (shape1 m) Hp) as Hmono.
    pose proof (Hfew o Ho) as Hlt.
    rewrite positives_S in *.
    destruct (Qgtb (cell m o p) 0) eqn:Hpos.
    + destruct (getitem_lt noise_map o) as (nz & -> & Hn); [lia |].
      rewrite bind_Ret, truediv_nonzero by (exact (Hnz o nz Ho Hn)).
      rewrite bind_Ret, (setitem_lt fl1), (setitem_lt ifl1) by lia.
      rewrite !bind_Ret, Nat.add_1_r.
      eexists _, _. split; [reflexivity |].
      split; [by rewrite length_insert |]. split; [by rewrite length_insert |].
      split; [by rewrite list_lookup_insert_ne by lia |].
      split; [by rewrite list_lookup_insert_ne by lia |].
      split.
      * intros s Hs. destruct (decide (s = S (positives m o p))) as [-> | Hne].
        -- exists p. split; [| lia]. by rewrite list_lookup_insert_eq by lia.
        -- destruct (Hcols s) as (col & Hcol & Hlt'); [lia |].
           exists col. split; [| lia]. by rewrite list_lookup_insert_ne by lia.
      * intros a. rewrite seq_S, map_app. simpl map. rewrite Qsum_snoc.
        rewrite (Qsum_map_ext_in _ (slot_weight fl1 ifl1 a)).
        2:{ intros s Hs. apply elem_of_seq in Hs. unfold slot_weight, at0.
            by rewrite !list_lookup_insert_ne by lia. }
        rewrite Hsum. unfold slot_weight, at0. simpl.
        rewrite !list_lookup_insert_eq by lia. simpl.
        destruct (decide (a = p)) as [-> | Hne].
        -- rewrite (decide_False (P := (p < p)%nat)) by lia.
           rewrite (decide_True (P := Some p = Some p)) by done.
           rewrite (decide_True (P := (p < S p)%nat)) by lia.
           unfold curvature_weight. rewrite Hpos, (at0_lookup _ _ _ Hn). ring.
        -- rewrite (decide_False (P := Some p = Some a)) by congruence.
           destruct (decide (a < p)%nat), (decide (a < S p)%nat);
             try lia; ring.
    + rewrite Nat.add_0_r.
      exists fl1, ifl1. split; [done |]. repeat (split; [done |]).
      split.
      * intros s Hs. destruct (Hcols s Hs) as (col & Hcol & Hlt').
        exists col. split; [done | lia].
      * intros a. rewrite Hsum.
        destruct (decide (a = p)) as [-> | Hne].
        -- rewrite decide_False, decide_True by lia.
           unfold curvature_weight. by rewrite Hpos.
        -- destruct (decide (a < p)%nat), (decide (a < S p)%nat);
             try lia; reflexivity.
Qed.
(** The inner loop of the accumulation, for slot [i1], after [k] turns. *)
Lemma curvature_accumulate_inner (n idx : nat) (fl : list Q) (ifl : list nat)
    (c0 c : ndarray2) (i1 k : nat) (base : nat -> nat -> Q) :
  square_wf n c ->
  (forall s, (s <= idx)%nat -> exists col, ifl !! s = Some col /\ (col < n)%nat) ->
  (idx < length fl)%nat -> (i1 <= idx)%nat -> (k <= S idx)%nat ->
  (forall a b, cell c a b == base a b) ->
  exists c',
    foldM (fun c j1 =>
             ix ← getitem ifl i1;
             iy ← getitem ifl j1;
             old ← mget c ix iy;
             a ← getitem fl i1;
             b ← getitem fl j1;
             mset c ix iy (old + a * b)) c (seq 0 k) = Ret c'
    /\ square_wf n c'
    /\ forall a b,
         cell c' a b ==
         base a b + slot_weight fl ifl a i1
                    * Qsum (map (slot_weight fl ifl b) (seq 0 k)).
Proof.
  intros Hsq Hslots Hfl Hi1 Hk0 Hbase. induction k as [| k IH].
  - exists c. split; [done |]. split; [done |]. intros a b.
    simpl map. rewrite Qsum_nil, Hbase. ring.
  - destruct IH as (c1 & Hrun & (Hwf1 & H01 & H11) & Hval); [lia |].
    rewrite seq_0_S, foldM_snoc, Hrun, bind_Ret.
    destruct (Hslots i1 Hi1) as (ix & Hix & Hixn).
    destruct (Hslots k) as (iy & Hiy & Hiyn); [lia |].
    rewrite (proj2 (getitem_Ret _ _ _) Hix), bind_Ret.
    rewrite (proj2 (getitem_Ret _ _ _) Hiy), bind_Ret.
    rewrite mget_cell by (done || lia). rewrite bind_Ret.
    destruct (getitem_lt fl i1) as (x & -> & Hx); [lia |].
    destruct (getitem_lt fl k) as (y & -> & Hy); [lia |].
    rewrite !bind_Ret.
    destruct (mset_cell c1 ix iy (cell c1 ix iy + x * y))
      as (c2 & -> & Hwf2 & H02 & H12 & Hc2); [done | lia | lia |].
    exists c2. split; [done |]. split; [split; [done | split; congruence] |].
    intros a b. rewrite Hc2, map_app. simpl map. rewrite Qsum_snoc.
    unfold slot_weight at 1 3.
    destruct (decide (a = ix /\ b = iy)) as [[-> ->] | Hne].
    + rewrite Hval. unfold slot_weight at 1.
      rewrite !decide_True by done.
      rewrite (at0_lookup _ _ _ Hx), (at0_lookup _ _ _ Hy). ring.
    + rewrite Hval. unfold slot_weight at 1. rewrite Hix, Hiy.
      destruct (decide (Some ix = Some a)) as [Ha | Ha];
        destruct (decide (Some iy = Some b)) as [Hb | Hb]; try ring.
      exfalso. apply Hne. split; congruence.
Qed.

(** The accumulation over the slots [0 .. index] adds to cell [(a, b)]
    the product of what the slots hold for [a] and for [b]. *)
Lemma curvature_accumulate_adds (n idx : nat) (fl : list Q) (ifl : list nat)
    (c : ndarray2) :
  square_wf n c ->
  (forall s, (s <= idx)%nat -> exists col, ifl !! s = Some col /\ (col < n)%nat) ->
  (idx < length fl)%nat ->
  exists c',
    curvature_accumulate idx fl ifl c = Ret c'
    /\ square_wf n c'
    /\ forall a b,
         cell c' a b ==
         cell c a b + Qsum (map (slot_weight fl ifl a) (seq 0 (S idx)))
                      * Qsum (map (slot_weight fl ifl b) (seq 0 (S idx))).
Proof.
  intros Hsq Hslots Hfl. unfold curvature_accumulate.
  assert (Hloop : forall i, (i <= S idx)%nat ->
    exists c',
      foldM (fun c i1 =>
        foldM (fun c j1 =>
                 ix ← getitem ifl i1;
                 iy ← getitem ifl j1;
                 old ← mget c ix iy;
                 a ← getitem fl i1;
                 b ← getitem fl j1;
                 mset c ix iy (old + a * b)) c (seq 0 (S idx)))
        c (seq 0 i) = Ret c'
      /\ square_wf n c'
      /\ forall a b,
           cell c' a b ==
           cell c a b + Qsum (map (slot_weight fl ifl a) (seq 0 i))
                        * Qsum (map (slot_weight fl ifl b) (seq 0 (S idx)))).
  { induction i as [| i IH]; intros Hi.
    - exists c. split; [done |]. split; [done |]. intros a b.
      simpl map. rewrite Qsum_nil. ring.
    - destruct IH as (c1 & Hrun & Hsq1 & Hval); [lia |].
      rewrite (seq_0_S i), foldM_snoc, Hrun, bind_Ret.
      destruct (curvature_accumulate_inner n idx fl ifl c c1 i (S idx)
                  (fun a b =>
                     cell c a b
                     + Qsum (map (slot_weight fl ifl a) (seq 0 i))
                       * Qsum (map (slot_weight fl ifl b) (seq 0 (S idx)))))
        as (c2 & -> & Hsq2 & Hval2); [done | done | done | lia | lia | done |].
      exists c2. split; [done |]. split; [done |]. intros a b.
      rewrite Hval2, map_app. simpl map. rewrite Qsum_snoc. ring. }
  apply Hloop. lia.
Qed.

Lemma curvature_weight_out_of_range (o a : nat) :
  (shape1 m <= a)%nat -> curvature_weight m noise_map o a = 0.
Proof.
  intros Ha. unfold curvature_weight.
  by rewrite (cell_out_of_range m o a Hwf Ha).
Qed.

(** One turn of the row loop adds the products of the weights of image
    row [o]. *)
Lemma curvature_row_adds (o : nat) (st : curvature_state) :
  (o < shape0 m)%nat -> curvature_state_wf m st ->
  exists st',
    curvature_row m noise_map st o = Ret st'
    /\ curvature_state_wf m st'
    /\ forall a b,
         cell (curvature_matrix st') a b ==
         cell (curvature_matrix st) a b
         + curvature_weight m noise_map o a * curvature_weight m noise_map o b.
Proof.
  intros Ho (Hsq & Hfl & Hifl & Hf0 & Hi0). unfold curvature_row.
  destruct (curvature_collect_loop o (flist st) (iflist st) (shape1 m))
    as (fl' & ifl' & -> & Hfl' & Hifl' & Hf0' & Hi0' & Hcols & Hsum);
    [done | done | done | lia |].
  rewrite bind_Ret.
  assert (Hzero : at0 fl' 0 = 0) by (unfold at0 in *; by rewrite Hf0').
  assert (Hslot0 : forall a,
            Qsum (map (slot_weight fl' ifl' a)
                      (seq 0 (S (positives m o (shape1 m)))))
            == curvature_weight m noise_map o a).
  { intros a. simpl seq. simpl map. rewrite Qsum_cons, Hsum.
    unfold slot_weight at 1. rewrite Hzero.
    destruct (decide (a < shape1 m)%nat) as [Ha | Ha].
    - destruct (decide _); ring.
    - rewrite curvature_weight_out_of_range by lia. destruct (decide _); ring. }
  assert (Hwf' : forall c', square_wf (shape1 m) c' ->
                   curvature_state_wf m (mkCurv c' fl' ifl')).
  { intros c' Hc'. split; [done |]. split; [done |]. split; [done |].
    split; [done |]. simpl. intros x Hx. apply Hi0. by rewrite <- Hi0'. }
  destruct (decide (0 < positives m o (shape1 m))%nat) as [Hidx | Hidx].
  - destruct (curvature_accumulate_adds (shape1 m) (positives m o (shape1 m))
                fl' ifl' (curvature_matrix st))
      as (c' & -> & Hsq' & Hval).
    + done.
    + intros s Hs. destruct (decide (s = 0%nat)) as [-> | Hne].
      * destruct (Hcols 1%nat) as (col & _ & Hcol); [lia |].
        destruct (lookup_lt_is_Some_2 ifl' 0) as [x Hx]; [lia |].
        exists x. split; [done |].
        rewrite (Hi0 x) by (by rewrite <- Hi0'). lia.
      * apply Hcols. lia.
    + pose proof (Hfew o Ho). lia.
    + rewrite bind_Ret. eexists. split; [reflexivity |].
      split; [by apply Hwf' |]. simpl. intros a b.
      by rewrite Hval, !Hslot0.
  - eexists. split; [reflexivity |]. split; [by apply Hwf' |].
    simpl. intros a b.
    assert (Hnone : forall a, curvature_weight m noise_map o a == 0).
    { intros a'. rewrite <- Hslot0.
      replace (positives m o (shape1 m)) with 0%nat by lia.
      simpl. unfold slot_weight. rewrite Hzero. destruct (decide _); reflexivity. }
    rewrite (Hnone a). ring.
Qed.

(** The row loop, after [o] rows. *)
Lemma curvature_rows (o : nat) :
  (o <= shape0 m)%nat ->
  exists st,
    foldM (curvature_row m noise_map)
          (mkCurv (np_zeros2 (shape1 m) (shape1 m))
                  (replicate (shape0 m) 0) (replicate (shape0 m) O))
          (seq 0 o) = Ret st
    /\ curvature_state_wf m st
    /\ forall a b,
         cell (curvature_matrix st) a b ==
         Qsum (map (fun o => curvature_weight m noise_map o a
                             * curvature_weight m noise_map o b) (seq 0 o)).
Proof.
  induction o as [| o IH]; intros Ho.
  - eexists. split; [reflexivity |]. split.
    + split; [apply np_zeros2_square |]. simpl.
      rewrite !length_replicate. split; [done |]. split; [done |]. split.
      * unfold at0. destruct (replicate (shape0 m) 0 !! 0%nat) eqn:Hz; [| done].
        by apply lookup_replicate in Hz as [-> _].
      * intros x Hx. by apply lookup_replicate in Hx as [-> _].
    + intros a b. simpl. by rewrite np_zeros2_cell.
  - destruct IH as (st & Hrun & Hst & Hval); [lia |].
    rewrite seq_0_S, foldM_snoc, Hrun, bind_Ret.
    destruct (curvature_row_adds o st) as (st' & -> & Hst' & Hval');
      [lia | done |].
    exists st'. split; [done |]. split; [done |]. intros a b.
    rewrite Hval', Hval, map_app. simpl map. by rewrite Qsum_snoc.
Qed.

Lemma curvature_matrix_dense :
  exists c,
    curvature_matrix_from_blurred_mapping_matrix m noise_map = Ret c
    /\ square_wf (shape1 m) c
    /\ forall i j, (i < shape1 m)%nat -> (j < shape1 m)%nat ->
         cell c i j ==
         Qsum (map (fun o => curvature_weight m noise_map o i
                             * curvature_weight m noise_map o j)
                   (seq 0 (shape0 m))).
Proof.
  unfold curvature_matrix_from_blurred_mapping_matrix,
    curvature_matrix_from_blurred_mapping_matrix_jit. cbv zeta.
  destruct (curvature_rows (shape0 m)) as (st & -> & (Hsq & _) & Hval); [lia |].
  rewrite bind_Ret.
  destruct (curvature_mirror_run (shape1 m) (curvature_matrix st) Hsq)
    as (c & -> & Hsq' & Hlow).
  exists c. split; [done |]. split; [done |]. intros i j Hi Hj.
  rewrite Hlow, Hval by done. apply Qsum_map_ext. intros o.
  destruct (Nat.max_spec i j) as [[? ->] | [? ->]];
    destruct (Nat.min_spec i j) as [[? ->] | [? ->]]; try lia; ring.
Qed.
End CurvatureFormula.

(** X16. For a mapping matrix with the shape it records, a noise value
    that is not zero for every image pixel, and fewer positive entries in
    each row than there are image pixels (the scratch lists have one slot
    per image pixel and slot 0 is never written),
    [curvature_matrix_from_blurred_mapping_matrix] returns a square matrix
    of side [shape[1]] whose entry [(i, j)] is the sum over the image
    pixels [o] of the products of the weights [mapping[o, i] / noise[o]]
    and [mapping[o, j] / noise[o]], an entry that is not positive counting
    as zero. *)
Theorem curvature_matrix_formula (m : ndarray2) (noise_map : list Q) :
  array_wf m ->
  (shape0 m <= length noise_map)%nat ->
  (forall o nz, (o < shape0 m)%nat -> noise_map !! o = Some nz -> ~ nz == 0) ->
  (forall o, (o < shape0 m)%nat -> (positives m o (shape1 m) < shape0 m)%nat) ->
  exists c,
    curvature_matrix_from_blurred_mapping_matrix m noise_map = Ret c
    /\ square_wf (shape1 m) c
    /\ forall i j, (i < shape1 m)%nat -> (j < shape1 m)%nat ->
         cell c i j ==
         Qsum (map (fun o => curvature_weight m noise_map o i
                             * curvature_weight m noise_map o j)
                   (seq 0 (shape0 m))).
Proof. apply curvature_matrix_dense. Qed.

(** Three image pixels and two reconstruction pixels. *)
Lemma curvature_matrix_formula_witness :
  exists c,
    curvature_matrix_from_blurred_mapping_matrix
      (array_of [[1; 0]; [0; 1]; [1; 1]]) [1; 1; 1] = Ret c
    /\ cell c 0 0 == 2 /\ cell c 0 1 == 1.
Proof.
  destruct (curvature_matrix_formula
              (array_of [[1; 0]; [0; 1]; [1; 1]]) [1; 1; 1])
    as (c & Hrun & _ & Hval).
  - split; [reflexivity |]. repeat constructor.
  - simpl. lia.
  - intros o nz Ho Hn. simpl in Ho.
    destruct o as [| [| [| o]]]; simpl in Hn; try lia;
      inversion Hn; subst; intros Hq; discriminate Hq.
  - intros o Ho. simpl in Ho.
    destruct o as [| [| [| o]]]; try lia; vm_compute; lia.
  - exists c. split; [exact Hrun |].
    split; rewrite Hval by (simpl; lia); vm_compute; reflexivity.
Defined.
